(** * Contract-review pipeline: heuristic clause analysis, segmentation,
      payment-term extraction, fee merging and the upload route.

    Shallow embedding of the server-side TypeScript sources
    ([contractAnalyzer.ts], [openai.ts], [routes.ts], [storage.ts] and
    the shared [schema.ts]).

    Conventions of the embedding.
    - A JavaScript string is a list of code units.  The development covers
      the code units U+0000..U+00FF, carried by [ascii]; on that range
      [toLowerCase] works unit by unit and never leaves the range.  Beyond
      it [toLowerCase] depends on the context; the module [Sigma] adds the
      Greek sigma, where this shows, and runs the rule matcher on it.
    - [Math.random()] is an explicit input: a Number, that is an IEEE 754
      double, given by its rational value, which the language guarantees
      to lie in the half-open interval from 0 to 1.  The product in
      [Math.floor(Math.random() * n)] is the product of Numbers: the exact
      product rounded to the nearest double, a tie going to the even
      significand ([Double.mul]).
    - A JavaScript [Map] is an insertion-ordered association list.
    - Promises that reject and [throw] are the [Err] branch of a result
      type; the storage layer is a state threaded through the routes.
    - Console output and the pause between batches of clauses have no
      counterpart here. *)

From Stdlib Require Import List Ascii String ZArith QArith Qround Qpower.
From Stdlib Require Import Lia Lqa Bool.
From Stdlib Require Import Permutation.
Import ListNotations.

Set Implicit Arguments.

(* ================================================================= *)
(** ** JavaScript strings *)

Module JS.

Definition str := list ascii.

Definition lit (s : string) : str := list_ascii_of_string s.

Definition code (c : ascii) : N := N_of_ascii c.

(** [String.prototype.toLowerCase] on one code unit of the covered range:
    the letters A-Z and the upper-case letters of U+00C0..U+00DE (the
    multiplication sign U+00D7 is not a letter). *)
Definition isUpper (c : ascii) : bool :=
  let n := code c in
  ((65 <=? n) && (n <=? 90) ||
   (192 <=? n) && (n <=? 222) && negb (n =? 215))%N.

Definition toLowerChar (c : ascii) : ascii :=
  if isUpper c then ascii_of_N (code c + 32) else c.

Definition toLowerCase (s : str) : str := map toLowerChar s.

(** White space and line terminators: what [\s] matches and what
    [trim] strips (TAB, LF, VT, FF, CR, SP, NBSP). *)
Definition isWhiteSpace (c : ascii) : bool :=
  let n := code c in
  ((n =? 9) || (n =? 10) || (n =? 11) || (n =? 12) || (n =? 13) ||
   (n =? 32) || (n =? 160))%N.

Definition isDigit (c : ascii) : bool :=
  let n := code c in ((48 <=? n) && (n <=? 57))%N.

Fixpoint trimStart (s : str) : str :=
  match s with
  | c :: s' => if isWhiteSpace c then trimStart s' else s
  | [] => []
  end.

Definition trimEnd (s : str) : str := rev (trimStart (rev s)).

Definition trim (s : str) : str := trimEnd (trimStart s).

Fixpoint startsWith (s p : str) : bool :=
  match p, s with
  | [], _ => true
  | a :: p', b :: s' => Ascii.eqb a b && startsWith s' p'
  | _ :: _, [] => false
  end.

(** [s.includes(sub)]: [sub] starts at some position of [s]. *)
Fixpoint includes (s sub : str) : bool :=
  startsWith s sub ||
  match s with
  | [] => false
  | _ :: s' => includes s' sub
  end.

Definition dquote : ascii := ascii_of_N 34.

Definition eqb (a b : str) : bool :=
  if list_eq_dec ascii_dec a b then true else false.

(** [xs[i]] for an integer [i]: [undefined] outside the array. *)
Definition index {A : Type} (xs : list A) (i : Z) : option A :=
  if (i <? 0)%Z then None else nth_error xs (Z.to_nat i).

(** [xs.join(sep)] *)
Fixpoint join (sep : str) (xs : list str) : str :=
  match xs with
  | [] => []
  | [x] => x
  | x :: rest => x ++ sep ++ join sep rest
  end.

End JS.

Abbreviation str := JS.str.
Notation "'$' s" := (JS.lit s) (at level 1, format "'$' s").

(* ================================================================= *)
(** ** Data model ([schema.ts]) *)

Record ComplianceRule := {
  rule_id : Z;
  keyword : str;
  allowed : bool;
  riskScore : option Z;
  rule_category : option str;
  description : option str
}.

(** The [compliance_status] of an analysis is a string.  The heuristic
    analyzer writes one of three labels; the AI-backed one passes on the
    label of the reply, which is checked against nothing:
    [OtherStatus l] stands for a label [l] that is none of the three. *)
Inductive ComplianceStatus :=
| Compliant
| NonCompliant
| ReviewNeeded
| OtherStatus (label : str).

Definition statusText (s : ComplianceStatus) : str :=
  match s with
  | Compliant => $"Compliant"
  | NonCompliant => $"Non-Compliant"
  | ReviewNeeded => $"Review Needed"
  | OtherStatus label => label
  end.

(** One of the three labels of the heuristic analyzer. *)
Definition isKnown (s : ComplianceStatus) : bool :=
  match s with OtherStatus _ => false | _ => true end.

(** The status a string is. *)
Definition statusOf (s : str) : ComplianceStatus :=
  if JS.eqb s $"Compliant" then Compliant
  else if JS.eqb s $"Non-Compliant" then NonCompliant
  else if JS.eqb s $"Review Needed" then ReviewNeeded
  else OtherStatus s.

Record Recommendation := { title : str; rec_description : str }.

Record ComplianceIssue := {
  issue : str;
  issue_rule : option str;
  issue_description : str
}.

Record Analysis := {
  compliance_status : ComplianceStatus;
  risk_score : Z;
  category : option str;
  recommendations : list Recommendation;
  compliance_issues : list ComplianceIssue
}.

(** An element of the [matches] array of [basicClauseAnalysis]. *)
Record RuleMatch := { rule : ComplianceRule; isViolation : bool }.

(* ================================================================= *)
(** ** Numbers *)

(** A finite Number is the rational it denotes.  Arithmetic on Numbers
    rounds the exact result to the nearest double (53 significant bits,
    exponents from -1022 upwards, subnormals below), a tie going to the
    neighbour with the even significand.  The values met here stay far
    below the largest double, so overflow has no counterpart. *)
Module Double.

Definition pow2 (e : Z) : Q := 2 ^ e.

(** [floor (log2 x)] for a positive [x]. *)
Definition ilog2 (x : Q) : Z :=
  let d := (Z.log2 (Qnum x) - Z.log2 (Zpos (Qden x)))%Z in
  if Qle_bool (pow2 d) x then d else (d - 1)%Z.

(** The gap between neighbouring doubles around a positive [x]: 52
    fraction bits below the exponent, exponents from -1022 upwards. *)
Definition ulp (x : Q) : Q := pow2 (Z.max (ilog2 x) (-1022) - 52).

(** The nearest integer, a tie going to the even one. *)
Definition nearestEven (t : Q) : Z :=
  let f := Qfloor t in
  let rest := t - inject_Z f in
  if Qle_bool rest (1 # 2)
  then (if Qle_bool (1 # 2) rest
        then (if Z.even f then f else (f + 1)%Z)
        else f)
  else (f + 1)%Z.

Definition roundPositive (x : Q) : Q :=
  inject_Z (nearestEven (x / ulp x)) * ulp x.

(** The Number nearest to the real [x]. *)
Definition round (x : Q) : Q :=
  if Qle_bool x 0
  then (if Qle_bool 0 x then 0 else - roundPositive (- x))
  else roundPositive x.

(** [x * y] on Numbers. *)
Definition mul (x y : Q) : Q := round (x * y).

(** [x] is a Number. *)
Definition isDouble (x : Q) : Prop := round x == x.

End Double.

(* ================================================================= *)
(** ** The random source *)

(** The three calls of [Math.random()] in [basicClauseAnalysis]. *)
Record Draws := {
  statusDraw : Q;     (* Math.random() > 0.5 *)
  riskDraw : Q;       (* Math.floor(Math.random() * 10) *)
  categoryDraw : Q    (* Math.floor(Math.random() * categories.length) *)
}.

(** The contract of [Math.random()]: at least 0 and below 1. *)
Definition unitInterval (r : Q) : Prop := (0 <= r)%Q /\ (r < 1)%Q.

(** [Math.floor(r * n)] for a draw [r] and an integer [n]. *)
Definition floorTimes (r : Q) (n : Z) : Z :=
  Qfloor (Double.mul r (inject_Z n)).

(* ================================================================= *)
(** ** Rule matcher and heuristic analyzer ([contractAnalyzer.ts]) *)

Module Analyzer.

Import JS.

Definition ruleApplies (clauseText : str) (r : ComplianceRule) : bool :=
  includes (toLowerCase clauseText) (toLowerCase (keyword r)).

(** The object pushed for an applicable rule. *)
Definition toMatch (r : ComplianceRule) : RuleMatch :=
  {| rule := r; isViolation := negb (allowed r) |}.

(** The [rules.forEach] loop: [matches.push] appends at the end. *)
Definition matchRules (clauseText : str) (rules : list ComplianceRule)
  : list RuleMatch :=
  fold_left
    (fun matches r =>
       if ruleApplies clauseText r then matches ++ [toMatch r] else matches)
    rules [].

Definition categories : list str :=
  [ $"Liability"; $"IP Rights"; $"Confidentiality"; $"Payment Terms";
    $"Termination"; $"Indemnification" ].

Definition decideStatus (matches violations : list RuleMatch) (d : Draws)
  : ComplianceStatus :=
  if (0 <? Z.of_nat (List.length violations))%Z then NonCompliant
  else if (0 <? Z.of_nat (List.length matches))%Z then
    (if negb (Qle_bool (statusDraw d) (1 # 2)) then Compliant else ReviewNeeded)
  else Compliant.

Definition adjustRisk (st : ComplianceStatus) (riskScore : Z) : Z :=
  match st with
  | NonCompliant => Z.max 7 riskScore
  | ReviewNeeded => Z.max 4 (Z.min 6 riskScore)
  | _ => Z.min 3 riskScore
  end.

Definition sniffCategory (clauseText : str) (randomCategory : option str)
  : option str :=
  let t := toLowerCase clauseText in
  if includes t $"confiden" then Some $"Confidentiality"
  else if includes t $"terminat" then Some $"Termination"
  else if includes t $"payment" || includes t $"fee" then Some $"Payment Terms"
  else if includes t $"liab" then Some $"Liability"
  else if includes t $"intellectual" || includes t $"property"
       then Some $"IP Rights"
  else if includes t $"indemnif" then Some $"Indemnification"
  else randomCategory.

Definition orElse (o : option str) (dflt : str) : str :=
  match o with
  | Some [] | None => dflt
  | Some s => s
  end.

Definition basicClauseAnalysis
  (clauseText : str) (rules : list ComplianceRule) (section : option str)
  (d : Draws) : Analysis :=
  let matches := matchRules clauseText rules in
  let violations := filter isViolation matches in
  let complianceStatus := decideStatus matches violations d in
  let riskScore := adjustRisk complianceStatus (floorTimes (riskDraw d) 10) in
  let randomCategory :=
    index categories
      (floorTimes (categoryDraw d) (Z.of_nat (List.length categories))) in
  let cat := sniffCategory clauseText randomCategory in
  let recs :=
    match complianceStatus with
    | NonCompliant =>
        [ {| title := $"Remove non-compliant language";
             rec_description :=
               $"This clause contains non-compliant language related to "
               ++ join $", " (map (fun v => keyword (rule v)) violations)
               ++ $". Consider revising or removing." |} ]
    | ReviewNeeded =>
        [ {| title := $"Review clause carefully";
             rec_description :=
               $"This clause contains language that may require further review by legal experts." |} ]
    | _ => []
    end in
  let issues :=
    map (fun v =>
           let k := keyword (rule v) in
           {| issue := $"Non-compliant use of " ++ [dquote] ++ k ++ [dquote];
              issue_rule := Some k;
              issue_description :=
                orElse (description (rule v))
                  ($"The use of " ++ [dquote] ++ k ++ [dquote]
                   ++ $" violates compliance rules.") |})
        violations in
  {| compliance_status := complianceStatus;
     risk_score := riskScore;
     category := cat;
     recommendations := recs;
     compliance_issues := issues |}.

End Analyzer.

(* ================================================================= *)
(** ** Lower-casing beyond U+00FF: the Greek sigma

    [toLowerCase] is the default case conversion of Unicode.  It maps
    code unit by code unit except for the capital sigma, whose image
    depends on the context: the final small sigma when a cased letter
    comes before it and none comes after it, case-ignorable characters
    set aside, and the small sigma otherwise.  This module takes the
    strings made of the code units U+0000..U+00FF and of the three
    sigmas, and the rule matcher on them. *)

Module Sigma.

Inductive codeUnit :=
| Latin (c : ascii)
| CapitalSigma            (* U+03A3 *)
| SmallSigma              (* U+03C3 *)
| FinalSigma.             (* U+03C2 *)

Definition ustr := list codeUnit.

(** The property Cased on U+0000..U+00FF: the letters A-Z and a-z, the
    ordinal indicators, the micro sign, and the letters of U+00C0..U+00FF
    (the multiplication and division signs are no letters). *)
Definition casedLatin (c : ascii) : bool :=
  let n := JS.code c in
  ((65 <=? n) && (n <=? 90) || (97 <=? n) && (n <=? 122)
   || (n =? 170) || (n =? 181) || (n =? 186)
   || (192 <=? n) && (n <=? 214) || (216 <=? n) && (n <=? 246)
   || (248 <=? n) && (n <=? 255))%N.

(** The property Case_Ignorable on U+0000..U+00FF: apostrophe, full
    stop, colon, circumflex, grave accent, diaeresis, soft hyphen,
    macron, acute accent, middle dot and cedilla. *)
Definition ignorableLatin (c : ascii) : bool :=
  let n := JS.code c in
  ((n =? 39) || (n =? 46) || (n =? 58) || (n =? 94) || (n =? 96)
   || (n =? 168) || (n =? 173) || (n =? 175) || (n =? 180)
   || (n =? 183) || (n =? 184))%N.

Definition cased (u : codeUnit) : bool :=
  match u with Latin c => casedLatin c | _ => true end.

Definition caseIgnorable (u : codeUnit) : bool :=
  match u with Latin c => ignorableLatin c | _ => false end.

(** What follows is a run of case-ignorable characters and then a cased
    letter. *)
Fixpoint casedLetterFollows (s : ustr) : bool :=
  match s with
  | [] => false
  | u :: s' => if caseIgnorable u then casedLetterFollows s' else cased u
  end.

(** [toLowerCase] from a position on.  [casedBefore] tells whether what
    comes before the position ends with a cased letter and a run of
    case-ignorable characters. *)
Fixpoint lowerFrom (casedBefore : bool) (s : ustr) : ustr :=
  match s with
  | [] => []
  | u :: rest =>
      (match u with
       | Latin c => Latin (JS.toLowerChar c)
       | CapitalSigma =>
           if casedBefore && negb (casedLetterFollows rest)
           then FinalSigma else SmallSigma
       | SmallSigma => SmallSigma
       | FinalSigma => FinalSigma
       end)
      :: lowerFrom (if caseIgnorable u then casedBefore else cased u) rest
  end.

Definition toLowerCase (s : ustr) : ustr := lowerFrom false s.

Definition unitEqb (a b : codeUnit) : bool :=
  match a, b with
  | Latin x, Latin y => Ascii.eqb x y
  | CapitalSigma, CapitalSigma => true
  | SmallSigma, SmallSigma => true
  | FinalSigma, FinalSigma => true
  | _, _ => false
  end.

Fixpoint startsWith (s p : ustr) : bool :=
  match p, s with
  | [], _ => true
  | a :: p', b :: s' => unitEqb a b && startsWith s' p'
  | _ :: _, [] => false
  end.

Fixpoint includes (s sub : ustr) : bool :=
  startsWith s sub ||
  match s with
  | [] => false
  | _ :: s' => includes s' sub
  end.

(** What the matcher reads of a rule, and an element of [matches]. *)
Record Rule := { keyword : ustr; allowed : bool }.

Record Match := { rule : Rule; isViolation : bool }.

Definition ruleApplies (clauseText : ustr) (r : Rule) : bool :=
  includes (toLowerCase clauseText) (toLowerCase (keyword r)).

Definition toMatch (r : Rule) : Match :=
  {| rule := r; isViolation := negb (allowed r) |}.

(** The [rules.forEach] loop of [basicClauseAnalysis]. *)
Definition matchRules (clauseText : ustr) (rules : list Rule)
  : list Match :=
  fold_left
    (fun matches r =>
       if ruleApplies clauseText r then matches ++ [toMatch r] else matches)
    rules [].

(** A string and a rule of the narrower range. *)
Definition ofLatin (s : str) : ustr := map Latin s.

Definition ofRule (r : ComplianceRule) : Rule :=
  match r with
  | Build_ComplianceRule _ kw ok _ _ _ =>
      {| keyword := ofLatin kw; allowed := ok |}
  end.

Definition ofMatch (m : RuleMatch) : Match :=
  match m with
  | Build_RuleMatch r v => {| rule := ofRule r; isViolation := v |}
  end.

(** A clause that ends with a capital sigma after a letter, and a rule
    that forbids the capital sigma. *)
Definition sigmaText : ustr := [Latin "A"%char; CapitalSigma].

Definition sigmaRule : Rule := {| keyword := [CapitalSigma]; allowed := false |}.

End Sigma.

(* ================================================================= *)
(** ** Regular expressions: the fragment the sources use

    A backtracking matcher in continuation-passing style.  Quantifiers
    occur in the sources only on character classes ([\s*], [\s+],
    [[0-9]+], ...), so [Star] takes a class; it is greedy and gives
    characters back one at a time when the rest of the pattern fails.
    Every pattern of interest has at most one capture group. *)

Module Regex.

Import JS.

Inductive re :=
| Eps
| Chr (c : ascii)
| Cls (p : ascii -> bool)
| Star (p : ascii -> bool)
| Cat (a b : re)
| Alt (a b : re)
| Group (a : re).

Definition Plus (p : ascii -> bool) : re := Cat (Cls p) (Star p).
Definition Opt (a : re) : re := Alt a Eps.

Fixpoint Str (s : str) : re :=
  match s with
  | [] => Eps
  | c :: s' => Cat (Chr c) (Str s')
  end.

Fixpoint Seq (rs : list re) : re :=
  match rs with
  | [] => Eps
  | r :: rs' => Cat r (Seq rs')
  end.

(** Comparison of a pattern character with an input character; under the
    [i] flag both are canonicalised, which on the covered range identifies
    exactly a letter and its other case. *)
Definition chrEq (ignoreCase : bool) (c x : ascii) : bool :=
  if ignoreCase then Ascii.eqb (toLowerChar c) (toLowerChar x)
  else Ascii.eqb c x.

Section Matcher.

Variable ignoreCase : bool.
Variable A : Type.

Fixpoint star (p : ascii -> bool) (s : str) (k : str -> option A) : option A :=
  match s with
  | c :: s' =>
      if p c then
        match star p s' k with
        | Some r => Some r
        | None => k s
        end
      else k s
  | [] => k []
  end.

(** [run r s cap k]: match [r] at the head of [s]; [k] receives the rest
    of the input and the capture. *)
Fixpoint run (r : re) (s : str) (cap : option str)
  (k : str -> option str -> option A) : option A :=
  match r with
  | Eps => k s cap
  | Chr c =>
      match s with
      | x :: s' => if chrEq ignoreCase c x then k s' cap else None
      | [] => None
      end
  | Cls p =>
      match s with
      | x :: s' => if p x then k s' cap else None
      | [] => None
      end
  | Star p => star p s (fun s' => k s' cap)
  | Cat a b => run a s cap (fun s' cap' => run b s' cap' k)
  | Alt a b =>
      match run a s cap k with
      | Some x => Some x
      | None => run b s cap k
      end
  | Group a =>
      run a s cap
        (fun s' _ => k s' (Some (firstn (List.length s - List.length s') s)))
  end.

End Matcher.

(** What the patterns mean: [Sem i r w c c'] says that [r] matches the
    word [w] and turns the capture [c] into [c']. *)
Inductive Sem (ignoreCase : bool) : re -> str -> option str -> option str -> Prop :=
| SemEps c : Sem ignoreCase Eps [] c c
| SemChr x y c : chrEq ignoreCase x y = true -> Sem ignoreCase (Chr x) [y] c c
| SemCls p y c : p y = true -> Sem ignoreCase (Cls p) [y] c c
| SemStar p w c : forallb p w = true -> Sem ignoreCase (Star p) w c c
| SemCat a b w1 w2 c c1 c2 :
    Sem ignoreCase a w1 c c1 -> Sem ignoreCase b w2 c1 c2 ->
    Sem ignoreCase (Cat a b) (w1 ++ w2) c c2
| SemAltL a b w c c1 : Sem ignoreCase a w c c1 -> Sem ignoreCase (Alt a b) w c c1
| SemAltR a b w c c1 : Sem ignoreCase b w c c1 -> Sem ignoreCase (Alt a b) w c c1
| SemGroup a w c c1 : Sem ignoreCase a w c c1 -> Sem ignoreCase (Group a) w c (Some w).

(** The result of a successful match: the matched text [m[0]] and the
    capture [m[1]]. *)
Record MatchResult := { m0 : str; m1 : option str }.

(** Match at the head of [s] (a sticky match at the current index). *)
Definition matchAt (ignoreCase : bool) (r : re) (s : str) : option MatchResult :=
  run ignoreCase r s None
    (fun s' cap =>
       Some {| m0 := firstn (List.length s - List.length s') s; m1 := cap |}).

(** [s.match(r)] without the [g] flag: the leftmost match. *)
Fixpoint search (ignoreCase : bool) (r : re) (s : str) : option MatchResult :=
  match matchAt ignoreCase r s with
  | Some m => Some m
  | None =>
      match s with
      | [] => None
      | _ :: s' => search ignoreCase r s'
      end
  end.

(** [s.split(r)] for a pattern without capture groups that never matches
    the empty string.  [cur] is the piece being collected (reversed) and
    [skip] counts the characters of the separator still to be dropped. *)
Fixpoint splitFrom (r : re) (cur : str) (skip : nat) (s : str) : list str :=
  match s with
  | [] => [rev cur]
  | c :: s' =>
      match skip with
      | S n => splitFrom r cur n s'
      | O =>
          match matchAt false r s with
          | Some m =>
              match List.length (m0 m) with
              | S n => rev cur :: splitFrom r [] n s'
              | O => splitFrom r (c :: cur) 0 s'
              end
          | None => splitFrom r (c :: cur) 0 s'
          end
      end
  end.

Definition split (r : re) (s : str) : list str := splitFrom r [] 0 s.

End Regex.

(* ================================================================= *)
(** ** Clause segmenter ([splitTextIntoClauses]) *)

Module Segmenter.

Import JS Regex.

Definition newline : ascii := ascii_of_N 10.

(** [/\n\s*\n/] *)
Definition blankLine : re := Seq [Chr newline; Star isWhiteSpace; Chr newline].

(** [/\.\s+/] *)
Definition sentenceEnd : re := Seq [Chr "."%char; Plus isWhiteSpace].

Definition longerThan (n : nat) (s : str) : bool := n <? List.length s.

Definition splitTextIntoClauses (text : str) : list str :=
  let paragraphs := split blankLine text in
  let clauses := filter (fun p => longerThan 50 (trim p)) paragraphs in
  if List.length clauses =? 0
  then filter (fun s => longerThan 50 s) (split sentenceEnd text)
  else clauses.

End Segmenter.

(* ================================================================= *)
(** ** Stored records ([schema.ts]) *)

(** What [analyzeDocument] produces and [createClause] receives. *)
Module InsertClause.
Record t := {
  clause : str;
  section : option str;
  page : option Z;
  category : option str;
  risk_score : Z;
  compliance_status : str;
  document_id : str;
  completed : option bool;
  recommendations : option (list Recommendation);
  compliance_issues : option (list ComplianceIssue)
}.
End InsertClause.

(** A row of the [clauses] table. *)
Module Clause.
Record t := {
  id : Z;
  clause : str;
  section : option str;
  page : option Z;
  category : option str;
  risk_score : Z;
  compliance_status : str;
  document_id : str;
  completed : option bool
}.
End Clause.

Record Fee := {
  name : str;
  amount : str;
  frequency : option str;
  fee_description : option str;
  fee_category : option str
}.

Record RateCardItem := { item : str; rate : str; unit_ : option str }.

Record ContractSummary := {
  documentId : str;
  summary_title : option str;
  parties : option (option str * option str);
  effectiveDate : option str;
  termLength : option str;
  paymentTerms : option (list str);
  rateCard : option (list RateCardItem);
  fees : option (list Fee);
  keyObligations : option (list str);
  confidentialityTerms : option str;
  terminationClauses : option (list str)
}.

(* ================================================================= *)
(** ** Payment-term extraction ([basicPaymentTermExtraction]) *)

Module Payment.

Import JS Regex.

Definition ws : re := Plus isWhiteSpace.
Definition digits : re := Plus isDigit.

Definition isDigitOrDot (c : ascii) : bool :=
  isDigit c || Ascii.eqb c "."%char.

(** [/net\s+([0-9]+)\s+days?/i] *)
Definition net_days : re :=
  Seq [Str $"net"; ws; Group digits; ws; Str $"day"; Opt (Chr "s"%char)].

(** [/pay(?:ment)?\s+within\s+([0-9]+)\s+days?/i] *)
Definition pay_within : re :=
  Seq [Str $"pay"; Opt (Str $"ment"); ws; Str $"within"; ws; Group digits; ws;
       Str $"day"; Opt (Chr "s"%char)].

(** [/due\s+(?:within|in)\s+([0-9]+)\s+days?/i] *)
Definition due : re :=
  Seq [Str $"due"; ws; Alt (Str $"within") (Str $"in"); ws; Group digits; ws;
       Str $"day"; Opt (Chr "s"%char)].

(** [/late\s+(?:fee|payment|charge)\s+of\s+([0-9\.]+%|[0-9\.]+\s+percent)/i] *)
Definition late_fee : re :=
  Seq [Str $"late"; ws;
       Alt (Str $"fee") (Alt (Str $"payment") (Str $"charge")); ws;
       Str $"of"; ws;
       Group (Alt (Seq [Plus isDigitOrDot; Chr "%"%char])
                  (Seq [Plus isDigitOrDot; ws; Str $"percent"]))].

(** The [filter] callback selecting payment-related clauses. *)
Definition paymentRelated (c : Clause.t) : bool :=
  let t := toLowerCase (Clause.clause c) in
  includes t $"payment" || includes t $"invoice" || includes t $"net" ||
  includes t $"due" || includes t $"paid" || includes t $"pay within".

(** [m[1]] of a match; an unset group reads as the empty string when it
    is spliced into a template literal. *)
Definition group1 (m : MatchResult) : str :=
  match m1 m with Some s => s | None => [] end.

Definition isSome {A : Type} (o : option A) : bool :=
  match o with Some _ => true | None => false end.

(** Some payment pattern matches: the condition
    [net_days_match || pay_within_match || due_match || late_fee_match]. *)
Definition matchesPaymentPattern (text : str) : bool :=
  let clause_text := toLowerCase text in
  isSome (search true net_days clause_text) ||
  isSome (search true pay_within clause_text) ||
  isSome (search true due clause_text) ||
  isSome (search true late_fee clause_text).

(** The [map] callback: [None] is [null] (or [undefined], when a long
    clause matched no branch of the inner chain). *)
Definition extractTerm (c : Clause.t) : option str :=
  let clause_text := toLowerCase (Clause.clause c) in
  let net_days_match := search true net_days clause_text in
  let pay_within_match := search true pay_within clause_text in
  let due_match := search true due clause_text in
  let late_fee_match := search true late_fee clause_text in
  if isSome net_days_match || isSome pay_within_match ||
     isSome due_match || isSome late_fee_match
  then
    if List.length (Clause.clause c) <=? 100 then Some (Clause.clause c)
    else
      match net_days_match with
      | Some m => Some ($"Payment terms: Net " ++ group1 m ++ $" days.")
      | None =>
      match pay_within_match with
      | Some m => Some ($"Payment due within " ++ group1 m ++ $" days.")
      | None =>
      match due_match with
      | Some m => Some ($"Payment due within " ++ group1 m ++ $" days.")
      | None =>
      match late_fee_match with
      | Some m => Some ($"Late payment fee of " ++ group1 m ++ $" applies.")
      | None => None
      end end end end
  else None.

(** [.filter(Boolean)]: drops [null] and the empty string. *)
Fixpoint filterBoolean (xs : list (option str)) : list str :=
  match xs with
  | [] => []
  | Some (c :: s) :: rest => (c :: s) :: filterBoolean rest
  | _ :: rest => filterBoolean rest
  end.

(** [Array.from(new Set(xs))]: first occurrences, in order. *)
Definition setAdd (seen : list str) (x : str) : list str :=
  if existsb (JS.eqb x) seen then seen else seen ++ [x].

Definition arrayFromSet (xs : list str) : list str := fold_left setAdd xs [].

Definition basicPaymentTermExtraction (clauses : list Clause.t) : list str :=
  let paymentRelatedClauses := filter paymentRelated clauses in
  let extractedTerms := filterBoolean (map extractTerm paymentRelatedClauses) in
  arrayFromSet extractedTerms.

End Payment.

(* ================================================================= *)
(** ** JavaScript [Map]: insertion-ordered, one entry per key *)

Module JSMap.

Section Ops.

Variables K V : Type.
Variable keq : K -> K -> bool.

Definition t := list (K * V).

Definition has (m : t) (k : K) : bool := existsb (fun e => keq (fst e) k) m.

Fixpoint get (m : t) (k : K) : option V :=
  match m with
  | [] => None
  | (k', v) :: m' => if keq k' k then Some v else get m' k
  end.

(** [m.set(k, v)]: an existing key keeps its position and takes the new
    value; a new key goes to the end. *)
Fixpoint set (m : t) (k : K) (v : V) : t :=
  match m with
  | [] => [(k, v)]
  | (k', v') :: m' => if keq k' k then (k', v) :: m' else (k', v') :: set m' k v
  end.

Definition delete (m : t) (k : K) : t := filter (fun e => negb (keq (fst e) k)) m.

(** [new Map(entries)] *)
Definition ofEntries (es : list (K * V)) : t :=
  fold_left (fun m e => set m (fst e) (snd e)) es [].

Definition keys (m : t) : list K := map fst m.
Definition values (m : t) : list V := map snd m.

End Ops.

End JSMap.

(* ================================================================= *)
(** ** Fee merge of the extract-fees route ([routes.ts]) *)

Module Fees.

Definition sampleFee : Fee :=
  {| name := $"Processing Fee";
     amount := $"5%";
     frequency := Some $"per transaction";
     fee_description := Some $"Fee for processing contract transactions";
     fee_category := Some $"Service Fees" |}.

(** [summary.fees || []] *)
Definition existingFees (summary : ContractSummary) : list Fee :=
  match fees summary with Some fs => fs | None => [] end.

(** The loop over [extractedFees]: add a fee whose name the map lacks. *)
Definition addNewFees (feeMap : JSMap.t str Fee) (extractedFees : list Fee)
  : JSMap.t str Fee :=
  fold_left
    (fun m fee => if JSMap.has JS.eqb m (name fee) then m
                  else JSMap.set JS.eqb m (name fee) fee)
    extractedFees feeMap.

(** [existingFees.map(fee => [fee.name, fee])] *)
Definition byName (fs : list Fee) : list (str * Fee) :=
  map (fun fee => (name fee, fee)) fs.

(** The map after the loop. *)
Definition mergedMap (existing extractedFees : list Fee) : JSMap.t str Fee :=
  let feeMap := JSMap.ofEntries JS.eqb (byName existing) in
  addNewFees feeMap extractedFees.

Definition mergeFees (existing extractedFees : list Fee) : list Fee :=
  JSMap.values (mergedMap existing extractedFees).

(** Every key of the map is the name of the fee it holds. *)
Definition keyedByName (m : JSMap.t str Fee) : Prop :=
  Forall (fun e => fst e = name (snd e)) m.

Definition withFees (summary : ContractSummary) (updatedFees : list Fee)
  : ContractSummary :=
  {| documentId := documentId summary;
     summary_title := summary_title summary;
     parties := parties summary;
     effectiveDate := effectiveDate summary;
     termLength := termLength summary;
     paymentTerms := paymentTerms summary;
     rateCard := rateCard summary;
     fees := Some updatedFees;
     keyObligations := keyObligations summary;
     confidentialityTerms := confidentialityTerms summary;
     terminationClauses := terminationClauses summary |}.

(** From "Check if any fees were found" to [updatedSummary]:
    [extractedFees] is what the extraction (by the AI backend or by
    [basicFeeExtraction]) returned. *)
Definition extractFeesMerge (summary : ContractSummary) (extractedFees : list Fee)
  : ContractSummary :=
  let extractedFees :=
    if List.length extractedFees =? 0 then [sampleFee] else extractedFees in
  withFees summary (mergeFees (existingFees summary) extractedFees).

End Fees.

(* ================================================================= *)
(** ** Exceptions *)

Inductive Result (A : Type) :=
| Ok (a : A)
| Err (message : str).

Arguments Ok {A} a.
Arguments Err {A} message.

(** [try { body } catch (e) { handler e }] on a pure computation. *)
Definition tryCatchR {A : Type} (body : Result A) (handler : str -> Result A)
  : Result A :=
  match body with
  | Ok a => Ok a
  | Err e => handler e
  end.

(* ================================================================= *)
(** ** AI-backed clause analysis ([openai.ts]) and [analyzeDocument] *)

Module OpenAI.

(** The object [JSON.parse] returns, as far as the caller reads it.  A
    field is [None] when the reply does not have it.  Nothing checks the
    reply against the labels and the range the prompt asks for: the
    status is whatever string the reply gives, the score whatever
    integer. *)
Record AiJson := {
  j_compliance_status : option str;
  j_risk_score : option Z;
  j_category : option str;
  j_recommendations : option (list Recommendation);
  j_compliance_issues : option (list ComplianceIssue)
}.

(** What can come back from [openai.chat.completions.create]. *)
Inductive AiReply :=
| RequestFails            (* the call rejects *)
| NoContent               (* message.content is empty *)
| NotJson                 (* JSON.parse throws, or returns null *)
| Json (j : AiJson).

Definition aiFailure (r : AiReply) : bool :=
  match r with Json _ => false | _ => true end.

(** [section || 'General'] *)
Definition sectionOrGeneral (section : option str) : str :=
  Analyzer.orElse section $"General".

(** The body of the [try] block of [analyzeClauseWithAI]. *)
Definition requestAnalysis (section : option str) (reply : AiReply)
  : Result Analysis :=
  match reply with
  | RequestFails => Err $"request failed"
  | NoContent => Err $"No content in response"
  | NotJson => Err $"Unexpected token in JSON"
  | Json j =>
      Ok {| compliance_status :=
              statusOf (Analyzer.orElse (j_compliance_status j)
                                        $"Review Needed");
            risk_score :=
              match j_risk_score j with
              | Some 0%Z | None => 5%Z
              | Some r => r
              end;
            category :=
              Some (Analyzer.orElse (j_category j) (sectionOrGeneral section));
            recommendations :=
              match j_recommendations j with Some l => l | None => [] end;
            compliance_issues :=
              match j_compliance_issues j with Some l => l | None => [] end |}
  end.

(** The [catch] block of [analyzeClauseWithAI]. *)
Definition defaultAnalysis (section : option str) : Analysis :=
  {| compliance_status := ReviewNeeded;
     risk_score := 5;
     category := Some (sectionOrGeneral section);
     recommendations :=
       [ {| title := $"AI Analysis Failed";
            rec_description :=
              $"The automated analysis could not be completed. Please review this clause manually." |} ];
     compliance_issues := [] |}.

Definition analyzeClauseWithAI
  (clause : str) (rules : list ComplianceRule) (section : option str)
  (reply : AiReply) : Result Analysis :=
  tryCatchR (requestAnalysis section reply)
            (fun _ => Ok (defaultAnalysis section)).

End OpenAI.

Module Document.

Import OpenAI.

(** What the environment contributes to the analysis of one clause. *)
Record ClauseEnv := {
  sectionDraw : Q;
  reply : AiReply;
  draws : Draws
}.

Definition sampleSections : list str :=
  [ $"1.1"; $"2.3"; $"3.5"; $"4.2"; $"5.7"; $"6.1"; $"7.4"; $"8.3"; $"9.1" ].

Definition nonEmpty {A : Type} (l : list A) : option (list A) :=
  match l with [] => None | _ => Some l end.

(** The analysis step of the loop body: the [if (process.env.OPENAI_API_KEY)]
    with its inner [try]/[catch]. *)
Definition analyzeClause (apiKey : bool) (clauseText : str)
  (rules : list ComplianceRule) (section : option str) (e : ClauseEnv)
  : Result Analysis :=
  if apiKey then
    tryCatchR (analyzeClauseWithAI clauseText rules section (reply e))
              (fun _ => Ok (Analyzer.basicClauseAnalysis clauseText rules section (draws e)))
  else Ok (Analyzer.basicClauseAnalysis clauseText rules section (draws e)).

(** One iteration of the loop of [analyzeDocument]. *)
Definition analyzeAt (apiKey : bool) (rules : list ComplianceRule)
  (documentId : str) (i : nat) (clauseText : str) (e : ClauseEnv)
  : Result InsertClause.t :=
  let section :=
    JS.index sampleSections
      (floorTimes (sectionDraw e) (Z.of_nat (List.length sampleSections))) in
  match analyzeClause apiKey clauseText rules section e with
  | Err m => Err m
  | Ok analysis =>
      Ok {| InsertClause.clause := clauseText;
            InsertClause.section := section;
            InsertClause.page := Some (Z.of_nat i / 4 + 1)%Z;
            InsertClause.category := category analysis;
            InsertClause.risk_score := risk_score analysis;
            InsertClause.compliance_status := statusText (compliance_status analysis);
            InsertClause.document_id := documentId;
            InsertClause.completed := None;
            InsertClause.recommendations := nonEmpty (recommendations analysis);
            InsertClause.compliance_issues := nonEmpty (compliance_issues analysis) |}
  end.

Fixpoint analyzeFrom (apiKey : bool) (rules : list ComplianceRule)
  (documentId : str) (env : nat -> ClauseEnv) (i : nat) (clauses : list str)
  : Result (list InsertClause.t) :=
  match clauses with
  | [] => Ok []
  | clauseText :: rest =>
      match analyzeAt apiKey rules documentId i clauseText (env i) with
      | Err m => Err m
      | Ok analyzedClause =>
          match analyzeFrom apiKey rules documentId env (S i) rest with
          | Err m => Err m
          | Ok more => Ok (analyzedClause :: more)
          end
      end
  end.

Definition analyzeDocument (apiKey : bool) (clauses : list str)
  (rules : list ComplianceRule) (documentId : str) (env : nat -> ClauseEnv)
  : Result (list InsertClause.t) :=
  tryCatchR (analyzeFrom apiKey rules documentId env 0 clauses)
            (fun _ => Err $"Failed to analyze document").

End Document.

(* ================================================================= *)
(** ** Storage ([storage.ts]) *)

Module Storage.

(** The tables the routes below touch, laid out as [MemStorage] has
    them: rows keyed by a serial id that is handed out from 1 upwards.
    The database-backed implementation of the same interface keeps the
    same rows behind queries. *)
Record Store := {
  clausesList : JSMap.t Z Clause.t;
  clauseCurrentId : Z;
  complianceRulesList : JSMap.t Z ComplianceRule;
  contractSummaries : JSMap.t str ContractSummary
}.

(** A storage call is a request to the database and may reject.  [faults]
    schedules the outcome of the calls to come, one flag per call: [true]
    makes the call reject and leaves the tables as they are.  Once the
    schedule is used up every call goes through. *)
Record World := {
  store : Store;
  faults : list bool
}.

Definition M (A : Type) : Type := World -> Result A * World.

Definition ret {A : Type} (a : A) : M A := fun w => (Ok a, w).

Definition bind {A B : Type} (m : M A) (f : A -> M B) : M B :=
  fun w =>
    match m w with
    | (Ok a, w') => f a w'
    | (Err e, w') => (Err e, w')
    end.

Definition throw {A : Type} (e : str) : M A := fun w => (Err e, w).

Definition tryCatch {A : Type} (body : M A) (handler : str -> M A) : M A :=
  fun w =>
    match body w with
    | (Ok a, w') => (Ok a, w')
    | (Err e, w') => handler e w'
    end.

Definition liftR {A : Type} (r : Result A) : M A := fun w => (r, w).

(** [for (const x of xs) { await f x }] *)
Fixpoint forEach {A : Type} (xs : list A) (f : A -> M unit) : M unit :=
  match xs with
  | [] => ret tt
  | x :: rest => bind (f x) (fun _ => forEach rest f)
  end.

Definition call {A : Type} (op : Store -> A * Store) : M A :=
  fun w =>
    match faults w with
    | true :: fs => (Err $"storage error", {| store := store w; faults := fs |})
    | false :: fs =>
        let (a, s) := op (store w) in (Ok a, {| store := s; faults := fs |})
    | [] =>
        let (a, s) := op (store w) in (Ok a, {| store := s; faults := [] |})
    end.

Definition getAllClauses : M (list Clause.t) :=
  call (fun s => (JSMap.values (clausesList s), s)).

Definition getClausesByDocumentId (documentId : str) : M (list Clause.t) :=
  call (fun s =>
          (filter (fun c => JS.eqb (Clause.document_id c) documentId)
                  (JSMap.values (clausesList s)), s)).

Definition getAllComplianceRules : M (list ComplianceRule) :=
  call (fun s => (JSMap.values (complianceRulesList s), s)).

Definition withId (c : InsertClause.t) (id : Z) : Clause.t :=
  {| Clause.id := id;
     Clause.clause := InsertClause.clause c;
     Clause.section := InsertClause.section c;
     Clause.page := InsertClause.page c;
     Clause.category := InsertClause.category c;
     Clause.risk_score := InsertClause.risk_score c;
     Clause.compliance_status := InsertClause.compliance_status c;
     Clause.document_id := InsertClause.document_id c;
     Clause.completed := InsertClause.completed c |}.

Definition createClause (c : InsertClause.t) : M Clause.t :=
  call (fun s =>
          let id := clauseCurrentId s in
          let newClause := withId c id in
          (newClause,
           {| clausesList := JSMap.set Z.eqb (clausesList s) id newClause;
              clauseCurrentId := (id + 1)%Z;
              complianceRulesList := complianceRulesList s;
              contractSummaries := contractSummaries s |})).

Definition deleteClause (id : Z) : M bool :=
  call (fun s =>
          (JSMap.has Z.eqb (clausesList s) id,
           {| clausesList := JSMap.delete Z.eqb (clausesList s) id;
              clauseCurrentId := clauseCurrentId s;
              complianceRulesList := complianceRulesList s;
              contractSummaries := contractSummaries s |})).

Definition createContractSummary (summary : ContractSummary) : M ContractSummary :=
  call (fun s =>
          (summary,
           {| clausesList := clausesList s;
              clauseCurrentId := clauseCurrentId s;
              complianceRulesList := complianceRulesList s;
              contractSummaries :=
                JSMap.set JS.eqb (contractSummaries s) (documentId summary) summary |})).

(** The clauses resident in storage. *)
Definition residentClauses (w : World) : list Clause.t :=
  JSMap.values (clausesList (store w)).


(** What every reachable state of the clause table satisfies: ids are
    positive, below the next id to hand out, and each row sits under its
    own id. *)
Definition wellFormed (w : World) : Prop :=
  (0 < clauseCurrentId (store w))%Z
  /\ Forall (fun e => (0 < fst e < clauseCurrentId (store w))%Z
                      /\ Clause.id (snd e) = fst e)
            (clausesList (store w)).

(** A computation that keeps [wellFormed], whatever it returns. *)
Definition preserves {A : Type} (m : M A) : Prop :=
  forall w r w', wellFormed w -> m w = (r, w') -> wellFormed w'.

(** Serial ids start at 1: no row has id 0. *)
Definition idsFromOne (w : World) : Prop :=
  Forall (fun e => fst e <> 0%Z /\ Clause.id (snd e) = fst e)
         (clausesList (store w)).

End Storage.

(* ================================================================= *)
(** ** The upload route ([POST /api/upload] in [routes.ts]) *)

Module Upload.

Import Storage.

Notation "x <- m ;; k" := (bind m (fun x => k))
  (at level 61, m at next level, right associativity).

(** Everything the route takes from the request and from its
    collaborators.  The summary record is put together between the
    insertion of the clauses and [createContractSummary] without a
    storage call and without a [throw] that escapes; it enters as a
    function of the analysed clauses. *)
Record Env := {
  hasFile : bool;                       (* req.file *)
  fileId : str;                         (* Date.now().toString() *)
  apiKey : bool;                        (* process.env.OPENAI_API_KEY *)
  extractedText : Result str;           (* extractTextFromPdf / extractTextFromDocx *)
  aiClauses : list str;                 (* extractClausesWithAI(text) *)
  clauseEnv : nat -> Document.ClauseEnv;
  assembleSummary : list InsertClause.t -> ContractSummary
}.

Record Response := {
  status : Z;
  message : str;
  clauses : list InsertClause.t
}.

(** [extractClauses]: the text of the document, then the clauses of the
    AI backend when it is configured and returns some, else the
    heuristic split.  [extractClausesWithAI] catches its own errors. *)
Definition extractClauses (env : Env) : Result (list str) :=
  tryCatchR
    (match extractedText env with
     | Err e => Err e
     | Ok text =>
         if apiKey env && (0 <? List.length (aiClauses env))
         then Ok (aiClauses env)
         else Ok (Segmenter.splitTextIntoClauses text)
     end)
    (fun _ => Err $"Failed to extract clauses from document").

(** The body of the loop of the reset: [if (clause.id)] guards the
    deletion. *)
Definition deleteOne (c : Clause.t) : M unit :=
  if (Clause.id c =? 0)%Z then ret tt
  else _ <- deleteClause (Clause.id c) ;; ret tt.

(** "Reset all clauses before processing new document": the body of the
    inner [try]. *)
Definition resetClauses : M unit :=
  existingClauses <- getAllClauses ;;
  forEach existingClauses deleteOne.

Definition withCompletion (c : InsertClause.t) : InsertClause.t :=
  {| InsertClause.clause := InsertClause.clause c;
     InsertClause.section := InsertClause.section c;
     InsertClause.page := InsertClause.page c;
     InsertClause.category := InsertClause.category c;
     InsertClause.risk_score := InsertClause.risk_score c;
     InsertClause.compliance_status := InsertClause.compliance_status c;
     InsertClause.document_id := InsertClause.document_id c;
     InsertClause.completed := Some false;
     InsertClause.recommendations := InsertClause.recommendations c;
     InsertClause.compliance_issues := InsertClause.compliance_issues c |}.

Definition storeClauses (analyzedClauses : list InsertClause.t) : M unit :=
  forEach analyzedClauses
    (fun c => _ <- createClause (withCompletion c) ;; ret tt).

Definition upload (env : Env) : M Response :=
  tryCatch
    (if negb (hasFile env)
     then ret {| status := 400; message := $"No file provided"; clauses := [] |}
     else
       (* continue with upload even if reset fails *)
       _ <- tryCatch resetClauses (fun _ => ret tt) ;;
       extractedClauses <- liftR (extractClauses env) ;;
       rules <- getAllComplianceRules ;;
       analyzedClauses <-
         liftR (Document.analyzeDocument (apiKey env) extractedClauses rules
                  (fileId env) (clauseEnv env)) ;;
       _ <- storeClauses analyzedClauses ;;
       _ <- createContractSummary (assembleSummary env analyzedClauses) ;;
       ret {| status := 200;
              message := $"Document analyzed successfully";
              clauses := analyzedClauses |})
    (fun e => ret {| status := 500; message := e; clauses := [] |}).

End Upload.

(* ================================================================= *)
(** ** Sample data *)

Module Examples.

Definition mkRule (id : Z) (kw : str) (ok : bool) : ComplianceRule :=
  {| rule_id := id; keyword := kw; allowed := ok; riskScore := None;
     rule_category := None; description := None |}.

(** The rules the in-memory storage is created with. *)
Definition ndaRule : ComplianceRule := mkRule 1 $"Non-disclosure agreement" true.
Definition liabilityRule : ComplianceRule := mkRule 2 $"Liability clause" false.
Definition ipRule : ComplianceRule := mkRule 3 $"Intellectual property rights" true.

Definition initialRules : list ComplianceRule := [ndaRule; liabilityRule; ipRule].

(** A clause that names the disallowed keyword, in capitals. *)
Definition liabilityText : str :=
  $"This LIABILITY CLAUSE caps the damages either party may claim.".

(** The Numbers nearest 0.6, 1/6 and 0.9. *)
Definition sixTenths : Q := 5404319552844595 # 9007199254740992.
Definition oneSixth : Q := 6004799503160661 # 36028797018963968.
Definition nineTenths : Q := 8106479329266893 # 9007199254740992.

Definition draws : Draws :=
  {| statusDraw := 3 # 4; riskDraw := nineTenths; categoryDraw := 1 # 2 |}.

Definition storedClause (id : Z) (text documentId : str) : Clause.t :=
  {| Clause.id := id; Clause.clause := text; Clause.section := None;
     Clause.page := Some 1%Z; Clause.category := None; Clause.risk_score := 2;
     Clause.compliance_status := $"Compliant";
     Clause.document_id := documentId; Clause.completed := Some false |}.

Definition lateFeeText : str := $"A late fee of 5% applies.".

Definition net30Prefix : str :=
  $"Net 30 days from receipt of invoice. A late payment fee of 1.5% per month".

Definition net30Rest : str :=
  $" will be assessed on all overdue amounts.".

Definition net30Clause : Clause.t :=
  storedClause 1 (net30Prefix ++ net30Rest) $"1700000000000".

Definition lateFeeClause : Clause.t :=
  storedClause 2 lateFeeText $"1700000000000".

Definition blank : str := [Segmenter.newline; Segmenter.newline].

(** Three numbered one-line provisions, separated by blank lines. *)
Definition shortProvisions : str :=
  $"1. Fees are due monthly." ++ blank ++
  $"2. Either party may terminate." ++ blank ++
  $"3. Notices must be in writing.".

(** One paragraph of one long sentence. *)
Definition oneParagraph : str :=
  $"Both parties agree to maintain the confidentiality of all proprietary information".

Definition summaryFor (documentId : str) : ContractSummary :=
  {| documentId := documentId;
     summary_title := Some $"Contract Agreement contract.pdf";
     parties := Some (Some $"Company A", Some $"Company B");
     effectiveDate := None;
     termLength := Some $"12 months";
     paymentTerms := Some [$"Net 30 days"];
     rateCard := None;
     fees := None;
     keyObligations := None;
     confidentialityTerms := None;
     terminationClauses := None |}.

Definition clauseEnv0 : Document.ClauseEnv :=
  {| Document.sectionDraw := 3 # 8;
     Document.reply := OpenAI.RequestFails;
     Document.draws := draws |}.

(** An upload without an AI backend: one paragraph, hence one clause. *)
Definition uploadEnv : Upload.Env :=
  {| Upload.hasFile := true;
     Upload.fileId := $"1700000000001";
     Upload.apiKey := false;
     Upload.extractedText := Ok oneParagraph;
     Upload.aiClauses := [];
     Upload.clauseEnv := fun _ => clauseEnv0;
     Upload.assembleSummary := fun _ => summaryFor $"1700000000001" |}.

(** Storage as it is created: no clause, the next id is 1. *)
Definition initialStore : Storage.Store :=
  {| Storage.clausesList := [];
     Storage.clauseCurrentId := 1;
     Storage.complianceRulesList :=
       [(1%Z, ndaRule); (2%Z, liabilityRule); (3%Z, ipRule)];
     Storage.contractSummaries := [] |}.




End Examples.

(* ================================================================= *)
(** ** Notions the specification speaks of *)

Module Spec.

Import JS.

(** The upper-case letters of U+0000..U+00FF, by code: A-Z and the
    letters of U+00C0..U+00DE.  The lower-case form of each lies 32 code
    units above it. *)
Definition upperCase (n : N) : bool :=
  ((65 <=? n) && (n <=? 90) || (192 <=? n) && (n <=? 214)
   || (216 <=? n) && (n <=? 222))%N.

(** Two characters that are the same, or the two cases of one letter. *)
Definition sameLetter (x y : ascii) : bool :=
  ((code x =? code y)
   || upperCase (code x) && (code y =? code x + 32)
   || upperCase (code y) && (code x =? code y + 32))%N.

(** Two strings that differ at most in the case of their letters. *)
Definition sameIgnoringCase (a b : str) : Prop :=
  Forall2 (fun x y => sameLetter x y = true) a b.

(** [kw] occurs in [text] as a substring, up to letter case. *)
Definition occursIgnoringCase (kw text : str) : Prop :=
  exists pre mid post, text = pre ++ mid ++ post /\ sameIgnoringCase mid kw.

(** A run of one or more characters of a class. *)
Definition runOf (p : ascii -> bool) (w : str) : Prop :=
  w <> [] /\ forallb p w = true.

(** [text] holds the words "net" and "day", in any letter case, with the
    number [N] between them: the pattern "Net N days".  [pre] is what
    comes before. *)
Definition netDaysAt (pre N text : str) : Prop :=
  exists net ws1 ws2 day post,
    text = pre ++ net ++ ws1 ++ N ++ ws2 ++ day ++ post
    /\ sameIgnoringCase net $"net" /\ sameIgnoringCase day $"day"
    /\ runOf isWhiteSpace ws1 /\ runOf isDigit N /\ runOf isWhiteSpace ws2.

Definition netDays (N text : str) : Prop := exists pre, netDaysAt pre N text.

(** The words of the pattern [/net\s+([0-9]+)\s+days?/i] with number [N],
    up to the optional final "s". *)
Definition netDaysWord (N w : str) : Prop :=
  exists net ws1 ws2 day tail,
    w = net ++ ws1 ++ N ++ ws2 ++ day ++ tail
    /\ Forall2 (fun x y => Regex.chrEq true x y = true) $"net" net
    /\ runOf isWhiteSpace ws1 /\ runOf isDigit N
    /\ runOf isWhiteSpace ws2
    /\ Forall2 (fun x y => Regex.chrEq true x y = true) $"day" day.

(** A rule is matched and not allowed. *)
Definition violates (clauseText : str) (r : ComplianceRule) : Prop :=
  occursIgnoringCase (keyword r) clauseText /\ allowed r = false.

(** The risk band a compliance status implies; a label that is none of
    the three has no band. *)
Definition inBand (st : ComplianceStatus) (score : Z) : Prop :=
  match st with
  | NonCompliant => (7 <= score <= 9)%Z
  | ReviewNeeded => (4 <= score <= 6)%Z
  | Compliant => (0 <= score <= 3)%Z
  | OtherStatus _ => False
  end.


(** Set equality of two arrays: the same elements, whatever the order
    and the number of repetitions. *)
Definition sameSet {A : Type} (xs ys : list A) : Prop :=
  forall x, In x xs <-> In x ys.

End Spec.

(* ================================================================= *)
(** ** Further string operations *)

Module Text.

Import JS.

(** [\w]: an ASCII letter, a digit or the underscore. *)
Definition isWordChar (c : ascii) : bool :=
  let n := code c in
  ((65 <=? n) && (n <=? 90) || (97 <=? n) && (n <=? 122) ||
   (48 <=? n) && (n <=? 57) || (n =? 95))%N.

Definition isLowerAZ (c : ascii) : bool :=
  let n := code c in ((97 <=? n) && (n <=? 122))%N.

(** [l.toUpperCase()] for a character that [\w] matched. *)
Definition upperWordChar (c : ascii) : ascii :=
  if isLowerAZ c then ascii_of_N (code c - 32) else c.

(** [s.replace(/\b\w/g, l => l.toUpperCase())]: [prevWord] tells whether
    the character before is a word character. *)
Fixpoint titleCaseFrom (prevWord : bool) (s : str) : str :=
  match s with
  | [] => []
  | c :: s' =>
      (if isWordChar c && negb prevWord then upperWordChar c else c)
        :: titleCaseFrom (isWordChar c) s'
  end.

Definition titleCase (s : str) : str := titleCaseFrom false s.

(** [s.substring(0, n)] *)
Definition substring0 (n : nat) (s : str) : str := firstn n s.

(** [s.endsWith(suffix)] *)
Definition endsWith (s suffix : str) : bool := startsWith (rev s) (rev suffix).

(** [s.substring(0, 100)], followed by three dots when [s.length > 100]. *)
Definition excerpt (s : str) : str :=
  substring0 100 s ++ (if 100 <? List.length s then $"..." else []).

(** Case analysis on the 256 characters. *)
Ltac each_char c := destruct c as [[] [] [] [] [] [] [] []].

End Text.

(* ================================================================= *)
(** ** Heuristic fee extraction ([basicFeeExtraction]) *)

Module FeeExtraction.

Import JS Regex Text.

Definition isAmountChar (c : ascii) : bool :=
  isDigit c || Ascii.eqb c ","%char || Ascii.eqb c "."%char.

(** [[a-z\s]] under the [i] flag. *)
Definition isLetterOrSpace (c : ascii) : bool :=
  isLowerAZ (toLowerChar c) || isWhiteSpace c.

Fixpoint oneOf (words : list str) : re :=
  match words with
  | [] => Cls (fun _ => false)
  | [w] => Str w
  | w :: rest => Alt (Str w) (oneOf rest)
  end.

(** [/(?:a|an|the)\s+([a-z\s]+(?:fee|charge|payment))/i] *)
Definition fee_name : re :=
  Seq [oneOf [$"a"; $"an"; $"the"]; Payment.ws;
       Group (Seq [Plus isLetterOrSpace; oneOf [$"fee"; $"charge"; $"payment"]])].

(** [/\$\s*([0-9,\.]+)|([0-9,\.]+)\s*dollars/i]; only [m[0]] is read. *)
Definition amount_re : re :=
  Alt (Seq [Chr "$"%char; Star isWhiteSpace; Plus isAmountChar])
      (Seq [Plus isAmountChar; Star isWhiteSpace; Str $"dollars"]).

(** [/([0-9\.]+)\s*(?:percent|%)/i]; only [m[0]] is read. *)
Definition percentage_re : re :=
  Seq [Plus Payment.isDigitOrDot; Star isWhiteSpace; oneOf [$"percent"; $"%"]].

(** [/(?:per|each|every)\s+(month|year|quarter|week|day|hour|annum)/i] *)
Definition frequency_re : re :=
  Seq [oneOf [$"per"; $"each"; $"every"]; Payment.ws;
       Group (oneOf [$"month"; $"year"; $"quarter"; $"week"; $"day"; $"hour";
                     $"annum"])].

(** The [filter] callback selecting fee-related clauses. *)
Definition feeRelated (clauseText : str) : bool :=
  let t := toLowerCase clauseText in
  includes t $"fee" || includes t $"payment" || includes t $"cost" ||
  includes t $"price" || includes t $"charge".

(** The [map] callback, on the text and the category of a clause. *)
Definition feeOf (clauseText : str) (category : option str) : Fee :=
  let clause_text := toLowerCase clauseText in
  let fee_name_match := search true fee_name clause_text in
  let amount_match := search true amount_re clause_text in
  let percentage_match := search true percentage_re clause_text in
  let frequency_match := search true frequency_re clause_text in
  {| name :=
       match fee_name_match with
       | Some m => titleCase (trim (Payment.group1 m))
       | None => $"Unspecified Fee"
       end;
     amount :=
       match amount_match with
       | Some m => m0 m
       | None =>
           match percentage_match with
           | Some m => m0 m
           | None => $"See contract for details"
           end
       end;
     frequency :=
       match frequency_match with
       | Some m => m1 m
       | None => None
       end;
     fee_description := Some (excerpt clauseText);
     fee_category := Some (Analyzer.orElse category $"General Fee") |}.

(** "Remove duplicates by name":
    [Array.from(new Map(fees.map(fee => [fee.name, fee])).values())] *)
Definition dedupeByName (extractedFees : list Fee) : list Fee :=
  JSMap.values (JSMap.ofEntries JS.eqb (Fees.byName extractedFees)).

Definition basicFeeExtraction (clauses : list Clause.t) : list Fee :=
  let feeRelatedClauses := filter (fun c => feeRelated (Clause.clause c)) clauses in
  let extractedFees :=
    map (fun c => feeOf (Clause.clause c) (Clause.category c)) feeRelatedClauses in
  dedupeByName extractedFees.

End FeeExtraction.

(* ================================================================= *)
(** ** Heuristic rate-card extraction ([basicRateCardExtraction]) *)

Module RateCard.

Import JS Regex Text FeeExtraction.

(** [/(?:for|of)\s+([a-z\s]+(?:service|support|consultation|assistance|work))/i] *)
Definition service_re : re :=
  Seq [oneOf [$"for"; $"of"]; Payment.ws;
       Group (Seq [Plus isLetterOrSpace;
                   oneOf [$"service"; $"support"; $"consultation";
                          $"assistance"; $"work"]])].

(** [/(?:per|each|every)\s+(hour|day|week|month|year|project|item|unit)/i] *)
Definition unit_re : re :=
  Seq [oneOf [$"per"; $"each"; $"every"]; Payment.ws;
       Group (oneOf [$"hour"; $"day"; $"week"; $"month"; $"year"; $"project";
                     $"item"; $"unit"])].

Definition costRelated (clauseText : str) : bool :=
  let t := toLowerCase clauseText in
  includes t $"price" || includes t $"rate" || includes t $"cost" ||
  includes t $"charge" || includes t $"$" || includes t $"dollar".

(** The [map] callback; [None] is the [null] of a clause without an
    amount. *)
Definition itemOf (clauseText : str) (category : option str)
  : option RateCardItem :=
  let clause_text := toLowerCase clauseText in
  let service_match := search true service_re clause_text in
  let amount_match := search true amount_re clause_text in
  let unit_match := search true unit_re clause_text in
  match amount_match with
  | None => None
  | Some am =>
      Some {| item :=
                match service_match with
                | Some m => titleCase (trim (Payment.group1 m))
                | None => Analyzer.orElse category $"General Service"
                end;
              rate := m0 am;
              unit_ :=
                match unit_match with
                | Some m => Some ($"per " ++ Payment.group1 m)
                | None => None
                end |}
  end.

(** [.filter(Boolean)] on objects: drops [null]. *)
Fixpoint dropNull {A : Type} (xs : list (option A)) : list A :=
  match xs with
  | [] => []
  | Some x :: rest => x :: dropNull rest
  | None :: rest => dropNull rest
  end.

Definition byItem (xs : list RateCardItem) : list (str * RateCardItem) :=
  map (fun x => (item x, x)) xs.

Definition basicRateCardExtraction (clauses : list Clause.t) : list RateCardItem :=
  let costRelatedClauses := filter (fun c => costRelated (Clause.clause c)) clauses in
  let extractedItems :=
    dropNull (map (fun c => itemOf (Clause.clause c) (Clause.category c))
                  costRelatedClauses) in
  JSMap.values (JSMap.ofEntries JS.eqb (byItem extractedItems)).

Definition sampleItem : RateCardItem :=
  {| item := $"Additional Service"; rate := $"$75"; unit_ := Some $"per hour" |}.

(** The merge of the extract-costs route, from "Merge with existing rate
    card" to [updatedRateCard]. *)
Definition mergeRateCard (existing extracted : list RateCardItem)
  : list RateCardItem :=
  let rateCardMap := JSMap.ofEntries JS.eqb (byItem existing) in
  JSMap.values
    (fold_left
       (fun m x => if JSMap.has JS.eqb m (item x) then m
                   else JSMap.set JS.eqb m (item x) x)
       extracted rateCardMap).

End RateCard.

(* ================================================================= *)
(** ** Merge of the extract-payment-terms route *)

Module TermsMerge.

Definition sampleTerm : str :=
  $"All invoices must be paid within 15 days of receipt with a 2% early payment discount.".

(** [new Set(existingPaymentTerms)], then [add] for each extracted term,
    then [Array.from]. *)
Definition mergePaymentTerms (existing extracted : list str) : list str :=
  fold_left Payment.setAdd extracted (Payment.arrayFromSet existing).

End TermsMerge.

(* ================================================================= *)
(** ** Further storage operations ([storage.ts]) *)

Module StorageOps.

Import Storage.

Definition getClause (id : Z) : M (option Clause.t) :=
  call (fun s => (JSMap.get Z.eqb (clausesList s) id, s)).

(** [Partial<Clause>]: the properties that are present. *)
Record PartialClause := {
  p_id : option Z;
  p_clause : option str;
  p_section : option (option str);
  p_page : option (option Z);
  p_category : option (option str);
  p_risk_score : option Z;
  p_compliance_status : option str;
  p_document_id : option str;
  p_completed : option (option bool)
}.

Definition over {A : Type} (base : A) (o : option A) : A :=
  match o with Some x => x | None => base end.

(** [{ ...existingClause, ...clause }] *)
Definition spread (existing : Clause.t) (p : PartialClause) : Clause.t :=
  {| Clause.id := over (Clause.id existing) (p_id p);
     Clause.clause := over (Clause.clause existing) (p_clause p);
     Clause.section := over (Clause.section existing) (p_section p);
     Clause.page := over (Clause.page existing) (p_page p);
     Clause.category := over (Clause.category existing) (p_category p);
     Clause.risk_score := over (Clause.risk_score existing) (p_risk_score p);
     Clause.compliance_status :=
       over (Clause.compliance_status existing) (p_compliance_status p);
     Clause.document_id := over (Clause.document_id existing) (p_document_id p);
     Clause.completed := over (Clause.completed existing) (p_completed p) |}.

(** A clause object passed where a [Partial<Clause>] is expected. *)
Definition whole (c : Clause.t) : PartialClause :=
  {| p_id := Some (Clause.id c);
     p_clause := Some (Clause.clause c);
     p_section := Some (Clause.section c);
     p_page := Some (Clause.page c);
     p_category := Some (Clause.category c);
     p_risk_score := Some (Clause.risk_score c);
     p_compliance_status := Some (Clause.compliance_status c);
     p_document_id := Some (Clause.document_id c);
     p_completed := Some (Clause.completed c) |}.

Definition withClauses (s : Store) (m : JSMap.t Z Clause.t) : Store :=
  {| clausesList := m;
     clauseCurrentId := clauseCurrentId s;
     complianceRulesList := complianceRulesList s;
     contractSummaries := contractSummaries s |}.

Definition withSummaries (s : Store) (m : JSMap.t str ContractSummary) : Store :=
  {| clausesList := clausesList s;
     clauseCurrentId := clauseCurrentId s;
     complianceRulesList := complianceRulesList s;
     contractSummaries := m |}.

Definition updateClause (id : Z) (clause : PartialClause) : M (option Clause.t) :=
  call (fun s =>
          match JSMap.get Z.eqb (clausesList s) id with
          | None => (None, s)
          | Some existingClause =>
              let updatedClause := spread existingClause clause in
              (Some updatedClause,
               withClauses s (JSMap.set Z.eqb (clausesList s) id updatedClause))
          end).

Definition getContractSummary (documentId : str) : M (option ContractSummary) :=
  call (fun s => (JSMap.get JS.eqb (contractSummaries s) documentId, s)).

Definition updateContractSummary (documentId : str) (summary : ContractSummary)
  : M (option ContractSummary) :=
  call (fun s =>
          match JSMap.get JS.eqb (contractSummaries s) documentId with
          | None => (None, s)
          | Some _ =>
              (Some summary,
               withSummaries s
                 (JSMap.set JS.eqb (contractSummaries s) documentId summary))
          end).

End StorageOps.

(* ================================================================= *)
(** ** The other routes of [routes.ts] *)

Module Routes.

Import Storage StorageOps.

Notation "x <- m ;; k" := (bind m (fun x => k))
  (at level 61, m at next level, right associativity).

Record Reply (A : Type) := {
  code : Z;
  note : str;
  payload : option A
}.

Arguments code {A} _.
Arguments note {A} _.
Arguments payload {A} _.

Definition reply {A : Type} (c : Z) (n : str) : Reply A :=
  {| code := c; note := n; payload := None |}.

Definition replyWith {A : Type} (n : str) (a : A) : Reply A :=
  {| code := 200; note := n; payload := Some a |}.

(** [error.message || dflt] *)
Definition messageOr (e dflt : str) : str := Analyzer.orElse (Some e) dflt.

(** [DELETE /api/clauses/reset] *)
Definition resetRoute : M (Reply unit) :=
  tryCatch
    (_ <- Upload.resetClauses ;;
     ret (reply 200 $"All clauses have been reset successfully"))
    (fun e => ret (reply 500 (messageOr e $"Error resetting clauses"))).

Definition markCompleted (c : Clause.t) : Clause.t :=
  {| Clause.id := Clause.id c;
     Clause.clause := Clause.clause c;
     Clause.section := Clause.section c;
     Clause.page := Clause.page c;
     Clause.category := Clause.category c;
     Clause.risk_score := Clause.risk_score c;
     Clause.compliance_status := Clause.compliance_status c;
     Clause.document_id := Clause.document_id c;
     Clause.completed := Some true |}.

(** [POST /api/clauses/:id/complete]; [clauseId] is [parseInt(id)], with
    [None] for [NaN]. *)
Definition completeRoute (clauseId : option Z) : M (Reply Clause.t) :=
  tryCatch
    (match clauseId with
     | None => ret (reply 400 $"Invalid clause ID")
     | Some id =>
         existingClause <- getClause id ;;
         match existingClause with
         | None => ret (reply 404 $"Clause not found")
         | Some existing =>
             let updatedClause := markCompleted existing in
             _ <- updateClause id (whole updatedClause) ;;
             ret (replyWith $"Clause marked as completed" updatedClause)
         end
     end)
    (fun e => ret (reply 500 (messageOr e $"Error marking clause as completed"))).

(** What the upload route takes from the AI backend:
    [extractFinancials] catches its own errors and returns arrays.  The
    upload reads no property of their elements and stores the arrays as
    they are; the summaries in storage hold fee and rate-card objects,
    and so do the arrays here. *)
Record Financials := {
  ai_fees : list Fee;
  ai_paymentTerms : list str;
  ai_rateCard : list RateCardItem
}.

(** What the incremental extraction routes take from the AI backend.
    The arrays are those of the reply, which nothing checks: an element
    of [fees] or [rateCard] is an object, or [null], written [None].
    The payment terms are strings; the routes read no property of a
    term. *)
Record RawFinancials := {
  raw_fees : list (option Fee);
  raw_paymentTerms : list str;
  raw_rateCard : list (option RateCardItem)
}.

Record ExtractEnv := {
  hasKey : bool;                    (* process.env.OPENAI_API_KEY *)
  financialData : RawFinancials     (* extractFinancials(fullText) *)
}.

(** "Try to use OpenAI ... if available", for an array [ai] of the
    backend and the heuristic result [basic]. *)
Definition preferAi {A : Type} (env : ExtractEnv) (ai basic : list A) : list A :=
  if hasKey env then (if 0 <? List.length ai then ai else basic) else basic.

(** The elements of an extracted array as the merge loop meets them:
    reading [fee.name] or [item.item] of [null] throws a TypeError. *)
Fixpoint readElements {A : Type} (xs : list (option A)) : Result (list A) :=
  match xs with
  | [] => Ok []
  | None :: _ => Err $"Cannot read properties of null"
  | Some x :: rest =>
      match readElements rest with
      | Ok l => Ok (x :: l)
      | Err e => Err e
      end
  end.

(** [POST /api/extract-fees/:documentId] *)
Definition extractFeesRoute (documentId : str) (env : ExtractEnv)
  : M (Reply (list Fee)) :=
  tryCatch
    (summary <- getContractSummary documentId ;;
     match summary with
     | None => ret (reply 404 $"Contract summary not found. Upload and analyze a document first.")
     | Some summary =>
         clauses <- getClausesByDocumentId documentId ;;
         if List.length clauses =? 0
         then ret (reply 404 $"No clauses found for this document. Upload a document first.")
         else
           let extractedFees :=
             preferAi env (raw_fees (financialData env))
                      (map Some (FeeExtraction.basicFeeExtraction clauses)) in
           extractedFees <- liftR (readElements extractedFees) ;;
           let updatedSummary := Fees.extractFeesMerge summary extractedFees in
           _ <- updateContractSummary documentId updatedSummary ;;
           ret (replyWith $"Fees extracted successfully"
                          (Fees.existingFees updatedSummary))
     end)
    (fun _ => ret (reply 500 $"Failed to extract fees")).

Definition withPaymentTerms (summary : ContractSummary) (terms : list str)
  : ContractSummary :=
  {| documentId := documentId summary;
     summary_title := summary_title summary;
     parties := parties summary;
     effectiveDate := effectiveDate summary;
     termLength := termLength summary;
     paymentTerms := Some terms;
     rateCard := rateCard summary;
     fees := fees summary;
     keyObligations := keyObligations summary;
     confidentialityTerms := confidentialityTerms summary;
     terminationClauses := terminationClauses summary |}.

Definition orEmpty {A : Type} (o : option (list A)) : list A :=
  match o with Some l => l | None => [] end.

(** From "Check if any payment terms were found" to [updatedSummary]. *)
Definition extractTermsMerge (summary : ContractSummary) (extracted : list str)
  : ContractSummary :=
  let extracted :=
    if List.length extracted =? 0 then [TermsMerge.sampleTerm] else extracted in
  withPaymentTerms summary
    (TermsMerge.mergePaymentTerms (orEmpty (paymentTerms summary)) extracted).

(** [POST /api/extract-payment-terms/:documentId] *)
Definition extractPaymentTermsRoute (documentId : str) (env : ExtractEnv)
  : M (Reply (list str)) :=
  tryCatch
    (summary <- getContractSummary documentId ;;
     match summary with
     | None => ret (reply 404 $"Contract summary not found. Upload and analyze a document first.")
     | Some summary =>
         clauses <- getClausesByDocumentId documentId ;;
         if List.length clauses =? 0
         then ret (reply 404 $"No clauses found for this document. Upload a document first.")
         else
           let extractedPaymentTerms :=
             preferAi env (raw_paymentTerms (financialData env))
                      (Payment.basicPaymentTermExtraction clauses) in
           let updatedSummary := extractTermsMerge summary extractedPaymentTerms in
           _ <- updateContractSummary documentId updatedSummary ;;
           ret (replyWith $"Payment terms extracted successfully"
                          (orEmpty (paymentTerms updatedSummary)))
     end)
    (fun _ => ret (reply 500 $"Failed to extract payment terms")).

Definition withRateCard (summary : ContractSummary) (card : list RateCardItem)
  : ContractSummary :=
  {| documentId := documentId summary;
     summary_title := summary_title summary;
     parties := parties summary;
     effectiveDate := effectiveDate summary;
     termLength := termLength summary;
     paymentTerms := paymentTerms summary;
     rateCard := Some card;
     fees := fees summary;
     keyObligations := keyObligations summary;
     confidentialityTerms := confidentialityTerms summary;
     terminationClauses := terminationClauses summary |}.

(** From "Check if any rate card items were found" to [updatedSummary]. *)
Definition extractCostsMerge (summary : ContractSummary)
  (extracted : list RateCardItem) : ContractSummary :=
  let extracted :=
    if List.length extracted =? 0 then [RateCard.sampleItem] else extracted in
  withRateCard summary
    (RateCard.mergeRateCard (orEmpty (rateCard summary)) extracted).

(** [POST /api/extract-costs/:documentId] *)
Definition extractCostsRoute (documentId : str) (env : ExtractEnv)
  : M (Reply (list RateCardItem)) :=
  tryCatch
    (summary <- getContractSummary documentId ;;
     match summary with
     | None => ret (reply 404 $"Contract summary not found. Upload and analyze a document first.")
     | Some summary =>
         clauses <- getClausesByDocumentId documentId ;;
         if List.length clauses =? 0
         then ret (reply 404 $"No clauses found for this document. Upload a document first.")
         else
           let extractedRateCard :=
             preferAi env (raw_rateCard (financialData env))
                      (map Some (RateCard.basicRateCardExtraction clauses)) in
           extractedRateCard <- liftR (readElements extractedRateCard) ;;
           let updatedSummary := extractCostsMerge summary extractedRateCard in
           _ <- updateContractSummary documentId updatedSummary ;;
           ret (replyWith $"Costs extracted successfully"
                          (orEmpty (rateCard updatedSummary)))
     end)
    (fun _ => ret (reply 500 $"Failed to extract costs")).

(** The three extraction routes follow one plan: read the summary and
    the clauses of the document, extract, merge into the summary, store
    it, answer with the merged array.  The merge throws when it meets a
    [null] among the extracted elements. *)
Definition extractionRoute {A : Type} (documentId : str)
  (extract : list Clause.t -> Result (list A))
  (merge : ContractSummary -> list A -> ContractSummary)
  (field : ContractSummary -> list A) (done failed : str)
  : M (Reply (list A)) :=
  tryCatch
    (summary <- getContractSummary documentId ;;
     match summary with
     | None => ret (reply 404 $"Contract summary not found. Upload and analyze a document first.")
     | Some summary =>
         clauses <- getClausesByDocumentId documentId ;;
         if List.length clauses =? 0
         then ret (reply 404 $"No clauses found for this document. Upload a document first.")
         else
           extracted <- liftR (extract clauses) ;;
           let updatedSummary := merge summary extracted in
           _ <- updateContractSummary documentId updatedSummary ;;
           ret (replyWith done (field updatedSummary))
     end)
    (fun _ => ret (reply 500 failed)).

(** What each route extracts from the clauses of the document. *)
Definition extractedFees (env : ExtractEnv) (clauses : list Clause.t)
  : Result (list Fee) :=
  readElements
    (preferAi env (raw_fees (financialData env))
              (map Some (FeeExtraction.basicFeeExtraction clauses))).

Definition extractedRateCard (env : ExtractEnv) (clauses : list Clause.t)
  : Result (list RateCardItem) :=
  readElements
    (preferAi env (raw_rateCard (financialData env))
              (map Some (RateCard.basicRateCardExtraction clauses))).

Definition extractedPaymentTerms (env : ExtractEnv) (clauses : list Clause.t)
  : list str :=
  preferAi env (raw_paymentTerms (financialData env))
           (Payment.basicPaymentTermExtraction clauses).

(** [GET /api/contract-summary/:documentId] *)
Definition getSummaryRoute (documentId : str) : M (Reply ContractSummary) :=
  tryCatch
    (summary <- getContractSummary documentId ;;
     match summary with
     | None => ret (reply 404 $"Contract summary not found")
     | Some summary => ret (replyWith [] summary)
     end)
    (fun e => ret (reply 500 e)).

End Routes.

(* ================================================================= *)
(** ** The summary record of the upload route ([routes.ts]) *)

Module SummaryAssembly.

Import JS.

Record Env := {
  originalname : str;                    (* req.file.originalname *)
  today : str;                           (* new Date().toISOString().split('T')[0] *)
  hasKey : bool;                         (* process.env.OPENAI_API_KEY *)
  financialData : Routes.Financials      (* extractFinancials(fullText) *)
}.

Definition setupFee : Fee :=
  {| name := $"Setup Fee";
     amount := $"$500";
     frequency := Some $"one-time";
     fee_description :=
       Some $"One-time setup fee charged at the beginning of the contract";
     fee_category := Some $"Initial Fees" |}.

Definition defaultRateCard : list RateCardItem :=
  [ {| item := $"Basic Service"; rate := $"$1,000"; unit_ := Some $"per month" |};
    {| item := $"Premium Support"; rate := $"$150"; unit_ := Some $"per hour" |} ].

Definition isCategory (label : str) (c : InsertClause.t) : bool :=
  match InsertClause.category c with
  | Some k => JS.eqb k label
  | None => false
  end.

(** [analyzedClauses.find(...)?.clause || dflt] *)
Definition keyClause (label fragment dflt : str)
  (analyzedClauses : list InsertClause.t) : str :=
  Analyzer.orElse
    (option_map InsertClause.clause
       (find (fun c => isCategory label c ||
                       includes (toLowerCase (InsertClause.clause c)) fragment)
             analyzedClauses))
    dflt.

Definition isKeyObligation (c : InsertClause.t) : bool :=
  JS.eqb (InsertClause.compliance_status c) $"Compliant" &&
  (InsertClause.risk_score c <? 5)%Z.

(** The fee fallback written out in the route: the code of
    [basicFeeExtraction] on the analysed clauses. *)
Definition fallbackFees (analyzedClauses : list InsertClause.t) : list Fee :=
  let feeRelatedClauses :=
    filter (fun c => FeeExtraction.feeRelated (InsertClause.clause c))
           analyzedClauses in
  FeeExtraction.dedupeByName
    (map (fun c => FeeExtraction.feeOf (InsertClause.clause c)
                                       (InsertClause.category c))
         feeRelatedClauses).

(** From "Generate contract summary" to the [summary] object. *)
Definition assemble (env : Env) (fileId : str)
  (analyzedClauses : list InsertClause.t) : ContractSummary :=
  let fees0 := if hasKey env then Routes.ai_fees (financialData env) else [] in
  let paymentTerms0 :=
    if hasKey env then Routes.ai_paymentTerms (financialData env)
    else [$"Net 30 days"] in
  let rateCard0 :=
    if hasKey env then Routes.ai_rateCard (financialData env) else [] in
  let fees1 :=
    if List.length fees0 =? 0 then fallbackFees analyzedClauses else fees0 in
  let terminationClause :=
    keyClause $"Termination" $"terminat"
      $"Either party may terminate with 30 days written notice" analyzedClauses in
  let confidentialityClause :=
    keyClause $"Confidentiality" $"confidential"
      $"Standard confidentiality terms apply" analyzedClauses in
  {| documentId := fileId;
     summary_title := Some ($"Contract Agreement " ++ originalname env);
     parties := Some (Some $"Company A", Some $"Company B");
     effectiveDate := Some (today env);
     termLength := Some $"12 months";
     paymentTerms := Some paymentTerms0;
     rateCard :=
       Some (if 0 <? List.length rateCard0 then rateCard0 else defaultRateCard);
     fees := Some (if 0 <? List.length fees1 then fees1 else [setupFee]);
     keyObligations :=
       Some (map InsertClause.clause
                 (firstn 3 (filter isKeyObligation analyzedClauses)));
     confidentialityTerms := Some confidentialityClause;
     terminationClauses := Some [terminationClause] |}.

(** The upload route with the summary it assembles. *)
Definition uploadEnv (up : Upload.Env) (env : Env) : Upload.Env :=
  {| Upload.hasFile := Upload.hasFile up;
     Upload.fileId := Upload.fileId up;
     Upload.apiKey := Upload.apiKey up;
     Upload.extractedText := Upload.extractedText up;
     Upload.aiClauses := Upload.aiClauses up;
     Upload.clauseEnv := Upload.clauseEnv up;
     Upload.assembleSummary := assemble env (Upload.fileId up) |}.

End SummaryAssembly.

(* ================================================================= *)
(** ** Sample contract text ([generateSampleContractText]) *)

Module SampleText.

Import JS Text.

Definition sampleClauses : list str :=
  [ $"The Vendor shall not be liable for any damages whatsoever arising out of or in connection with the use or performance of the software, including but not limited to direct, indirect, incidental, consequential, and special damages, even if advised of the possibility of such damages.";
    $"All intellectual property developed during the course of this agreement shall be owned exclusively by the Company. Contractor hereby assigns all rights, title and interest in such intellectual property to the Company.";
    $"Both parties agree to maintain the confidentiality of all proprietary information shared during the course of this agreement and for a period of two (2) years following termination, unless required by law to disclose such information.";
    $"Payment terms shall be net 30 days from receipt of invoice. A late payment fee of 1.5% per month will be assessed on all overdue amounts.";
    $"This Agreement may be terminated by either party with thirty (30) days written notice. Upon termination, all licenses granted herein shall immediately terminate.";
    $"Client agrees to indemnify and hold harmless the Service Provider from any claims, damages, or liabilities arising from Client's use of the services provided under this agreement.";
    $"Any dispute arising out of or in connection with this contract, including any question regarding its existence, validity or termination, shall be referred to and finally resolved by arbitration under the Rules of the London Court of International Arbitration.";
    $"Neither party shall be liable for any failure or delay in performance due to circumstances beyond its reasonable control, including but not limited to acts of God, natural disasters, war, terrorism, riots, or government action.";
    $"Service Provider warrants that all services will be performed in a professional manner consistent with industry standards. This warranty is exclusive and in lieu of all other warranties, whether express or implied.";
    $"In no event shall the aggregate liability of either party exceed the total amount paid by Client to Service Provider in the twelve months preceding the claim.";
    $"This agreement constitutes the entire understanding between the parties concerning the subject matter hereof and supersedes all prior agreements, understandings, or negotiations.";
    $"The relationship between the parties is that of independent contractors. Nothing in this Agreement shall be construed as creating an employer-employee relationship, partnership, or joint venture." ].

(** An array element spliced into a string: [undefined] reads
    "undefined". *)
Definition textOf (o : option str) : str :=
  match o with Some s => s | None => $"undefined" end.

(** [sampleClauses[Math.floor(Math.random() * sampleClauses.length)]] *)
Definition drawn (r : Q) : str :=
  textOf (index sampleClauses
            (floorTimes r (Z.of_nat (List.length sampleClauses)))).

Definition paragraphBreak : str := [Segmenter.newline; Segmenter.newline].

(** The [do ... while] loop: draw until the text does not end with the
    drawn clause.  [draws] is the sequence of values of [Math.random()],
    [next] the position in it, [fuel] a bound on the number of turns. *)
Fixpoint pick (fuel : nat) (contractText : str) (draws : nat -> Q) (next : nat)
  : option (str * nat) :=
  match fuel with
  | O => None
  | S fuel' =>
      let candidate := drawn (draws next) in
      if endsWith contractText candidate
      then pick fuel' contractText draws (S next)
      else Some (candidate, S next)
  end.

(** The [for] loop, [n] clauses to go. *)
Fixpoint build (fuel n : nat) (contractText : str) (draws : nat -> Q) (next : nat)
  : option str :=
  match n with
  | O => Some contractText
  | S n' =>
      match pick fuel contractText draws next with
      | None => None
      | Some (c, next') =>
          build fuel n' (contractText ++ c ++ paragraphBreak) draws next'
      end
  end.

Definition generateSampleContractText (fuel pages : nat) (draws : nat -> Q)
  : option str :=
  let clausesPerPage := 2%nat in
  let numClauses := (pages * clausesPerPage)%nat in
  option_map trim (build fuel numClauses [] draws 0).

End SampleText.

(* ================================================================= *)
(** ** Bullet-point summary without AI ([generateBasicBulletPoints]) *)

From Stdlib Require Import DecimalString.

Module Bullets.

Import JS.

(** A count spliced into a string. *)
Definition numeral (n : nat) : str :=
  list_ascii_of_string (NilEmpty.string_of_uint (Nat.to_uint n)).

Definition count {A : Type} (f : A -> bool) (xs : list A) : nat :=
  List.length (filter f xs).

Definition hasStatus (label : str) (c : Clause.t) : bool :=
  JS.eqb (Clause.compliance_status c) label.

Definition isHighRisk (c : Clause.t) : bool := (7 <=? Clause.risk_score c)%Z.
Definition isMediumRisk (c : Clause.t) : bool :=
  (4 <=? Clause.risk_score c)%Z && (Clause.risk_score c <? 7)%Z.
Definition isLowRisk (c : Clause.t) : bool := (Clause.risk_score c <? 4)%Z.

Definition party (o : option str) (dflt : str) : str := Analyzer.orElse o dflt.

Definition optional (present : bool) (line : str) : list str :=
  if present then [line] else [].

Definition head0 (xs : list str) : str :=
  match xs with x :: _ => x | [] => $"undefined" end.

Definition generateBasicBulletPoints (summary : ContractSummary)
  (clauses : list Clause.t) : list str :=
  let party1 := match parties summary with Some (p, _) => p | None => None end in
  let party2 := match parties summary with Some (_, p) => p | None => None end in
  let terms := Routes.orEmpty (paymentTerms summary) in
  let fs := Routes.orEmpty (fees summary) in
  let terminations := Routes.orEmpty (terminationClauses summary) in
  let feesCount := List.length fs in
  [ $"Contract between " ++ party party1 $"Party 1" ++ $" and "
      ++ party party2 $"Party 2" ++ $".";
    $"Effective date: " ++ party (effectiveDate summary) $"Not specified" ++ $".";
    $"Term length: " ++ party (termLength summary) $"Not specified" ++ $"." ]
  ++ optional (0 <? List.length terms)
       ($"Payment terms: " ++ head0 terms ++ $".")
  ++ optional (0 <? feesCount)
       ($"Contains " ++ numeral feesCount ++ $" fee"
        ++ (if 1 <? feesCount then $"s" else []) ++ $", including "
        ++ head0 (map name fs) ++ $".")
  ++ [ $"Compliance analysis: "
         ++ numeral (count (hasStatus $"Compliant") clauses)
         ++ $" compliant clauses, "
         ++ numeral (count (hasStatus $"Non-Compliant") clauses)
         ++ $" non-compliant clauses, "
         ++ numeral (count (hasStatus $"Review Needed") clauses)
         ++ $" clauses needing review.";
       $"Risk assessment: "
         ++ numeral (count isHighRisk clauses) ++ $" high-risk clauses, "
         ++ numeral (count isMediumRisk clauses) ++ $" medium-risk clauses, "
         ++ numeral (count isLowRisk clauses) ++ $" low-risk clauses." ]
  ++ optional (match confidentialityTerms summary with
               | Some (_ :: _) => true
               | _ => false
               end)
       $"Contains confidentiality requirements."
  ++ optional (0 <? List.length terminations)
       ($"Termination clause: " ++ head0 terminations ++ $".").

End Bullets.

(* ================================================================= *)
(** ** Contract summaries in the database ([db-storage.ts]) *)

Module DbSummaries.

(** A row of [contract_summaries]: text columns and JSON columns, each
    nullable; [document_id] is unique. *)
Record Row := {
  row_documentId : str;
  row_title : option str;
  row_parties : option (option str * option str);
  row_effectiveDate : option str;
  row_termLength : option str;
  row_paymentTerms : option (list str);
  row_rateCard : option (list RateCardItem);
  row_fees : option (list Fee);
  row_keyObligations : option (list str);
  row_confidentialityTerms : option str;
  row_terminationClauses : option (list str)
}.

(** [s || null] and [s || undefined] for a string. *)
Definition truthy (o : option str) : option str :=
  match o with
  | Some (c :: s) => Some (c :: s)
  | _ => None
  end.

(** "Transform ContractSummary to DB representation" *)
Definition toRow (summary : ContractSummary) : Row :=
  {| row_documentId := documentId summary;
     row_title := truthy (summary_title summary);
     row_parties := parties summary;
     row_effectiveDate := truthy (effectiveDate summary);
     row_termLength := truthy (termLength summary);
     row_paymentTerms := paymentTerms summary;
     row_rateCard := rateCard summary;
     row_fees := fees summary;
     row_keyObligations := keyObligations summary;
     row_confidentialityTerms := truthy (confidentialityTerms summary);
     row_terminationClauses := terminationClauses summary |}.

(** "Transform DB representation to ContractSummary" *)
Definition fromRow (row : Row) : ContractSummary :=
  {| documentId := row_documentId row;
     summary_title := truthy (row_title row);
     parties := row_parties row;
     effectiveDate := truthy (row_effectiveDate row);
     termLength := truthy (row_termLength row);
     paymentTerms := row_paymentTerms row;
     rateCard := row_rateCard row;
     fees := row_fees row;
     keyObligations := row_keyObligations row;
     confidentialityTerms := truthy (row_confidentialityTerms row);
     terminationClauses := row_terminationClauses row |}.

(** The table, one row per [document_id]. *)
Definition Table := JSMap.t str Row.

(** [insert ... onConflictDoUpdate({ target: documentId, set: dbSummary })] *)
Definition createContractSummary (t : Table) (summary : ContractSummary)
  : Table * ContractSummary :=
  (JSMap.set JS.eqb t (documentId summary) (toRow summary), summary).

Definition getContractSummary (t : Table) (documentId : str)
  : option ContractSummary :=
  option_map fromRow (JSMap.get JS.eqb t documentId).

End DbSummaries.

(* ================================================================= *)
(** ** Shapes of results, used to state properties *)

Module Shapes.

Import JS.

(** The three sentences that replace a payment clause of more than 100
    characters (routes.ts, basicPaymentTermExtraction). *)
Definition normalised (t : str) : Prop :=
  exists n, t = $"Payment terms: Net " ++ n ++ $" days."
            \/ t = $"Payment due within " ++ n ++ $" days."
            \/ t = $"Late payment fee of " ++ n ++ $" applies.".

(** A text that neither begins nor ends with white space. *)
Definition headOk (s : str) : bool :=
  match s with
  | c :: _ => negb (isWhiteSpace c)
  | [] => false
  end.

Definition tight (s : str) : bool := headOk s && headOk (rev s).

End Shapes.

(* ================================================================= *)
(** ** Arrays keyed by a name

    The fee and rate-card code builds a [Map] from an array twice in the
    same way: [new Map(xs.map(x => [x.key, x]))], read back with
    [Array.from(m.values())], and extended by a loop that sets the keys
    the map lacks.  [key] is [fee.name] or [item.item]. *)

Module Keyed.

Section Keyed.

Variable A : Type.
Variable key : A -> str.

Definition entries (xs : list A) : list (str * A) :=
  map (fun x => (key x, x)) xs.

Definition dedupe (xs : list A) : list A :=
  JSMap.values (JSMap.ofEntries JS.eqb (entries xs)).

Definition addNew (m : JSMap.t str A) (xs : list A) : JSMap.t str A :=
  fold_left
    (fun m x => if JSMap.has JS.eqb m (key x) then m
                else JSMap.set JS.eqb m (key x) x)
    xs m.

Definition merge (existing extracted : list A) : list A :=
  JSMap.values (addNew (JSMap.ofEntries JS.eqb (entries existing)) extracted).

(** The first and the last element of an array under a key. *)
Definition firstWith (k : str) (xs : list A) : option A :=
  find (fun x => JS.eqb (key x) k) xs.

Definition lastWith (k : str) (xs : list A) : option A :=
  firstWith k (rev xs).

End Keyed.

End Keyed.

(* ================================================================= *)
(** ** Further sample data *)

Module MoreExamples.

Import Storage.

(** Storage after the upload of a document with one clause. *)
Definition analysedStore : Store :=
  {| clausesList := [(1%Z, Examples.net30Clause)];
     clauseCurrentId := 2;
     complianceRulesList :=
       [(1%Z, Examples.ndaRule); (2%Z, Examples.liabilityRule);
        (3%Z, Examples.ipRule)];
     contractSummaries :=
       [($"1700000000000", Examples.summaryFor $"1700000000000")] |}.

Definition analysedWorld : World := {| store := analysedStore; faults := [] |}.

(** A clause of 125 characters that reads like the sentence written for
    a long clause with the pattern "Net N days". *)
Definition longNetText : str :=
  $"Payment terms: Net " ++ repeat "0"%char 100 ++ $" days.".

Definition longNetClause : Clause.t :=
  Examples.storedClause 1 longNetText $"1700000000000".

(** A clause whose only amount-like piece is a full stop before the
    word "Dollars". *)
Definition dollarsText : str :=
  $"The fee covers all costs. Dollars are the only currency.".

(** No AI backend is configured. *)
Definition noBackend : Routes.ExtractEnv :=
  {| Routes.hasKey := false;
     Routes.financialData :=
       {| Routes.raw_fees := []; Routes.raw_paymentTerms := [];
          Routes.raw_rateCard := [] |} |}.

(** A backend whose reply lists [null] as its only fee. *)
Definition nullFeeBackend : Routes.ExtractEnv :=
  {| Routes.hasKey := true;
     Routes.financialData :=
       {| Routes.raw_fees := [None]; Routes.raw_paymentTerms := [];
          Routes.raw_rateCard := [] |} |}.

(** The reply of a run, with a placeholder for a rejected run. *)
Definition replyOf {A : Type} (out : Result (Routes.Reply A) * World)
  : Routes.Reply A :=
  match fst out with
  | Ok rep => rep
  | Err e => Routes.reply 500 e
  end.

Definition feesRun : Result (Routes.Reply (list Fee)) * World :=
  Routes.extractFeesRoute $"1700000000000" noBackend analysedWorld.

Definition nullFeeRun : Result (Routes.Reply (list Fee)) * World :=
  Routes.extractFeesRoute $"1700000000000" nullFeeBackend analysedWorld.

Definition completeRun : Result (Routes.Reply Clause.t) * World :=
  Routes.completeRoute (Some 1%Z) analysedWorld.

Definition resetRun : Result (Routes.Reply unit) * World :=
  Routes.resetRoute analysedWorld.

(** A clause as the analysis hands it to storage. *)
Definition draftClause : InsertClause.t :=
  {| InsertClause.clause := Examples.lateFeeText;
     InsertClause.section := None;
     InsertClause.page := Some 1%Z;
     InsertClause.category := None;
     InsertClause.risk_score := 2;
     InsertClause.compliance_status := $"Compliant";
     InsertClause.document_id := $"1700000000000";
     InsertClause.completed := Some false;
     InsertClause.recommendations := None;
     InsertClause.compliance_issues := None |}.

Definition createRun : Result Clause.t * World :=
  createClause draftClause analysedWorld.

(** An upload without an AI backend, with the summary the route
    assembles. *)
Definition summaryEnv : SummaryAssembly.Env :=
  {| SummaryAssembly.originalname := $"contract.pdf";
     SummaryAssembly.today := $"2024-01-15";
     SummaryAssembly.hasKey := false;
     SummaryAssembly.financialData :=
       {| Routes.ai_fees := []; Routes.ai_paymentTerms := [];
          Routes.ai_rateCard := [] |} |}.

Definition uploadRun : Result Upload.Response * World :=
  Upload.upload (SummaryAssembly.uploadEnv Examples.uploadEnv summaryEnv)
                analysedWorld.

Definition responseOf (out : Result Upload.Response * World) : Upload.Response :=
  match fst out with
  | Ok resp => resp
  | Err e => {| Upload.status := 500; Upload.message := e; Upload.clauses := [] |}
  end.

End MoreExamples.
(* ================================================================= *)
(** * Properties *)

(* ================================================================= *)
(** ** Strings *)

Module JSFacts.

Import JS.

Lemma startsWith_spec (s p : str) :
  startsWith s p = true <-> exists post, s = p ++ post.
Proof.
  revert s; induction p as [|a p IH]; intros s; simpl.
  - split; [intros _; now exists s | intros _; now destruct s].
  - destruct s as [|b s]; simpl.
    + split; [discriminate | intros [post H]; discriminate].
    + rewrite andb_true_iff, Ascii.eqb_eq, IH. split.
      * intros [-> [post ->]]. now exists post.
      * intros [post H]. injection H as -> ->. split; [reflexivity | now exists post].
Qed.

Lemma includes_spec (s sub : str) :
  includes s sub = true <-> exists pre post, s = pre ++ sub ++ post.
Proof.
  induction s as [|c s IH]; cbn [includes].
  - rewrite orb_false_r, startsWith_spec. split.
    + intros [post H]. now exists [], post.
    + intros [pre [post H]]. destruct pre; [now exists post | discriminate].
  - rewrite orb_true_iff, startsWith_spec, IH. split.
    + intros [[post H] | [pre [post H]]].
      * now exists [], post.
      * exists (c :: pre), post. now rewrite H.
    + intros [pre [post H]]. destruct pre as [|x pre]; simpl in H.
      * left. now exists post.
      * right. injection H as _ ->. now exists pre, post.
Qed.

Lemma toLowerCase_app (a b : str) :
  toLowerCase (a ++ b) = toLowerCase a ++ toLowerCase b.
Proof. apply map_app. Qed.

Lemma toLowerChar_idem (c : ascii) : toLowerChar (toLowerChar c) = toLowerChar c.
Proof. destruct c as [[] [] [] [] [] [] [] []]; reflexivity. Qed.

Lemma toLowerCase_idem (s : str) : toLowerCase (toLowerCase s) = toLowerCase s.
Proof.
  unfold toLowerCase. rewrite map_map. apply map_ext. exact toLowerChar_idem.
Qed.

Lemma length_toLowerCase (s : str) : List.length (toLowerCase s) = List.length s.
Proof. apply length_map. Qed.

Lemma in_all_units (c : ascii) : In c (map ascii_of_nat (seq 0 256)).
Proof.
  apply in_map_iff. exists (nat_of_ascii c). split.
  - apply ascii_nat_embedding.
  - apply in_seq. pose proof (nat_ascii_bounded c). lia.
Qed.

(** Two characters are the two cases of one letter, or equal, exactly
    when [toLowerCase] sends them to the same character. *)
Lemma sameLetter_iff (x y : ascii) :
  Spec.sameLetter x y = true <-> toLowerChar x = toLowerChar y.
Proof.
  assert (T : forallb
                (fun a =>
                   forallb
                     (fun b =>
                        Bool.eqb (Spec.sameLetter a b)
                                 (Ascii.eqb (toLowerChar a) (toLowerChar b)))
                     (map ascii_of_nat (seq 0 256)))
                (map ascii_of_nat (seq 0 256)) = true)
    by (vm_compute; reflexivity).
  pose proof (proj1 (forallb_forall _ _) T x (in_all_units x)) as Tx.
  pose proof (proj1 (forallb_forall _ _) Tx y (in_all_units y)) as Txy.
  cbv beta in Txy. apply eqb_prop in Txy. rewrite Txy. apply Ascii.eqb_eq.
Qed.

Lemma sameIgnoringCase_iff (a b : str) :
  Spec.sameIgnoringCase a b <-> toLowerCase a = toLowerCase b.
Proof.
  unfold Spec.sameIgnoringCase. split.
  - induction 1 as [|x y a b H _ IH]; simpl; [reflexivity|].
    apply sameLetter_iff in H. congruence.
  - revert b; induction a as [|x a IH]; intros [|y b] H; simpl in H;
      try discriminate; constructor.
    + apply sameLetter_iff. now injection H.
    + apply IH. now injection H.
Qed.

(** The test the code performs is containment up to letter case. *)
Lemma includes_lower_iff (text kw : str) :
  includes (toLowerCase text) (toLowerCase kw) = true
  <-> Spec.occursIgnoringCase kw text.
Proof.
  rewrite includes_spec. unfold Spec.occursIgnoringCase. split.
  - intros [pre [post H]].
    unfold toLowerCase in H.
    apply map_eq_app in H as [pre' [rest [-> [Hpre Hrest]]]].
    apply map_eq_app in Hrest as [mid [post' [-> [Hmid Hpost]]]].
    exists pre', mid, post'. split; [reflexivity|].
    apply sameIgnoringCase_iff. exact Hmid.
  - intros [pre [mid [post [-> H]]]].
    apply sameIgnoringCase_iff in H.
    exists (toLowerCase pre), (toLowerCase post).
    now rewrite !toLowerCase_app, H.
Qed.

End JSFacts.

(* ================================================================= *)
(** ** Numbers and the random source *)

Module DoubleFacts.

Import Double.

Local Open Scope Q_scope.
Local Unset Implicit Arguments.

Lemma two_nonzero : ~ 2 == 0.
Proof. discriminate. Qed.

Lemma pow2_pos (e : Z) : 0 < pow2 e.
Proof. apply Qpower_0_lt. reflexivity. Qed.

Lemma pow2_plus (a b : Z) : pow2 (a + b) == pow2 a * pow2 b.
Proof. apply Qpower_plus, two_nonzero. Qed.

Lemma pow2_minus (a b : Z) : pow2 (a - b) == pow2 a / pow2 b.
Proof. apply Qpower_minus, two_nonzero. Qed.

Lemma pow2_le (a b : Z) : (a <= b)%Z -> pow2 a <= pow2 b.
Proof. intros H. apply Qpower_le_compat_l; [exact H | discriminate]. Qed.

Lemma pow2_lt_inv (a b : Z) : pow2 a < pow2 b -> (a < b)%Z.
Proof. intros H. apply (Qpower_lt_compat_l_inv 2); [exact H | reflexivity]. Qed.

Lemma pow2_inject (p : Z) : (0 <= p)%Z -> inject_Z (2 ^ p) == pow2 p.
Proof. intros H. unfold pow2. now rewrite Zpower_Qpower. Qed.

Lemma Qdiv_le_compat (a b c d : Q) :
  0 < a -> a <= c -> 0 < d -> d <= b -> a / b <= c / d.
Proof.
  intros Ha Hac Hd Hdb.
  assert (Hb : 0 < b) by (eapply Qlt_le_trans; eassumption).
  apply Qle_shift_div_l; [exact Hd|].
  unfold Qdiv. rewrite <- Qmult_assoc, (Qmult_comm (/ b)), Qmult_assoc.
  apply Qle_shift_div_r; [exact Hb|].
  apply Qle_trans with (a * b).
  - apply Qmult_le_l; [exact Ha | exact Hdb].
  - apply Qmult_le_r; [exact Hb | exact Hac].
Qed.

Lemma Qdiv_lt_compat (a b c d : Q) :
  0 < a -> a < c -> 0 < d -> d <= b -> a / b < c / d.
Proof.
  intros Ha Hac Hd Hdb.
  assert (Hb : 0 < b) by (eapply Qlt_le_trans; eassumption).
  apply Qlt_shift_div_l; [exact Hd|].
  unfold Qdiv. rewrite <- Qmult_assoc, (Qmult_comm (/ b)), Qmult_assoc.
  apply Qlt_shift_div_r; [exact Hb|].
  apply Qle_lt_trans with (a * b).
  - apply Qmult_le_l; [exact Ha | exact Hdb].
  - apply Qmult_lt_r; [exact Hb | exact Hac].
Qed.

(** [ilog2 x] is the exponent of the binade of [x]. *)
Lemma ilog2_spec (x : Q) :
  0 < x -> pow2 (ilog2 x) <= x /\ x < pow2 (ilog2 x + 1).
Proof.
  intros Hx. destruct x as [a b]. unfold ilog2. cbn [Qnum Qden].
  assert (Ha : (0 < a)%Z) by (unfold Qlt in Hx; simpl in Hx; lia).
  destruct (Z.log2_spec a Ha) as [A1 A2].
  destruct (Z.log2_spec (Z.pos b) (Pos2Z.is_pos b)) as [B1 B2].
  pose proof (Z.log2_nonneg a) as La. pose proof (Z.log2_nonneg (Z.pos b)) as Lb.
  set (la := Z.log2 a) in *. set (lb := Z.log2 (Z.pos b)) in *.
  assert (E : a # b == inject_Z a / inject_Z (Z.pos b)) by apply Qmake_Qdiv.
  assert (Qa1 : pow2 la <= inject_Z a)
    by (rewrite <- pow2_inject by exact La; now rewrite <- Zle_Qle).
  assert (Qa2 : inject_Z a < pow2 (la + 1))
    by (rewrite <- pow2_inject by lia; rewrite <- Zlt_Qlt; exact A2).
  assert (Qb1 : pow2 lb <= inject_Z (Z.pos b))
    by (rewrite <- pow2_inject by exact Lb; now rewrite <- Zle_Qle).
  assert (Qb2 : inject_Z (Z.pos b) <= pow2 (lb + 1))
    by (rewrite <- pow2_inject by lia; rewrite <- Zle_Qle; lia).
  assert (Pa : 0 < inject_Z a) by (rewrite (Zlt_Qlt 0 a) in Ha; exact Ha).
  assert (Pb : 0 < inject_Z (Z.pos b)) by reflexivity.
  destruct (Qle_bool (pow2 (la - lb)) (a # b)) eqn:T.
  - apply Qle_bool_iff in T. split; [exact T|].
    rewrite E. replace (la - lb + 1)%Z with (la + 1 - lb)%Z by lia.
    rewrite pow2_minus.
    apply Qdiv_lt_compat; [exact Pa | exact Qa2 | apply pow2_pos | exact Qb1].
  - assert (T' : a # b < pow2 (la - lb)).
    { apply Qnot_le_lt. intros H. apply Qle_bool_iff in H. congruence. }
    split.
    + rewrite E. replace (la - lb - 1)%Z with (la - (lb + 1))%Z by lia.
      rewrite pow2_minus.
      apply Qdiv_le_compat; [apply pow2_pos | exact Qa1 | exact Pb | exact Qb2].
    + replace (la - lb - 1 + 1)%Z with (la - lb)%Z by lia. exact T'.
Qed.

Lemma nearestEven_bounds (t : Q) :
  inject_Z (nearestEven t) <= t + (1 # 2)
  /\ t - (1 # 2) <= inject_Z (nearestEven t).
Proof.
  unfold nearestEven.
  pose proof (Qfloor_le t) as F1. pose proof (Qlt_floor t) as F2.
  rewrite inject_Z_plus in F2. change (inject_Z 1) with 1 in F2.
  destruct (Qle_bool (t - inject_Z (Qfloor t)) (1 # 2)) eqn:A.
  - apply Qle_bool_iff in A.
    destruct (Qle_bool (1 # 2) (t - inject_Z (Qfloor t))) eqn:B.
    + apply Qle_bool_iff in B.
      destruct (Z.even (Qfloor t)).
      * split; lra.
      * rewrite inject_Z_plus. change (inject_Z 1) with 1. split; lra.
    + split; lra.
  - assert (A' : (1 # 2) < t - inject_Z (Qfloor t)).
    { apply Qnot_le_lt. intros H. apply Qle_bool_iff in H. congruence. }
    rewrite inject_Z_plus. change (inject_Z 1) with 1. split; lra.
Qed.

Lemma nearestEven_nonneg (t : Q) : 0 <= t -> (0 <= nearestEven t)%Z.
Proof.
  intros H. assert (F : (0 <= Qfloor t)%Z).
  { change 0%Z with (Qfloor 0). now apply Qfloor_resp_le. }
  unfold nearestEven.
  destruct (Qle_bool _ _); [destruct (Qle_bool _ _); [destruct (Z.even _)|]|];
    lia.
Qed.

Lemma ulp_pos (x : Q) : 0 < ulp x.
Proof. apply pow2_pos. Qed.

Lemma roundPositive_nonneg (x : Q) : 0 <= x -> 0 <= roundPositive x.
Proof.
  intros H. unfold roundPositive. pose proof (ulp_pos x) as U.
  apply Qmult_le_0_compat; [|lra].
  change 0 with (inject_Z 0). rewrite <- Zle_Qle.
  apply nearestEven_nonneg. apply Qle_shift_div_l; [exact U | lra].
Qed.

(** Rounding moves a value by at most half the gap. *)
Lemma roundPositive_upper (x : Q) :
  roundPositive x <= x + ulp x * (1 # 2).
Proof.
  unfold roundPositive. pose proof (ulp_pos x) as U.
  destruct (nearestEven_bounds (x / ulp x)) as [H _].
  apply (Qmult_le_r _ _ (ulp x) U) in H.
  rewrite Qmult_plus_distr_l in H.
  assert (E : x / ulp x * ulp x == x) by (field; lra).
  rewrite E in H. lra.
Qed.

Lemma round_nonneg (x : Q) : 0 <= x -> 0 <= round x.
Proof.
  intros H. unfold round.
  destruct (Qle_bool x 0) eqn:A.
  - destruct (Qle_bool 0 x) eqn:B; [lra|].
    apply Qle_bool_iff in H. congruence.
  - now apply roundPositive_nonneg.
Qed.

Lemma round_positive (x : Q) : 0 < x -> round x = roundPositive x.
Proof.
  intros H. unfold round. destruct (Qle_bool x 0) eqn:A; [|reflexivity].
  apply Qle_bool_iff in A. lra.
Qed.

(** The largest Number below 1 is [1 - 2^-53]. *)
Lemma double_below_one (r : Q) :
  isDouble r -> 0 <= r -> r < 1 -> r <= 1 - pow2 (-53).
Proof.
  intros D H0 H1.
  assert (P : pow2 (-53) <= 1 # 2) by (vm_compute; discriminate).
  destruct (Qlt_le_dec r (1 # 2)) as [Hs|Hl]; [lra|].
  assert (Hr : 0 < r) by lra.
  destruct (ilog2_spec r Hr) as [E1 E2].
  assert (Ee : ilog2 r = (-1)%Z).
  { assert (A : (ilog2 r < 0)%Z).
    { apply pow2_lt_inv. change (pow2 0) with 1. lra. }
    assert (B : (-1 < ilog2 r + 1)%Z).
    { apply pow2_lt_inv. change (pow2 (-1)) with (/ 2).
      assert (/ 2 == 1 # 2) by reflexivity. lra. }
    lia. }
  unfold isDouble in D. rewrite (round_positive r Hr) in D.
  unfold roundPositive, ulp in D. rewrite Ee in D.
  change (Z.max (-1) (-1022) - 52)%Z with (-53)%Z in D.
  set (m := nearestEven (r / pow2 (-53))) in D.
  assert (U : 0 < pow2 (-53)) by apply pow2_pos.
  assert (M : (m < 2 ^ 53)%Z).
  { rewrite Zlt_Qlt.
    assert (K : inject_Z (2 ^ 53) * pow2 (-53) == 1) by reflexivity.
    apply (Qmult_lt_r _ _ (pow2 (-53)) U). rewrite K, D. exact H1. }
  assert (M' : inject_Z m <= inject_Z (2 ^ 53) - 1).
  { assert (Z' : (m <= 2 ^ 53 - 1)%Z) by lia.
    rewrite Zle_Qle in Z'. unfold Z.sub in Z'. rewrite inject_Z_plus in Z'.
    exact Z'. }
  rewrite <- D.
  assert (K : 1 - pow2 (-53) == (inject_Z (2 ^ 53) - 1) * pow2 (-53))
    by reflexivity.
  rewrite K. apply Qmult_le_r; [exact U | exact M'].
Qed.

(** The product of a Number below 1 and a positive integer, rounded,
    stays below the integer. *)
Lemma mul_below (r : Q) (n : Z) :
  isDouble r -> 0 <= r -> r < 1 -> (0 < n)%Z -> mul r (inject_Z n) < inject_Z n.
Proof.
  intros D H0 H1 Hn. pose proof (double_below_one r D H0 H1) as Hr.
  assert (N1 : 1 <= inject_Z n).
  { change 1 with (inject_Z 1). rewrite <- Zle_Qle. lia. }
  set (u := pow2 (-53)) in *.
  assert (U0 : 0 < u) by apply pow2_pos.
  assert (U1 : u <= 1 # 2) by (vm_compute; discriminate).
  set (x := r * inject_Z n).
  assert (X0 : 0 <= x) by (apply Qmult_le_0_compat; lra).
  assert (X1 : x <= inject_Z n * (1 - u)).
  { unfold x. rewrite (Qmult_comm r). apply Qmult_le_l; lra. }
  unfold mul. fold x.
  destruct (Qlt_le_dec 0 x) as [Xp|Xz].
  2:{ assert (Z' : round x = 0).
      { unfold round. assert (A : Qle_bool x 0 = true) by now apply Qle_bool_iff.
        assert (B : Qle_bool 0 x = true) by now apply Qle_bool_iff.
        now rewrite A, B. }
      rewrite Z'. lra. }
  rewrite (round_positive x Xp).
  pose proof (roundPositive_upper x) as R.
  destruct (ilog2_spec x Xp) as [E1 _].
  unfold ulp in R.
  destruct (Z.max_spec (ilog2 x) (-1022)) as [[_ M] | [_ M]]; rewrite M in R.
  - change (pow2 (-1022 - 52)) with (pow2 (-1074)) in R.
    assert (T : pow2 (-1074) * (1 # 2) < u) by (vm_compute; reflexivity).
    assert (V : inject_Z n * u >= u) by (rewrite <- (Qmult_1_l u) at 1; apply Qmult_le_r; lra).
    lra.
  - rewrite pow2_minus in R.
    assert (V : pow2 (ilog2 x) / pow2 52 * (1 # 2) == pow2 (ilog2 x) * u).
    { assert (C1 : / pow2 52 * (1 # 2) == u) by reflexivity.
      unfold Qdiv. rewrite <- Qmult_assoc, C1. reflexivity. }
    rewrite V in R.
    assert (W : pow2 (ilog2 x) * u <= x * u) by (apply Qmult_le_r; lra).
    assert (S : x * (1 + u) <= inject_Z n * (1 - u) * (1 + u)).
    { apply Qmult_le_r; lra. }
    assert (Q' : inject_Z n * (1 - u) * (1 + u) == inject_Z n - inject_Z n * (u * u))
      by ring.
    assert (UU : 0 < inject_Z n * (u * u)).
    { apply Qmult_lt_0_compat; [lra|]. apply Qmult_lt_0_compat; lra. }
    lra.
Qed.

End DoubleFacts.

Module RandomFacts.

Local Unset Implicit Arguments.

(** The floor of a product by a draw is never negative. *)
Lemma floorTimes_nonneg (r : Q) (n : Z) :
  (0 <= r)%Q -> (0 <= n)%Z -> (0 <= floorTimes r n)%Z.
Proof.
  intros H0 Hn. unfold floorTimes, Double.mul.
  change 0%Z with (Qfloor 0). apply Qfloor_resp_le.
  apply DoubleFacts.round_nonneg. apply Qmult_le_0_compat; [exact H0|].
  rewrite (Zle_Qle 0 n) in Hn. exact Hn.
Qed.

(** [Math.floor(Math.random() * n)] is one of 0, ..., n-1: the rounded
    product of a Number below 1 and [n] stays below [n]. *)
Lemma floorTimes_range (r : Q) (n : Z) :
  unitInterval r -> Double.isDouble r -> (0 < n)%Z ->
  (0 <= floorTimes r n < n)%Z.
Proof.
  intros [H0 H1] D Hn. split.
  - apply floorTimes_nonneg; [exact H0 | lia].
  - unfold floorTimes. rewrite Zlt_Qlt.
    apply Qle_lt_trans with (Double.mul r (inject_Z n)); [apply Qfloor_le|].
    now apply DoubleFacts.mul_below.
Qed.

(** The product is rounded before the floor is taken.  The Number
    nearest 0.6 lies below 0.6, and its product with 10 rounds to 6;
    the Number nearest 1/6 lies below 1/6, and its product with 6 rounds
    to 1. *)
Lemma floorTimes_rounds :
  Double.isDouble Examples.sixTenths
  /\ (Examples.sixTenths < 6 # 10)%Q
  /\ Qfloor (Examples.sixTenths * 10) = 5%Z
  /\ floorTimes Examples.sixTenths 10 = 6%Z
  /\ Double.isDouble Examples.oneSixth
  /\ (Examples.oneSixth < 1 # 6)%Q
  /\ Qfloor (Examples.oneSixth * 6) = 0%Z
  /\ floorTimes Examples.oneSixth 6 = 1%Z.
Proof. repeat split; vm_compute; reflexivity. Qed.

(** Outside the Numbers the bound fails: a rational below 1 that is
    closer to 1 than any Number has a product that rounds to 10. *)
Lemma floorTimes_needs_double :
  unitInterval (1 - Double.pow2 (-60))
  /\ ~ Double.isDouble (1 - Double.pow2 (-60))
  /\ floorTimes (1 - Double.pow2 (-60)) 10 = 10%Z.
Proof.
  split; [split; vm_compute; [discriminate | reflexivity]|].
  split; [vm_compute; discriminate | vm_compute; reflexivity].
Qed.

End RandomFacts.

(* ================================================================= *)
(** ** Rule matcher *)

Module MatcherFacts.

Import JS Analyzer.

Lemma matchRules_from (clauseText : str) (rules : list ComplianceRule)
  (acc : list RuleMatch) :
  fold_left
    (fun matches r =>
       if ruleApplies clauseText r then matches ++ [toMatch r] else matches)
    rules acc
  = acc ++ map toMatch (filter (ruleApplies clauseText) rules).
Proof.
  revert acc; induction rules as [|r rules IH]; intros acc; simpl.
  - now rewrite app_nil_r.
  - rewrite IH. destruct (ruleApplies clauseText r); simpl.
    + now rewrite <- app_assoc.
    + reflexivity.
Qed.

(** The loop returns the applicable rules, all of them, in rule order. *)
Lemma matchRules_filter (clauseText : str) (rules : list ComplianceRule) :
  matchRules clauseText rules
  = map toMatch (filter (ruleApplies clauseText) rules).
Proof. unfold matchRules. now rewrite matchRules_from. Qed.

Lemma ruleApplies_iff (clauseText : str) (r : ComplianceRule) :
  ruleApplies clauseText r = true
  <-> Spec.occursIgnoringCase (keyword r) clauseText.
Proof. apply JSFacts.includes_lower_iff. Qed.

Lemma in_matchRules (clauseText : str) (rules : list ComplianceRule)
  (m : RuleMatch) :
  In m (matchRules clauseText rules)
  <-> exists r, In r rules /\ ruleApplies clauseText r = true /\ m = toMatch r.
Proof.
  rewrite matchRules_filter, in_map_iff. split.
  - intros [r [<- H]]. apply filter_In in H as [H1 H2]. now exists r.
  - intros [r [H1 [H2 ->]]]. exists r. split; [reflexivity|].
    apply filter_In. now split.
Qed.

(** X30. On strings of the code units U+0000..U+00FF the matcher lists a
    rule exactly when the rule is in the rule set and its keyword occurs
    in the clause text up to letter case; every pair it returns carries
    [isViolation = matched && !allowed]; and the output has one pair for
    each applicable rule of the list, in order, so a clause that matches
    several rules gets all of them. *)
Theorem matcher_returns_all_case_insensitive_matches
  (clauseText : str) (rules : list ComplianceRule) :
  (forall r,
      (exists m, In m (matchRules clauseText rules) /\ rule m = r)
      <-> In r rules /\ Spec.occursIgnoringCase (keyword r) clauseText)
  /\ (forall m, In m (matchRules clauseText rules) ->
        isViolation m = ruleApplies clauseText (rule m) && negb (allowed (rule m)))
  /\ map rule (matchRules clauseText rules)
     = filter (ruleApplies clauseText) rules
  /\ List.length (matchRules clauseText rules)
     = List.length (filter (ruleApplies clauseText) rules).
Proof.
  split; [|split; [|split]].
  - intros r. split.
    + intros [m [Hm <-]]. apply in_matchRules in Hm as [r [H1 [H2 ->]]].
      split; [exact H1|]. apply ruleApplies_iff. exact H2.
    + intros [H1 H2]. exists (toMatch r). split; [|reflexivity].
      apply in_matchRules. exists r. repeat split; [exact H1|].
      apply ruleApplies_iff. exact H2.
  - intros m Hm. apply in_matchRules in Hm as [r [H1 [H2 ->]]].
    simpl. now rewrite H2.
  - rewrite matchRules_filter, map_map. simpl. apply map_id.
  - rewrite matchRules_filter. apply length_map.
Qed.

(** C5. Reordering the rule list reorders the matches and changes nothing
    else: the two outputs are permutations of each other, hence equal as
    sets. *)
Theorem matcher_order_independent
  (clauseText : str) (rules rules' : list ComplianceRule) :
  Permutation rules rules' ->
  Permutation (matchRules clauseText rules) (matchRules clauseText rules')
  /\ Spec.sameSet (matchRules clauseText rules) (matchRules clauseText rules').
Proof.
  intros HP.
  assert (H : Permutation (matchRules clauseText rules)
                          (matchRules clauseText rules')).
  { rewrite !matchRules_filter. apply Permutation_map.
    induction HP; simpl.
    - constructor.
    - destruct (ruleApplies clauseText x); [constructor|]; assumption.
    - destruct (ruleApplies clauseText x), (ruleApplies clauseText y);
        try constructor; apply Permutation_refl.
    - eapply Permutation_trans; eassumption. }
  split; [exact H|].
  intros m. split; intros Hm.
  - eapply Permutation_in; eassumption.
  - eapply Permutation_in; [apply Permutation_sym|]; eassumption.
Qed.

Lemma matcher_order_independent_witness :
  Permutation Examples.initialRules (rev Examples.initialRules)
  /\ Spec.sameSet
       (matchRules Examples.liabilityText Examples.initialRules)
       (matchRules Examples.liabilityText (rev Examples.initialRules)).
Proof.
  split; [apply Permutation_rev|].
  exact (proj2 (matcher_order_independent Examples.liabilityText
                  (Permutation_rev Examples.initialRules))).
Defined.

End MatcherFacts.

(* ================================================================= *)
(** ** The rule matcher and the Greek sigma *)

Module SigmaFacts.

Import Sigma.

Local Unset Implicit Arguments.

(** On strings of U+0000..U+00FF lower-casing is the unit-by-unit one of
    [JS.toLowerCase], whatever comes before. *)
Lemma lowerFrom_latin (casedBefore : bool) (s : str) :
  lowerFrom casedBefore (ofLatin s) = ofLatin (JS.toLowerCase s).
Proof.
  revert casedBefore. induction s as [|c s IH]; intros b; [reflexivity|].
  cbn [ofLatin map lowerFrom JS.toLowerCase]. f_equal. apply IH.
Qed.

Lemma toLowerCase_latin (s : str) :
  toLowerCase (ofLatin s) = ofLatin (JS.toLowerCase s).
Proof. apply lowerFrom_latin. Qed.

Lemma startsWith_latin (s p : str) :
  startsWith (ofLatin s) (ofLatin p) = JS.startsWith s p.
Proof.
  revert s. induction p as [|a p IH]; intros [|b s]; try reflexivity.
  cbn [ofLatin map startsWith JS.startsWith unitEqb]. f_equal. apply IH.
Qed.

Lemma includes_latin (s sub : str) :
  includes (ofLatin s) (ofLatin sub) = JS.includes s sub.
Proof.
  induction s as [|c s IH].
  - cbn [ofLatin map includes JS.includes].
    f_equal. exact (startsWith_latin [] sub).
  - cbn [ofLatin map includes JS.includes].
    f_equal; [exact (startsWith_latin (c :: s) sub) | exact IH].
Qed.

Lemma ruleApplies_latin (clauseText : str) (r : ComplianceRule) :
  ruleApplies (ofLatin clauseText) (ofRule r)
  = Analyzer.ruleApplies clauseText r.
Proof.
  destruct r as [i kw ok score cat descr].
  change (includes (toLowerCase (ofLatin clauseText)) (toLowerCase (ofLatin kw))
          = JS.includes (JS.toLowerCase clauseText) (JS.toLowerCase kw)).
  now rewrite !toLowerCase_latin, includes_latin.
Qed.

Lemma matchRules_latin_from (clauseText : str) (rules : list ComplianceRule)
  (acc : list RuleMatch) :
  fold_left
    (fun matches r =>
       if ruleApplies (ofLatin clauseText) r
       then matches ++ [toMatch r] else matches)
    (map ofRule rules) (map ofMatch acc)
  = map ofMatch
      (fold_left
         (fun matches r =>
            if Analyzer.ruleApplies clauseText r
            then matches ++ [Analyzer.toMatch r] else matches)
         rules acc).
Proof.
  revert acc. induction rules as [|r rules IH]; intros acc; [reflexivity|].
  cbn [map fold_left]. rewrite ruleApplies_latin.
  destruct (Analyzer.ruleApplies clauseText r); [|apply IH].
  rewrite <- IH. f_equal. rewrite map_app. f_equal.
  now destruct r.
Qed.

(** On strings of U+0000..U+00FF the matcher is the one of [Analyzer]. *)
Lemma matchRules_latin (clauseText : str) (rules : list ComplianceRule) :
  matchRules (ofLatin clauseText) (map ofRule rules)
  = map ofMatch (Analyzer.matchRules clauseText rules).
Proof. exact (matchRules_latin_from clauseText rules []). Qed.

(** C4, where the code departs from it.  The rule matcher compares the
    lower-cased clause with the lower-cased keyword, and lower-casing
    depends on the context of a capital sigma.  In the clause made of
    the letter A and a capital sigma the sigma ends a word and becomes
    the final small sigma; the keyword made of a capital sigma alone
    becomes the small sigma.  The keyword occurs in the clause as it
    stands, and the matcher does not list the rule. *)
Theorem capital_sigma_keyword_is_missed :
  (exists pre post, sigmaText = pre ++ keyword sigmaRule ++ post)
  /\ toLowerCase sigmaText = [Latin "a"%char; FinalSigma]
  /\ toLowerCase (keyword sigmaRule) = [SmallSigma]
  /\ ruleApplies sigmaText sigmaRule = false
  /\ matchRules sigmaText [sigmaRule] = [].
Proof.
  split; [exists [Latin "A"%char], []; reflexivity|].
  repeat split; vm_compute; reflexivity.
Qed.

End SigmaFacts.

(* ================================================================= *)
(** ** Heuristic analyzer: status and risk score *)

Module AnalyzerFacts.

Import JS Analyzer MatcherFacts.

Lemma length_pos_iff {A : Type} (l : list A) :
  (0 <? Z.of_nat (List.length l))%Z = true <-> l <> [].
Proof.
  destruct l; simpl; split; try congruence; try discriminate.
  - intros _. reflexivity.
Qed.

Lemma risk_score_eq clauseText rules section d :
  risk_score (basicClauseAnalysis clauseText rules section d)
  = adjustRisk (compliance_status (basicClauseAnalysis clauseText rules section d))
               (floorTimes (riskDraw d) 10).
Proof. reflexivity. Qed.

Lemma status_eq clauseText rules section d :
  compliance_status (basicClauseAnalysis clauseText rules section d)
  = decideStatus (matchRules clauseText rules)
                 (filter isViolation (matchRules clauseText rules)) d.
Proof. reflexivity. Qed.

(** The heuristic analyzer writes one of its three labels. *)
Lemma decideStatus_known (matches violations : list RuleMatch) (d : Draws) :
  isKnown (decideStatus matches violations d) = true.
Proof.
  unfold decideStatus.
  destruct (0 <? _)%Z; [reflexivity|].
  destruct (0 <? _)%Z; [destruct (negb _)|]; reflexivity.
Qed.

Lemma status_known clauseText rules section d :
  isKnown (compliance_status (basicClauseAnalysis clauseText rules section d))
  = true.
Proof. rewrite status_eq. apply decideStatus_known. Qed.

(** Each clamp sends a base score of 0..9 into the band of its status. *)
Lemma adjustRisk_band (st : ComplianceStatus) (base : Z) :
  isKnown st = true ->
  (0 <= base <= 9)%Z -> Spec.inBand st (adjustRisk st base).
Proof. destruct st; simpl; try lia; discriminate. Qed.

Lemma baseScore_nonneg (d : Draws) :
  unitInterval (riskDraw d) -> (0 <= floorTimes (riskDraw d) 10)%Z.
Proof.
  intros [H _]. apply RandomFacts.floorTimes_nonneg; [exact H | lia].
Qed.

Lemma baseScore_range (d : Draws) :
  unitInterval (riskDraw d) -> Double.isDouble (riskDraw d) ->
  (0 <= floorTimes (riskDraw d) 10 <= 9)%Z.
Proof.
  intros H D.
  pose proof (RandomFacts.floorTimes_range (riskDraw d) 10 H D eq_refl). lia.
Qed.

Lemma violations_nonempty_iff (clauseText : str) (rules : list ComplianceRule) :
  filter isViolation (matchRules clauseText rules) <> []
  <-> exists r, In r rules /\ ruleApplies clauseText r = true /\ allowed r = false.
Proof.
  split.
  - destruct (filter isViolation (matchRules clauseText rules)) as [|m l] eqn:E;
      [congruence | intros _].
    assert (Hm : In m (filter isViolation (matchRules clauseText rules)))
      by (rewrite E; now left).
    apply filter_In in Hm as [Hin Hv].
    apply in_matchRules in Hin as [r [H1 [H2 ->]]].
    exists r. repeat split; try assumption.
    simpl in Hv. now apply negb_true_iff.
  - intros [r [H1 [H2 H3]]] E.
    assert (Hm : In (toMatch r) (filter isViolation (matchRules clauseText rules))).
    { apply filter_In. split.
      - apply in_matchRules. now exists r.
      - simpl. now rewrite H3. }
    rewrite E in Hm. exact Hm.
Qed.

(** C1. Whatever the clause, the rules and the random draws, the risk
    score of the heuristic analyzer lies in the band of the status it
    returns: 7..9 for Non-Compliant, 4..6 for Review Needed, 0..3 for
    Compliant.  The draw behind the score is a Number of the unit
    interval, and its product with 10 is the rounded one. *)
Theorem risk_score_in_band_of_status
  (clauseText : str) (rules : list ComplianceRule) (section : option str)
  (d : Draws) :
  unitInterval (riskDraw d) -> Double.isDouble (riskDraw d) ->
  let a := basicClauseAnalysis clauseText rules section d in
  Spec.inBand (compliance_status a) (risk_score a).
Proof.
  intros H D a. subst a. rewrite risk_score_eq.
  apply adjustRisk_band; [apply status_known|].
  apply baseScore_range; [exact H | exact D].
Qed.

(** C10. The heuristic analyzer never scores above 9: the base score,
    the floor of the rounded product of a Number of the unit interval
    and 10, is one of 0..9 and every clamp keeps 0..9 inside 0..9, so 10
    does not occur. *)
Theorem risk_score_at_most_nine
  (clauseText : str) (rules : list ComplianceRule) (section : option str)
  (d : Draws) :
  unitInterval (riskDraw d) -> Double.isDouble (riskDraw d) ->
  (0 <= floorTimes (riskDraw d) 10 <= 9)%Z
  /\ (forall st base, (0 <= base <= 9)%Z -> (0 <= adjustRisk st base <= 9)%Z)
  /\ (0 <= risk_score (basicClauseAnalysis clauseText rules section d) <= 9)%Z
  /\ risk_score (basicClauseAnalysis clauseText rules section d) <> 10%Z.
Proof.
  intros H D. pose proof (baseScore_range d H D) as Hb.
  assert (Hc : forall st base, (0 <= base <= 9)%Z -> (0 <= adjustRisk st base <= 9)%Z)
    by (intros [] base; simpl; lia).
  split; [exact Hb|]. split; [exact Hc|].
  rewrite risk_score_eq.
  specialize (Hc (compliance_status (basicClauseAnalysis clauseText rules section d))
                 _ Hb).
  lia.
Qed.

(** C2. The status is Non-Compliant exactly when some rule of the set is
    matched and not allowed.  With matches and no violation the status
    follows the draw alone, Compliant above one half and Review Needed
    otherwise.  When no rule matches, as with the empty rule set, the
    status is Compliant and the score is in 0..3. *)
Theorem status_follows_matches
  (clauseText : str) (rules : list ComplianceRule) (section : option str)
  (d : Draws) :
  unitInterval (riskDraw d) ->
  let a := basicClauseAnalysis clauseText rules section d in
  let matches := matchRules clauseText rules in
  (compliance_status a = NonCompliant
   <-> exists r, In r rules /\ Spec.violates clauseText r)
  /\ (matches <> [] -> (forall m, In m matches -> isViolation m = false) ->
      ((1 # 2 < statusDraw d)%Q -> compliance_status a = Compliant)
      /\ ((statusDraw d <= 1 # 2)%Q -> compliance_status a = ReviewNeeded))
  /\ ((forall r, In r rules -> ~ Spec.occursIgnoringCase (keyword r) clauseText) ->
      compliance_status a = Compliant /\ (0 <= risk_score a <= 3)%Z)
  /\ (rules = [] ->
      compliance_status a = Compliant /\ (0 <= risk_score a <= 3)%Z).
Proof.
  intros Hr a matches.
  assert (Hnone : matches = [] ->
                  compliance_status a = Compliant /\ (0 <= risk_score a <= 3)%Z).
  { intros E. assert (Hs : compliance_status a = Compliant).
    { subst a. rewrite status_eq. fold matches. rewrite E. reflexivity. }
    split; [exact Hs|].
    pose proof (baseScore_nonneg d Hr) as Hb.
    subst a. rewrite risk_score_eq. rewrite Hs. simpl. lia. }
  split; [|split; [|split]].
  - subst a. rewrite status_eq. fold matches. unfold decideStatus.
    destruct (0 <? Z.of_nat (List.length (filter isViolation matches)))%Z eqn:E.
    + split; [intros _|reflexivity].
      apply length_pos_iff, violations_nonempty_iff in E as [r [H1 [H2 H3]]].
      exists r. split; [exact H1|]. split; [|exact H3].
      apply ruleApplies_iff, H2.
    + split.
      * destruct (0 <? Z.of_nat (List.length matches))%Z;
          [destruct (negb _)|]; discriminate.
      * intros [r [H1 [H2 H3]]]. exfalso.
        assert (Hne : filter isViolation matches <> []).
        { apply violations_nonempty_iff. exists r. repeat split; try assumption.
          apply ruleApplies_iff, H2. }
        apply length_pos_iff in Hne. congruence.
  - intros Hne Hnv. subst a. rewrite status_eq. fold matches. unfold decideStatus.
    assert (Hf : filter isViolation matches = []).
    { destruct (filter isViolation matches) as [|m l] eqn:E; [reflexivity|].
      assert (Hm : In m (filter isViolation matches)) by (rewrite E; now left).
      apply filter_In in Hm as [Hin Hv]. rewrite (Hnv m Hin) in Hv. discriminate. }
    rewrite Hf. simpl.
    apply length_pos_iff in Hne. rewrite Hne.
    split; intros Hd.
    + destruct (Qle_bool (statusDraw d) (1 # 2)) eqn:E; [|reflexivity].
      apply Qle_bool_iff in E. exfalso. eapply Qlt_not_le; eassumption.
    + apply Qle_bool_iff in Hd. now rewrite Hd.
  - intros Hno. apply Hnone. subst matches. rewrite matchRules_filter.
    replace (filter (ruleApplies clauseText) rules) with (@nil ComplianceRule);
      [reflexivity|].
    symmetry. clear -Hno. induction rules as [|r rules IH]; [reflexivity|]. simpl.
    destruct (ruleApplies clauseText r) eqn:E.
    + exfalso. apply (Hno r); [now left|]. apply ruleApplies_iff, E.
    + apply IH. intros r' Hr'. apply Hno. now right.
  - intros ->. apply Hnone. reflexivity.
Qed.

(** The witnesses: a clause that names a disallowed keyword, with the
    rules the storage starts with. *)
Lemma risk_score_in_band_of_status_witness :
  unitInterval (riskDraw Examples.draws)
  /\ Double.isDouble (riskDraw Examples.draws)
  /\ Spec.inBand
       (compliance_status
          (basicClauseAnalysis Examples.liabilityText Examples.initialRules
             (Some $"4.2") Examples.draws))
       (risk_score
          (basicClauseAnalysis Examples.liabilityText Examples.initialRules
             (Some $"4.2") Examples.draws)).
Proof.
  assert (H : unitInterval (riskDraw Examples.draws))
    by (split; [discriminate | reflexivity]).
  assert (D : Double.isDouble (riskDraw Examples.draws))
    by (vm_compute; reflexivity).
  split; [exact H|]. split; [exact D|].
  exact (risk_score_in_band_of_status Examples.liabilityText
           Examples.initialRules (Some $"4.2") Examples.draws H D).
Defined.

Lemma risk_score_at_most_nine_witness :
  unitInterval (riskDraw Examples.draws)
  /\ Double.isDouble (riskDraw Examples.draws)
  /\ risk_score
       (basicClauseAnalysis Examples.liabilityText Examples.initialRules
          (Some $"4.2") Examples.draws) <> 10%Z.
Proof.
  assert (H : unitInterval (riskDraw Examples.draws))
    by (split; [discriminate | reflexivity]).
  assert (D : Double.isDouble (riskDraw Examples.draws))
    by (vm_compute; reflexivity).
  split; [exact H|]. split; [exact D|].
  exact (proj2 (proj2 (proj2
           (risk_score_at_most_nine Examples.liabilityText
              Examples.initialRules (Some $"4.2") Examples.draws H D)))).
Defined.

Lemma status_follows_matches_witness :
  unitInterval (riskDraw Examples.draws)
  /\ compliance_status
       (basicClauseAnalysis Examples.liabilityText [] None Examples.draws)
     = Compliant
  /\ (0 <= risk_score
             (basicClauseAnalysis Examples.liabilityText [] None Examples.draws)
        <= 3)%Z.
Proof.
  assert (H : unitInterval (riskDraw Examples.draws))
    by (split; [discriminate | reflexivity]).
  split; [exact H|].
  exact (proj2 (proj2 (proj2
           (status_follows_matches Examples.liabilityText [] None
              Examples.draws H))) eq_refl).
Defined.

End AnalyzerFacts.

(* ================================================================= *)
(** ** Clause segmenter *)

Module SegmenterFacts.

Import JS Regex Segmenter.

Local Open Scope nat_scope.

Lemma filter_nonempty_iff {A : Type} (f : A -> bool) (l : list A) :
  filter f l <> [] <-> exists x, In x l /\ f x = true.
Proof.
  split.
  - destruct (filter f l) as [|x r] eqn:E; [congruence | intros _].
    exists x. apply filter_In. rewrite E. now left.
  - intros [x Hx] E. apply filter_In in Hx. rewrite E in Hx. exact Hx.
Qed.

Lemma longerThan_iff (n : nat) (s : str) :
  longerThan n s = true <-> n < List.length s.
Proof. apply Nat.ltb_lt. Qed.

(** Where the separator matches nowhere, [split] returns the text whole. *)
Lemma splitFrom_no_match (r : re) (s cur : str) :
  (forall pre suf, s = pre ++ suf -> matchAt false r suf = None) ->
  splitFrom r cur 0 s = [rev cur ++ s].
Proof.
  revert cur; induction s as [|c s IH]; intros cur H; simpl.
  - now rewrite app_nil_r.
  - rewrite (H [] (c :: s) eq_refl), IH.
    + simpl. now rewrite <- app_assoc.
    + intros pre suf ->. apply (H (c :: pre)). reflexivity.
Qed.

Lemma split_no_match (r : re) (s : str) :
  (forall pre suf, s = pre ++ suf -> matchAt false r suf = None) ->
  split r s = [s].
Proof. intros H. unfold split. now rewrite splitFrom_no_match. Qed.

Lemma length_trim_le (s : str) : List.length (trim s) <= List.length s.
Proof.
  assert (H : forall t, List.length (trimStart t) <= List.length t).
  { induction t as [|c t IH]; simpl; [lia|].
    destruct (isWhiteSpace c); simpl; lia. }
  unfold trim, trimEnd. rewrite length_rev.
  etransitivity; [apply H|]. rewrite length_rev. apply H.
Qed.

(** Every clause the segmenter returns is longer than 50 characters. *)
Lemma clauses_are_long (text c : str) :
  In c (splitTextIntoClauses text) -> 50 < List.length c.
Proof.
  unfold splitTextIntoClauses.
  destruct (List.length _ =? 0); intros H; apply filter_In in H as [_ H];
    apply longerThan_iff in H; [exact H|].
  pose proof (length_trim_le c). lia.
Qed.

(** A text without a blank line whose trimmed length exceeds 50 is
    returned as the single clause. *)
Lemma single_paragraph (text : str) :
  (forall pre suf, text = pre ++ suf -> matchAt false blankLine suf = None) ->
  50 < List.length (trim text) ->
  splitTextIntoClauses text = [text].
Proof.
  intros Hno Hlen. unfold splitTextIntoClauses.
  rewrite (split_no_match _ Hno). simpl.
  apply longerThan_iff in Hlen. now rewrite Hlen.
Qed.

(** A text longer than 50 characters without a sentence boundary always
    yields a clause: failing a long paragraph, the text itself. *)
Lemma no_sentence_boundary (text : str) :
  (forall pre suf, text = pre ++ suf -> matchAt false sentenceEnd suf = None) ->
  50 < List.length text ->
  splitTextIntoClauses text <> [].
Proof.
  intros Hno Hlen. unfold splitTextIntoClauses.
  destruct (filter _ (split blankLine text)) as [|p ps] eqn:E; simpl.
  - rewrite (split_no_match _ Hno). simpl.
    apply longerThan_iff in Hlen. rewrite Hlen. discriminate.
  - discriminate.
Qed.

(** C3, as the code has it.  The segmenter returns at least one clause
    exactly when some paragraph of the blank-line split has a trimmed
    length over 50 or some piece of the sentence split is longer than 50.
    It keeps the paragraphs whose trimmed length exceeds 50 and, when
    there is none, the sentence pieces longer than 50. *)
Theorem segmenter_nonempty_iff_long_piece (text : str) :
  let paragraphs := split blankLine text in
  let sentences := split sentenceEnd text in
  let longParagraph := exists p, In p paragraphs /\ 50 < List.length (trim p) in
  let longSentence := exists s, In s sentences /\ 50 < List.length s in
  (1 <= List.length (splitTextIntoClauses text) <-> longParagraph \/ longSentence)
  /\ (longParagraph ->
      splitTextIntoClauses text
      = filter (fun p => longerThan 50 (trim p)) paragraphs)
  /\ (~ longParagraph ->
      splitTextIntoClauses text = filter (fun s => longerThan 50 s) sentences).
Proof.
  intros paragraphs sentences longParagraph longSentence.
  assert (HP : longParagraph
               <-> filter (fun p => longerThan 50 (trim p)) paragraphs <> []).
  { rewrite filter_nonempty_iff. unfold longParagraph.
    split; intros [p [H1 H2]]; exists p; (split; [exact H1|]);
      apply longerThan_iff; exact H2. }
  assert (HS : longSentence
               <-> filter (fun s => longerThan 50 s) sentences <> []).
  { rewrite filter_nonempty_iff. unfold longSentence.
    split; intros [p [H1 H2]]; exists p; (split; [exact H1|]);
      apply longerThan_iff; exact H2. }
  assert (Hne : forall l : list str, 1 <= List.length l <-> l <> []).
  { intros [|x l]; simpl; split; try congruence; try lia. }
  unfold splitTextIntoClauses. fold paragraphs sentences.
  destruct (filter (fun p => longerThan 50 (trim p)) paragraphs) as [|c cs] eqn:E;
    simpl.
  - split; [|split].
    + rewrite Hne, <- HS. split; [now right|].
      intros [H|H]; [|exact H]. apply HP in H. congruence.
    + intros H. apply HP in H. congruence.
    + reflexivity.
  - split; [|split].
    + split; [intros _; left; apply HP; discriminate | intros _; lia].
    + reflexivity.
    + intros H. exfalso. apply H, HP. discriminate.
Qed.

(** C3 as stated fails: three short provisions, 88 characters in all,
    give no clause. *)
Lemma short_provisions_give_no_clause :
  ~ (forall text, 50 < List.length (trim text) ->
                  1 <= List.length (splitTextIntoClauses text)).
Proof.
  intros H. specialize (H Examples.shortProvisions).
  assert (E : splitTextIntoClauses Examples.shortProvisions = [])
    by (vm_compute; reflexivity).
  rewrite E in H. simpl in H.
  assert (L : 50 < List.length (trim Examples.shortProvisions))
    by (vm_compute; lia).
  specialize (H L). lia.
Qed.

End SegmenterFacts.

(* ================================================================= *)
(** ** The matcher against the meaning of the patterns *)

Module RegexFacts.

Import JS Regex.

Local Open Scope nat_scope.

Lemma firstn_consumed {X : Type} (w s : list X) :
  firstn (List.length (w ++ s) - List.length s) (w ++ s) = w.
Proof.
  rewrite length_app.
  replace (List.length w + List.length s - List.length s) with (List.length w) by lia.
  rewrite firstn_app, firstn_all, Nat.sub_diag. simpl. apply app_nil_r.
Qed.

Section Engine.

Variable i : bool.
Variable A : Type.

Lemma star_sound p s (k : str -> option A) x :
  star p s k = Some x ->
  exists w s', s = w ++ s' /\ forallb p w = true /\ k s' = Some x.
Proof.
  induction s as [|c s IH]; simpl; intros H.
  - now exists [], [].
  - destruct (p c) eqn:Hp; [destruct (star p s k) eqn:E|].
    + injection H as <-. destruct (IH eq_refl) as [w [s' [-> [Hw Hk]]]].
      exists (c :: w), s'. simpl. now rewrite Hp, Hw.
    + now exists [], (c :: s).
    + now exists [], (c :: s).
Qed.

Lemma star_reaches p s (k : str -> option A) :
  k s <> None -> star p s k <> None.
Proof.
  destruct s as [|c s]; simpl; [easy|]. intros H.
  destruct (p c); [destruct (star p s k)|]; easy.
Qed.

Lemma star_complete p w s' (k : str -> option A) :
  forallb p w = true -> k s' <> None -> star p (w ++ s') k <> None.
Proof.
  induction w as [|c w IH]; simpl; intros Hw Hk.
  - now apply star_reaches.
  - apply andb_true_iff in Hw as [Hc Hw]. rewrite Hc.
    specialize (IH Hw Hk). destruct (star p (w ++ s') k); easy.
Qed.

(** Whatever the matcher accepts, the pattern means. *)
Lemma run_sound r :
  forall s cap (k : str -> option str -> option A) x,
    run i r s cap k = Some x ->
    exists w s' cap', s = w ++ s' /\ Sem i r w cap cap' /\ k s' cap' = Some x.
Proof.
  induction r as [|c|p|p|a IHa b IHb|a IHa b IHb|a IHa]; simpl; intros s cap k x H.
  - exists [], s, cap. repeat split; [constructor | exact H].
  - destruct s as [|y s]; [discriminate|].
    destruct (chrEq i c y) eqn:E; [|discriminate].
    exists [y], s, cap. repeat split; [now constructor | exact H].
  - destruct s as [|y s]; [discriminate|].
    destruct (p y) eqn:E; [|discriminate].
    exists [y], s, cap. repeat split; [now constructor | exact H].
  - apply star_sound in H as [w [s' [-> [Hw Hk]]]].
    exists w, s', cap. repeat split; [now constructor | exact Hk].
  - apply IHa in H as [w1 [s1 [c1 [-> [S1 H]]]]].
    apply IHb in H as [w2 [s2 [c2 [-> [S2 H]]]]].
    exists (w1 ++ w2), s2, c2. rewrite <- app_assoc.
    repeat split; [econstructor; eassumption | exact H].
  - destruct (run i a s cap k) eqn:E.
    + injection H as ->. apply IHa in E as [w [s' [c1 [-> [S1 H]]]]].
      exists w, s', c1. repeat split; [now apply SemAltL | exact H].
    + apply IHb in H as [w [s' [c1 [-> [S1 H]]]]].
      exists w, s', c1. repeat split; [now apply SemAltR | exact H].
  - apply IHa in H as [w [s' [c1 [-> [S1 H]]]]].
    rewrite firstn_consumed in H.
    exists w, s', (Some w). repeat split; [econstructor; eassumption | exact H].
Qed.

(** Backtracking misses nothing: a word the pattern means, followed by a
    rest the continuation accepts, is accepted. *)
Lemma run_complete r w c c' :
  Sem i r w c c' ->
  forall s' (k : str -> option str -> option A),
    k s' c' <> None -> run i r (w ++ s') c k <> None.
Proof.
  induction 1 as [c|x y c E|p y c E|p w c E|a b w1 w2 c c1 c2 _ IH1 _ IH2
                  |a b w c c1 _ IH|a b w c c1 _ IH|a w c c1 _ IH];
    intros s' k Hk; simpl.
  - exact Hk.
  - now rewrite E.
  - now rewrite E.
  - now apply star_complete.
  - rewrite <- app_assoc. apply IH1. now apply IH2.
  - specialize (IH s' k Hk). destruct (run i a (w ++ s') c k); easy.
  - destruct (run i a (w ++ s') c k); [easy|]. now apply IH.
  - apply IH. now rewrite firstn_consumed.
Qed.

End Engine.

Lemma matchAt_sound i r s m :
  matchAt i r s = Some m ->
  exists w s' c', s = w ++ s' /\ Sem i r w None c' /\ m = {| m0 := w; m1 := c' |}.
Proof.
  unfold matchAt. intros H.
  apply run_sound in H as [w [s' [c' [-> [S H]]]]].
  rewrite firstn_consumed in H. injection H as <-. now exists w, s', c'.
Qed.

Lemma matchAt_complete i r w s' c' :
  Sem i r w None c' -> matchAt i r (w ++ s') <> None.
Proof.
  intros S. unfold matchAt. eapply run_complete; [exact S|]. discriminate.
Qed.

(** [search] returns a match, and the leftmost position that has one. *)
Lemma search_sound i r s m :
  search i r s = Some m ->
  exists pre w post c',
    s = pre ++ w ++ post /\ Sem i r w None c' /\ m = {| m0 := w; m1 := c' |}
    /\ (forall p1 p2, pre = p1 ++ p2 -> p2 <> [] ->
                      matchAt i r (p2 ++ w ++ post) = None).
Proof.
  assert (Here : forall s, matchAt i r s = Some m ->
    exists pre w post c',
      s = pre ++ w ++ post /\ Sem i r w None c' /\ m = {| m0 := w; m1 := c' |}
      /\ (forall p1 p2, pre = p1 ++ p2 -> p2 <> [] ->
                        matchAt i r (p2 ++ w ++ post) = None)).
  { intros s0 E. apply matchAt_sound in E as [w [s' [c' [E [S ->]]]]].
    exists [], w, s', c'. split; [exact E|]. split; [exact S|].
    split; [reflexivity|].
    intros p1 p2 Hp Hne. destruct p1, p2; try discriminate. congruence. }
  induction s as [|c s IH]; simpl.
  - destruct (matchAt i r []) as [m'|] eqn:E; [|discriminate].
    intros H; injection H as ->. now apply Here.
  - destruct (matchAt i r (c :: s)) as [m'|] eqn:E.
    + intros H; injection H as ->. now apply Here.
    + intros H. apply IH in H as [pre [w [post [c' [-> [S [-> L]]]]]]].
      exists (c :: pre), w, post, c'. split; [reflexivity|].
      split; [exact S|]. split; [reflexivity|].
      intros p1 p2 Hp Hne. destruct p1 as [|y p1]; simpl in Hp.
      * subst p2. exact E.
      * injection Hp as _ ->. exact (L p1 p2 eq_refl Hne).
Qed.

Lemma search_complete i r pre w post c' :
  Sem i r w None c' -> search i r (pre ++ w ++ post) <> None.
Proof.
  intros S. induction pre as [|c pre IH]; simpl.
  - pose proof (matchAt_complete post S) as H.
    destruct (w ++ post); simpl; destruct (matchAt i r _); easy.
  - destruct (matchAt i r (c :: pre ++ w ++ post)); easy.
Qed.

(** *** The meaning of the derived forms *)

Lemma sem_Cat i a b w c c' :
  Sem i (Cat a b) w c c'
  <-> exists w1 w2 c1, w = w1 ++ w2 /\ Sem i a w1 c c1 /\ Sem i b w2 c1 c'.
Proof.
  split.
  - inversion 1; subst. now exists w1, w2, c1.
  - intros [w1 [w2 [c1 [-> [S1 S2]]]]]. econstructor; eassumption.
Qed.

Lemma sem_Eps i w c c' : Sem i Eps w c c' <-> w = [] /\ c' = c.
Proof.
  split; [inversion 1; now subst | intros [-> ->]; constructor].
Qed.

Lemma sem_Chr i x w c c' :
  Sem i (Chr x) w c c' <-> exists y, w = [y] /\ chrEq i x y = true /\ c' = c.
Proof.
  split.
  - inversion 1; subst. now exists y.
  - intros [y [-> [E ->]]]. now constructor.
Qed.

Lemma sem_Str i l w c c' :
  Sem i (Str l) w c c'
  <-> Forall2 (fun x y => chrEq i x y = true) l w /\ c' = c.
Proof.
  revert w c'; induction l as [|x l IH]; intros w c'; simpl.
  - rewrite sem_Eps. split.
    + intros [-> ->]. split; [constructor | reflexivity].
    + intros [H ->]. inversion H. now split.
  - rewrite sem_Cat. split.
    + intros [w1 [w2 [c1 [-> [S1 S2]]]]].
      apply sem_Chr in S1 as [y [-> [E ->]]]. apply IH in S2 as [F ->].
      split; [now constructor | reflexivity].
    + intros [F ->]. inversion F as [|x' y l' w' E F']; subst.
      exists [y], w', c. repeat split.
      * apply sem_Chr. now exists y.
      * apply IH. now split.
Qed.

Lemma sem_Plus i p w c c' :
  Sem i (Plus p) w c c' <-> Spec.runOf p w /\ c' = c.
Proof.
  unfold Plus, Spec.runOf. rewrite sem_Cat. split.
  - intros [w1 [w2 [c1 [-> [S1 S2]]]]].
    inversion S1; subst. inversion S2; subst. simpl.
    repeat split; [discriminate|]. apply andb_true_iff. now split.
  - intros [[Hne Hw] ->]. destruct w as [|y w]; [congruence|].
    simpl in Hw. apply andb_true_iff in Hw as [Hy Hw].
    exists [y], w, c. repeat split; now constructor.
Qed.

Lemma sem_Opt i a w c c' :
  Sem i (Opt a) w c c' <-> Sem i a w c c' \/ (w = [] /\ c' = c).
Proof.
  unfold Opt. split.
  - inversion 1 as [| | | | |? ? ? ? ? S|? ? ? ? ? S|]; subst; [now left | right].
    apply sem_Eps in S. exact S.
  - intros [S | E]; [now apply SemAltL | apply SemAltR; apply sem_Eps; exact E].
Qed.

Lemma sem_Group i a w c c' :
  Sem i (Group a) w c c' <-> (exists c1, Sem i a w c c1) /\ c' = Some w.
Proof.
  split.
  - inversion 1; subst. split; [now exists c1 | reflexivity].
  - intros [[c1 S] ->]. econstructor; eassumption.
Qed.

End RegexFacts.

(* ================================================================= *)
(** ** Payment-term extraction *)

Module PaymentFacts.

Import JS Regex Payment RegexFacts.

Local Open Scope nat_scope.

(** *** Lower-casing leaves white space and digits alone *)

Lemma isWhiteSpace_lower c : isWhiteSpace (toLowerChar c) = isWhiteSpace c.
Proof. destruct c as [[] [] [] [] [] [] [] []]; reflexivity. Qed.

Lemma isDigit_lower c : isDigit (toLowerChar c) = isDigit c.
Proof. destruct c as [[] [] [] [] [] [] [] []]; reflexivity. Qed.

Lemma digit_lower c : isDigit c = true -> toLowerChar c = c.
Proof. destruct c as [[] [] [] [] [] [] [] []]; simpl; intros H; try reflexivity; discriminate. Qed.

Lemma forallb_lower p w :
  (forall c, p (toLowerChar c) = p c) ->
  forallb p (toLowerCase w) = forallb p w.
Proof.
  intros Hp. induction w as [|c w IH]; simpl; [reflexivity|].
  now rewrite Hp, IH.
Qed.

Lemma runOf_lower p w :
  (forall c, p (toLowerChar c) = p c) ->
  Spec.runOf p (toLowerCase w) <-> Spec.runOf p w.
Proof.
  intros Hp. unfold Spec.runOf. rewrite forallb_lower by exact Hp.
  destruct w; simpl; split; intros [H1 H2]; (split; [discriminate | exact H2]) || easy.
Qed.

Lemma digits_lower w : forallb isDigit w = true -> toLowerCase w = w.
Proof.
  induction w as [|c w IH]; simpl; [reflexivity|].
  intros H. apply andb_true_iff in H as [Hc Hw].
  now rewrite (digit_lower c Hc), IH.
Qed.

(** A pattern word against lower-cased input is a comparison up to case. *)
Lemma word_lower (kw w : str) :
  Forall2 (fun x y => chrEq true x y = true) kw (toLowerCase w)
  <-> Spec.sameIgnoringCase w kw.
Proof.
  unfold Spec.sameIgnoringCase, chrEq.
  revert w; induction kw as [|x kw IH]; intros [|y w]; simpl; split;
    intros H; inversion H; subst; constructor.
  - match goal with E : Ascii.eqb _ _ = true |- _ => apply Ascii.eqb_eq in E end.
    apply JSFacts.sameLetter_iff. now rewrite JSFacts.toLowerChar_idem in *.
  - now apply IH.
  - match goal with E : Spec.sameLetter _ _ = true |- _ =>
      apply JSFacts.sameLetter_iff in E end.
    apply Ascii.eqb_eq. rewrite JSFacts.toLowerChar_idem. congruence.
  - now apply IH.
Qed.

(** A pattern word that is already in lower case is found as it stands. *)
Lemma word_lower_eq (kw w : str) :
  toLowerCase kw = kw ->
  Forall2 (fun x y => chrEq true x y = true) kw (toLowerCase w) ->
  toLowerCase w = kw.
Proof.
  intros Hkw H. apply word_lower, JSFacts.sameIgnoringCase_iff in H. congruence.
Qed.

(** *** The pattern "Net N days" *)

Lemma sem_net_days_inv w c' :
  Sem true net_days w None c' -> exists N, c' = Some N /\ Spec.netDaysWord N w.
Proof.
  unfold net_days, ws, digits. cbn [Seq]. intros H.
  apply sem_Cat in H as [net [r1 [c1 [-> [Hnet H]]]]].
  apply sem_Str in Hnet as [Hnet ->].
  apply sem_Cat in H as [ws1 [r2 [c2 [-> [H1 H]]]]].
  apply sem_Plus in H1 as [H1 ->].
  apply sem_Cat in H as [N [r3 [c3 [-> [HN H]]]]].
  apply sem_Group in HN as [[c4 HN] ->]. apply sem_Plus in HN as [HN _].
  apply sem_Cat in H as [ws2 [r4 [c5 [-> [H2 H]]]]].
  apply sem_Plus in H2 as [H2 ->].
  apply sem_Cat in H as [day [r5 [c6 [-> [Hday H]]]]].
  apply sem_Str in Hday as [Hday ->].
  apply sem_Cat in H as [tail [r6 [c7 [-> [Hs H]]]]].
  apply sem_Eps in H as [-> ->]. rewrite app_nil_r.
  assert (c7 = Some N) as ->.
  { apply sem_Opt in Hs as [Hs | [_ Hs]]; [|exact Hs].
    apply sem_Chr in Hs as [y [_ [_ Hs]]]. exact Hs. }
  exists N. split; [reflexivity|]. now exists net, ws1, ws2, day, tail.
Qed.

Lemma sem_net_days_intro net ws1 N ws2 day :
  Forall2 (fun x y => chrEq true x y = true) $"net" net ->
  Spec.runOf isWhiteSpace ws1 -> Spec.runOf isDigit N ->
  Spec.runOf isWhiteSpace ws2 ->
  Forall2 (fun x y => chrEq true x y = true) $"day" day ->
  Sem true net_days (net ++ ws1 ++ N ++ ws2 ++ day) None (Some N).
Proof.
  intros Hnet H1 HN H2 Hday. unfold net_days, ws, digits. cbn [Seq].
  apply sem_Cat. exists net, (ws1 ++ N ++ ws2 ++ day), None.
  split; [reflexivity|]. split; [now apply sem_Str|].
  apply sem_Cat. exists ws1, (N ++ ws2 ++ day), None.
  split; [reflexivity|]. split; [now apply sem_Plus|].
  apply sem_Cat. exists N, (ws2 ++ day), (Some N).
  split; [reflexivity|]. split.
  { apply sem_Group. split; [|reflexivity]. exists None. now apply sem_Plus. }
  apply sem_Cat. exists ws2, day, (Some N).
  split; [reflexivity|]. split; [now apply sem_Plus|].
  apply sem_Cat. exists day, [], (Some N).
  split; [now rewrite app_nil_r|]. split; [now apply sem_Str|].
  apply sem_Cat. exists [], [], (Some N).
  split; [reflexivity|]. split; [|now apply sem_Eps].
  apply sem_Opt. now right.
Qed.

(** An occurrence in the clause text is a word of the pattern in the
    lower-cased text, at the same place and with the same number. *)
Lemma occurrence_to_word pre N text :
  Spec.netDaysAt pre N text ->
  exists w post,
    toLowerCase text = toLowerCase pre ++ w ++ post
    /\ Sem true net_days w None (Some N).
Proof.
  intros [net [ws1 [ws2 [day [post [-> [Hnet [Hday [H1 [HN H2]]]]]]]]]].
  exists (toLowerCase net ++ toLowerCase ws1 ++ N ++ toLowerCase ws2
          ++ toLowerCase day), (toLowerCase post).
  split.
  - rewrite !JSFacts.toLowerCase_app, (digits_lower N (proj2 HN)).
    now rewrite <- !app_assoc.
  - apply sem_net_days_intro; try assumption.
    + now apply word_lower.
    + now apply runOf_lower; [exact isWhiteSpace_lower|].
    + now apply runOf_lower; [exact isWhiteSpace_lower|].
    + now apply word_lower.
Qed.

(** And back. *)
Lemma word_to_occurrence text pre' w post' c' :
  toLowerCase text = pre' ++ w ++ post' ->
  Sem true net_days w None c' ->
  exists pre N,
    c' = Some N /\ toLowerCase pre = pre' /\ Spec.netDaysAt pre N text
    /\ includes (toLowerCase text) $"net" = true.
Proof.
  intros E S. apply sem_net_days_inv in S as [N' [-> W]].
  destruct W as [net' [ws1' [ws2' [day' [tail' [-> [Hnet [H1 [HN [H2 Hday]]]]]]]]]].
  unfold toLowerCase in E.
  apply map_eq_app in E as [pre [r0 [-> [Epre E]]]].
  rewrite <- !app_assoc in E.
  apply map_eq_app in E as [net [r1 [-> [Enet E]]]].
  apply map_eq_app in E as [ws1 [r2 [-> [E1 E]]]].
  apply map_eq_app in E as [N [r3 [-> [EN E]]]].
  apply map_eq_app in E as [ws2 [r4 [-> [E2 E]]]].
  apply map_eq_app in E as [day [r5 [-> [Eday E]]]].
  fold (toLowerCase net) in Enet. fold (toLowerCase ws1) in E1.
  fold (toLowerCase N) in EN. fold (toLowerCase ws2) in E2.
  fold (toLowerCase day) in Eday. fold (toLowerCase pre) in Epre.
  subst net' ws1' N' ws2' day'.
  assert (HN0 : Spec.runOf isDigit N)
    by (apply (runOf_lower isDigit N isDigit_lower); exact HN).
  exists pre, N. split; [|split; [exact Epre|split]].
  - now rewrite (digits_lower N (proj2 HN0)).
  - exists net, ws1, ws2, day, r5. split; [reflexivity|].
    split; [now apply word_lower|]. split; [now apply word_lower|].
    split; [now apply (runOf_lower isWhiteSpace ws1 isWhiteSpace_lower)|].
    split; [exact HN0|].
    now apply (runOf_lower isWhiteSpace ws2 isWhiteSpace_lower).
  - apply JSFacts.includes_spec.
    exists (toLowerCase pre),
      (toLowerCase (ws1 ++ N ++ ws2 ++ day ++ r5)).
    rewrite !JSFacts.toLowerCase_app.
    now rewrite (@word_lower_eq $"net" net eq_refl Hnet).
Qed.


(** *** The array the extraction returns *)

Lemma in_filterBoolean (xs : list (option str)) (s : str) :
  In s (filterBoolean xs) <-> In (Some s) xs /\ s <> [].
Proof.
  induction xs as [|[[|c t]|] xs IH]; simpl.
  - tauto.
  - rewrite IH. split; [tauto|]. intros [[H|H] Hne]; [|tauto]. congruence.
  - rewrite IH. split.
    + intros [<-|[H Hne]]; [split; [now left | discriminate] | tauto].
    + intros [[H|H] Hne]; [left; congruence | tauto].
  - rewrite IH. split; [tauto|]. intros [[H|H] Hne]; [discriminate | tauto].
Qed.

Lemma eqb_true_iff (a b : str) : JS.eqb a b = true <-> a = b.
Proof.
  unfold JS.eqb. destruct (list_eq_dec ascii_dec a b); split; congruence.
Qed.

Lemma in_setAdd (seen : list str) (x y : str) :
  In y (setAdd seen x) <-> In y seen \/ y = x.
Proof.
  unfold setAdd. destruct (existsb (JS.eqb x) seen) eqn:E.
  - split; [tauto|]. intros [H | ->]; [exact H|].
    apply existsb_exists in E as [z [Hz E]].
    apply eqb_true_iff in E. now subst.
  - rewrite in_app_iff. simpl. intuition congruence.
Qed.

Lemma in_arrayFromSet (xs : list str) (y : str) :
  In y (arrayFromSet xs) <-> In y xs.
Proof.
  unfold arrayFromSet.
  assert (H : forall seen, In y (fold_left setAdd xs seen) <-> In y seen \/ In y xs).
  { induction xs as [|x xs IH]; intros seen; simpl; [tauto|].
    rewrite IH, in_setAdd. intuition congruence. }
  rewrite H. simpl. tauto.
Qed.

(** What it takes for a term to be in the result. *)
Lemma in_extraction (clauses : list Clause.t) (c : Clause.t) (term : str) :
  In c clauses -> paymentRelated c = true ->
  extractTerm c = Some term -> term <> [] ->
  In term (basicPaymentTermExtraction clauses).
Proof.
  intros Hin Hrel Hterm Hne. unfold basicPaymentTermExtraction.
  apply in_arrayFromSet, in_filterBoolean. split; [|exact Hne].
  rewrite <- Hterm. apply in_map, filter_In. now split.
Qed.

Lemma extraction_only_from_related (clauses : list Clause.t) (term : str) :
  In term (basicPaymentTermExtraction clauses) ->
  exists c, In c clauses /\ paymentRelated c = true /\ extractTerm c = Some term.
Proof.
  unfold basicPaymentTermExtraction. intros H.
  apply in_arrayFromSet, in_filterBoolean in H as [H _].
  apply in_map_iff in H as [c [H1 H2]]. apply filter_In in H2 as [H2 H3].
  now exists c.
Qed.

Lemma extractTerm_short (c : Clause.t) :
  matchesPaymentPattern (Clause.clause c) = true ->
  List.length (Clause.clause c) <= 100 ->
  extractTerm c = Some (Clause.clause c).
Proof.
  intros Hm Hlen. unfold extractTerm.
  change (isSome (search true net_days (toLowerCase (Clause.clause c)))
          || isSome (search true pay_within (toLowerCase (Clause.clause c)))
          || isSome (search true due (toLowerCase (Clause.clause c)))
          || isSome (search true late_fee (toLowerCase (Clause.clause c))))
    with (matchesPaymentPattern (Clause.clause c)).
  rewrite Hm. apply Nat.leb_le in Hlen. now rewrite Hlen.
Qed.

Lemma extractTerm_long_net (c : Clause.t) (m : MatchResult) :
  search true net_days (toLowerCase (Clause.clause c)) = Some m ->
  100 < List.length (Clause.clause c) ->
  extractTerm c = Some ($"Payment terms: Net " ++ group1 m ++ $" days.").
Proof.
  intros Hm Hlen. unfold extractTerm. rewrite Hm. simpl isSome. simpl orb.
  apply Nat.leb_gt in Hlen. now rewrite Hlen.
Qed.

Lemma net_related (c : Clause.t) :
  includes (toLowerCase (Clause.clause c)) $"net" = true -> paymentRelated c = true.
Proof.
  intros H. unfold paymentRelated. rewrite H.
  now rewrite !orb_true_r.
Qed.

(** The leftmost occurrence of "Net N days" is the one the search reports. *)
Lemma search_net_days (text : str) :
  (exists N, Spec.netDays N text) ->
  exists m pre N,
    search true net_days (toLowerCase text) = Some m
    /\ m1 m = Some N
    /\ Spec.netDaysAt pre N text
    /\ (forall pre' N', Spec.netDaysAt pre' N' text ->
                        List.length pre <= List.length pre')
    /\ includes (toLowerCase text) $"net" = true.
Proof.
  intros [N0 [pre0 H0]].
  destruct (occurrence_to_word H0) as [w0 [post0 [E0 S0]]].
  destruct (search true net_days (toLowerCase text)) as [m|] eqn:Es.
  2:{ exfalso. rewrite E0 in Es. revert Es.
      eapply search_complete. exact S0. }
  apply search_sound in Es as [pre' [w [post' [c' [E [S [-> L]]]]]]].
  destruct (@word_to_occurrence text pre' w post' c' E S) as [pre [N [-> [Epre [Hocc Hinc]]]]].
  exists {| m0 := w; m1 := Some N |}, pre, N.
  split; [reflexivity|]. split; [reflexivity|]. split; [exact Hocc|].
  split; [|exact Hinc].
  intros pre2 N2 H2.
  destruct (Nat.le_gt_cases (List.length pre) (List.length pre2)) as [Hle|Hgt];
    [exact Hle | exfalso].
  destruct (occurrence_to_word H2) as [w2 [post2 [E2 S2]]].
  (* the earlier occurrence starts inside [pre'] *)
  assert (Hsplit : exists p2, pre' = toLowerCase pre2 ++ p2 /\ p2 <> []).
  { rewrite E in E2. subst pre'.
    assert (Hl : List.length (toLowerCase pre2) < List.length (toLowerCase pre))
      by now rewrite !JSFacts.length_toLowerCase.
    clear -E2 Hl. revert E2 Hl.
    generalize (toLowerCase pre) as a, (toLowerCase pre2) as b.
    induction a as [|x a IH]; intros [|y b] E2 Hl; simpl in *; try lia.
    - exists (x :: a). split; [reflexivity | discriminate].
    - injection E2 as -> E2. destruct (IH b E2) as [p2 [-> Hne]]; [lia|].
      now exists p2. }
  destruct Hsplit as [p2 [Hp Hne]].
  pose proof (L _ _ Hp Hne) as Hnone.
  assert (E3 : p2 ++ w ++ post' = w2 ++ post2).
  { rewrite E, Hp, <- app_assoc in E2. now apply app_inv_head in E2. }
  rewrite E3 in Hnone. revert Hnone. eapply matchAt_complete. exact S2.
Qed.

(** C7, as the code has it.  A clause longer than 100 characters that
    holds the pattern "Net N days" in any letter case puts
    "Payment terms: Net N days." in the result, N being the number of
    the first occurrence.  A clause of at most 100 characters that
    mentions one of the payment keywords and matches a payment pattern is
    returned word for word; so is every short clause with "Net N days".
    A clause over 100 characters that starts with the invoice sentence of
    the sample contract yields exactly "Payment terms: Net 30 days.". *)
Theorem payment_terms_extracted (clauses : list Clause.t) (c : Clause.t) :
  In c clauses ->
  (100 < List.length (Clause.clause c) ->
   (exists N, Spec.netDays N (Clause.clause c)) ->
   exists pre N,
     Spec.netDaysAt pre N (Clause.clause c)
     /\ (forall pre' N', Spec.netDaysAt pre' N' (Clause.clause c) ->
                         List.length pre <= List.length pre')
     /\ In ($"Payment terms: Net " ++ N ++ $" days.")
           (basicPaymentTermExtraction clauses))
  /\ (List.length (Clause.clause c) <= 100 ->
      matchesPaymentPattern (Clause.clause c) = true ->
      paymentRelated c = true ->
      In (Clause.clause c) (basicPaymentTermExtraction clauses))
  /\ (List.length (Clause.clause c) <= 100 ->
      (exists N, Spec.netDays N (Clause.clause c)) ->
      In (Clause.clause c) (basicPaymentTermExtraction clauses))
  /\ (100 < List.length (Clause.clause c) ->
      (exists rest, Clause.clause c = Examples.net30Prefix ++ rest) ->
      In $"Payment terms: Net 30 days." (basicPaymentTermExtraction clauses)
      /\ basicPaymentTermExtraction [c] = [$"Payment terms: Net 30 days."]).
Proof.
  intros Hin.
  assert (Hshort : List.length (Clause.clause c) <= 100 ->
                   matchesPaymentPattern (Clause.clause c) = true ->
                   paymentRelated c = true ->
                   In (Clause.clause c) (basicPaymentTermExtraction clauses)).
  { intros Hlen Hm Hrel.
    apply in_extraction with (c := c); try assumption.
    - now apply extractTerm_short.
    - intros E. rewrite E in Hm. discriminate. }
  split; [|split; [exact Hshort|split]].
  - intros Hlen Hocc.
    destruct (search_net_days Hocc) as [m [pre [N [Es [Em [Hat [Hmin Hinc]]]]]]].
    exists pre, N. split; [exact Hat|]. split; [exact Hmin|].
    apply in_extraction with (c := c); try assumption.
    + now apply net_related.
    + rewrite (extractTerm_long_net c Es Hlen). unfold group1. now rewrite Em.
    + discriminate.
  - intros Hlen Hocc.
    destruct (search_net_days Hocc) as [m [pre [N [Es [Em [Hat [Hmin Hinc]]]]]]].
    apply Hshort; [exact Hlen| |now apply net_related].
    unfold matchesPaymentPattern. cbv zeta. now rewrite Es.
  - intros Hlen [rest Erest].
    assert (Es : exists m, search true net_days (toLowerCase (Clause.clause c)) = Some m
                           /\ m1 m = Some $"30").
    { rewrite Erest, JSFacts.toLowerCase_app.
      generalize (toLowerCase rest) as tl. intros tl.
      exists {| m0 := $"net 30 days"; m1 := Some $"30" |}.
      split; [|reflexivity].
      change (toLowerCase Examples.net30Prefix)
        with ($"net 30 days"
              ++ $" from receipt of invoice. a late payment fee of 1.5% per month").
      rewrite <- app_assoc.
      generalize ($" from receipt of invoice. a late payment fee of 1.5% per month"
                  ++ tl) as tl'.
      intros tl'. cbn [search app lit list_ascii_of_string].
      replace (matchAt true net_days
                 ("n" :: "e" :: "t" :: " " :: "3" :: "0" :: " " :: "d" :: "a"
                      :: "y" :: "s" :: tl')%char)
        with (Some {| m0 := $"net 30 days"; m1 := Some $"30" |}); [reflexivity|].
      unfold matchAt. cbv -[Nat.sub List.length firstn].
      pose proof (firstn_consumed $"30"
                    (" " :: "d" :: "a" :: "y" :: "s" :: tl')%char) as H1.
      pose proof (firstn_consumed $"net 30 days" tl') as H0.
      cbn [app lit list_ascii_of_string] in H0, H1.
      now rewrite H0, H1. }
    destruct Es as [m [Es Em]].
    assert (Hinc : includes (toLowerCase (Clause.clause c)) $"net" = true).
    { apply JSFacts.includes_spec. rewrite Erest, JSFacts.toLowerCase_app.
      exists [], ($" 30 days from receipt of invoice. a late payment fee of 1.5% per month"
                   ++ toLowerCase rest).
      reflexivity. }
    assert (Ht : extractTerm c = Some $"Payment terms: Net 30 days.").
    { rewrite (extractTerm_long_net c Es Hlen). unfold group1. now rewrite Em. }
    split.
    + apply in_extraction with (c := c); try assumption;
        [now apply net_related | discriminate].
    + unfold basicPaymentTermExtraction. simpl filter.
      rewrite (net_related c Hinc). simpl map. rewrite Ht. reflexivity.
Qed.

Lemma payment_terms_extracted_witness :
  In Examples.net30Clause [Examples.net30Clause]
  /\ basicPaymentTermExtraction [Examples.net30Clause]
     = [$"Payment terms: Net 30 days."].
Proof.
  assert (Hin : In Examples.net30Clause [Examples.net30Clause])
    by (left; reflexivity).
  split; [exact Hin|].
  apply (proj2 (proj2 (proj2 (payment_terms_extracted _ _ Hin)))).
  - apply Nat.ltb_lt. reflexivity.
  - exists Examples.net30Rest. reflexivity.
Defined.

(** C7 as stated fails for short clauses: a late-fee clause of 25
    characters matches a payment pattern and names none of the payment
    keywords, so the filter drops it. *)
Lemma late_fee_clause_dropped :
  ~ (forall clauses c,
        In c clauses ->
        List.length (Clause.clause c) <= 100 ->
        matchesPaymentPattern (Clause.clause c) = true ->
        In (Clause.clause c) (basicPaymentTermExtraction clauses)).
Proof.
  intros H.
  specialize (H [Examples.lateFeeClause] Examples.lateFeeClause
                (or_introl eq_refl)).
  assert (E : basicPaymentTermExtraction [Examples.lateFeeClause] = [])
    by (vm_compute; reflexivity).
  rewrite E in H. apply H.
  - apply Nat.leb_le. reflexivity.
  - vm_compute. reflexivity.
Qed.

End PaymentFacts.

(* ================================================================= *)
(** ** JavaScript [Map] *)

Module JSMapFacts.

Import JSMap.

Section Facts.

Variables K V : Type.
Variable keq : K -> K -> bool.
Hypothesis keq_spec : forall a b, keq a b = true <-> a = b.

Lemma has_iff (m : t K V) (k : K) : has keq m k = true <-> In k (keys m).
Proof.
  unfold has, keys. rewrite existsb_exists, in_map_iff.
  split; intros [e [H1 H2]]; exists e.
  - split; [now apply keq_spec | exact H1].
  - split; [exact H2 | now apply keq_spec].
Qed.

Lemma has_false_iff (m : t K V) (k : K) : has keq m k = false <-> ~ In k (keys m).
Proof.
  rewrite <- has_iff. destruct (has keq m k); split; congruence.
Qed.

(** Setting a key the map lacks appends the entry. *)
Lemma set_new (m : t K V) (k : K) (v : V) :
  ~ In k (keys m) -> set keq m k v = m ++ [(k, v)].
Proof.
  induction m as [|[k' v'] m IH]; simpl; intros H; [reflexivity|].
  destruct (keq k' k) eqn:E.
  - apply keq_spec in E. tauto.
  - rewrite IH; tauto.
Qed.

(** Setting a key never changes which keys there are, nor their order,
    beyond adding the key when it is new. *)
Lemma keys_set (m : t K V) (k : K) (v : V) :
  keys (set keq m k v) = if has keq m k then keys m else keys m ++ [k].
Proof.
  induction m as [|[k' v'] m IH]; simpl; [reflexivity|].
  unfold has in *. simpl. destruct (keq k' k) eqn:E; simpl; [reflexivity|].
  rewrite IH. now destruct (existsb _ m).
Qed.

Lemma NoDup_keys_set (m : t K V) (k : K) (v : V) :
  NoDup (keys m) -> NoDup (keys (set keq m k v)).
Proof.
  intros H. rewrite keys_set. destruct (has keq m k) eqn:E; [exact H|].
  apply has_false_iff in E.
  apply NoDup_app; [exact H | repeat constructor; easy|].
  intros x Hx [<-|[]]. contradiction.
Qed.

Lemma NoDup_keys_ofEntries (es : list (K * V)) : NoDup (keys (ofEntries keq es)).
Proof.
  unfold ofEntries.
  assert (H : forall acc, NoDup (keys acc) ->
                NoDup (keys (fold_left (fun m e => set keq m (fst e) (snd e)) es acc))).
  { induction es as [|e es IH]; intros acc Hacc; simpl; [exact Hacc|].
    apply IH. now apply NoDup_keys_set. }
  apply H. constructor.
Qed.

(** Entries with distinct keys make the map they list. *)
Lemma ofEntries_NoDup (es : list (K * V)) :
  NoDup (keys es) -> ofEntries keq es = es.
Proof.
  unfold ofEntries.
  assert (H : forall acc, NoDup (keys (acc ++ es)) ->
                fold_left (fun m e => set keq m (fst e) (snd e)) es acc = acc ++ es).
  { induction es as [|[k v] es IH]; intros acc Hnd; simpl.
    - now rewrite app_nil_r.
    - rewrite set_new.
      + rewrite IH; rewrite <- app_assoc; [reflexivity | exact Hnd].
      + unfold keys in Hnd. rewrite map_app in Hnd. simpl in Hnd.
        apply NoDup_remove_2 in Hnd. intros Hin. apply Hnd.
        apply in_or_app. now left. }
  intros Hnd. now rewrite (H [] Hnd).
Qed.

End Facts.

End JSMapFacts.

(* ================================================================= *)
(** ** Fee merge *)

Module FeesFacts.

Import Fees JSMapFacts.

Local Open Scope nat_scope.

Lemma str_eqb_spec (a b : str) : JS.eqb a b = true <-> a = b.
Proof.
  unfold JS.eqb. destruct (list_eq_dec ascii_dec a b); split; congruence.
Qed.

Lemma keyedByName_set m fee :
  keyedByName m -> keyedByName (JSMap.set JS.eqb m (name fee) fee).
Proof.
  unfold keyedByName. induction 1 as [|[k v] m Hk Hm IH]; simpl.
  - repeat constructor.
  - destruct (JS.eqb k (name fee)) eqn:E; constructor; try assumption.
    simpl. now apply str_eqb_spec.
Qed.

Lemma keyedByName_ofEntries fs : keyedByName (JSMap.ofEntries JS.eqb (byName fs)).
Proof.
  unfold JSMap.ofEntries, byName.
  assert (H : forall acc, keyedByName acc ->
     keyedByName (fold_left (fun m e => JSMap.set JS.eqb m (fst e) (snd e))
                            (map (fun fee => (name fee, fee)) fs) acc)).
  { induction fs as [|f fs IH]; intros acc Hacc; simpl; [exact Hacc|].
    apply IH. now apply keyedByName_set. }
  apply H. constructor.
Qed.

(** One turn of the loop over the extracted fees. *)
Lemma addNewFees_cons m f fs :
  addNewFees m (f :: fs)
  = addNewFees (if JSMap.has JS.eqb m (name f) then m else m ++ [(name f, f)]) fs.
Proof.
  unfold addNewFees. simpl.
  destruct (JSMap.has JS.eqb m (name f)) eqn:E; [reflexivity|].
  apply (has_false_iff _ str_eqb_spec) in E.
  now rewrite (set_new _ str_eqb_spec) by exact E.
Qed.

Lemma keys_app (m m' : JSMap.t str Fee) :
  JSMap.keys (m ++ m') = JSMap.keys m ++ JSMap.keys m'.
Proof. apply map_app. Qed.

(** The loop only appends: the map it starts from stays in front. *)
Lemma addNewFees_prefix m extracted :
  exists tail, addNewFees m extracted = m ++ tail.
Proof.
  revert m; induction extracted as [|f fs IH]; intros m.
  - exists []. unfold addNewFees. simpl. now rewrite app_nil_r.
  - rewrite addNewFees_cons. destruct (JSMap.has JS.eqb m (name f)).
    + apply IH.
    + destruct (IH (m ++ [(name f, f)])) as [tail ->].
      exists ((name f, f) :: tail). now rewrite <- app_assoc.
Qed.

(** An entry of the result was in the map before, or is an extracted fee
    under a name the map did not have. *)
Lemma addNewFees_entries m extracted e :
  In e (addNewFees m extracted) ->
  In e m \/ exists fee, e = (name fee, fee) /\ In fee extracted
                        /\ ~ In (name fee) (JSMap.keys m).
Proof.
  revert m; induction extracted as [|f fs IH]; intros m.
  - unfold addNewFees. simpl. now left.
  - rewrite addNewFees_cons.
    destruct (JSMap.has JS.eqb m (name f)) eqn:E; intros H; apply IH in H.
    + destruct H as [H | [fee [H1 [H2 H3]]]]; [now left | right].
      exists fee. split; [exact H1|]. split; [now right | exact H3].
    + apply (has_false_iff _ str_eqb_spec) in E.
      destruct H as [H | [fee [H1 [H2 H3]]]].
      * apply in_app_or in H as [H | [<- | []]]; [now left | right].
        exists f. split; [reflexivity|]. split; [now left | exact E].
      * right. exists fee. split; [exact H1|]. split; [now right|].
        intros Hk. apply H3. rewrite keys_app. apply in_or_app. now left.
Qed.

Lemma addNewFees_has_all m extracted fee :
  In fee extracted -> In (name fee) (JSMap.keys (addNewFees m extracted)).
Proof.
  revert m; induction extracted as [|f fs IH]; intros m; [easy|].
  rewrite addNewFees_cons. intros [<- | Hin]; [|now apply IH].
  destruct (JSMap.has JS.eqb m (name f)) eqn:E.
  - apply (has_iff _ str_eqb_spec) in E.
    destruct (addNewFees_prefix m fs) as [tail ->].
    rewrite keys_app. apply in_or_app. now left.
  - destruct (addNewFees_prefix (m ++ [(name f, f)]) fs) as [tail ->].
    rewrite !keys_app. apply in_or_app. left. apply in_or_app. right. now left.
Qed.

Lemma addNewFees_NoDup m extracted :
  NoDup (JSMap.keys m) -> NoDup (JSMap.keys (addNewFees m extracted)).
Proof.
  revert m; induction extracted as [|f fs IH]; intros m Hm; [exact Hm|].
  rewrite addNewFees_cons. apply IH.
  destruct (JSMap.has JS.eqb m (name f)) eqn:E; [exact Hm|].
  apply (has_false_iff _ str_eqb_spec) in E.
  rewrite <- (set_new _ str_eqb_spec) by exact E.
  now apply (NoDup_keys_set _ str_eqb_spec).
Qed.

Lemma keyedByName_addNewFees m extracted :
  keyedByName m -> keyedByName (addNewFees m extracted).
Proof.
  revert m; induction extracted as [|f fs IH]; intros m Hm; [exact Hm|].
  rewrite addNewFees_cons. apply IH.
  destruct (JSMap.has JS.eqb m (name f)); [exact Hm|].
  apply Forall_app. split; [exact Hm | now repeat constructor].
Qed.

(** With every extracted name present the loop changes nothing. *)
Lemma addNewFees_present m extracted :
  (forall fee, In fee extracted -> In (name fee) (JSMap.keys m)) ->
  addNewFees m extracted = m.
Proof.
  induction extracted as [|f fs IH]; intros H; [reflexivity|].
  rewrite addNewFees_cons.
  assert (E : JSMap.has JS.eqb m (name f) = true)
    by (apply (has_iff _ str_eqb_spec), H; now left).
  rewrite E. apply IH. intros fee Hin. apply H. now right.
Qed.

Lemma values_byName fs : JSMap.values (byName fs) = fs.
Proof.
  unfold JSMap.values, byName. rewrite map_map. simpl. apply map_id.
Qed.

Lemma keys_byName fs : JSMap.keys (byName fs) = map name fs.
Proof. unfold JSMap.keys, byName. rewrite map_map. reflexivity. Qed.

Lemma byName_values m : keyedByName m -> byName (JSMap.values m) = m.
Proof.
  unfold keyedByName, byName, JSMap.values.
  induction 1 as [|[k v] m Hk Hm IH]; simpl; [reflexivity|].
  simpl in Hk. now rewrite IH, Hk.
Qed.

Lemma mergedMap_keyed existing extracted : keyedByName (mergedMap existing extracted).
Proof. apply keyedByName_addNewFees, keyedByName_ofEntries. Qed.

Lemma mergedMap_NoDup existing extracted :
  NoDup (JSMap.keys (mergedMap existing extracted)).
Proof. apply addNewFees_NoDup, (NoDup_keys_ofEntries _ str_eqb_spec). Qed.

(** Merging the same extraction again returns the same array. *)
Lemma mergeFees_idempotent (existing extracted : list Fee) :
  mergeFees (mergeFees existing extracted) extracted
  = mergeFees existing extracted.
Proof.
  unfold mergeFees at 1 3. f_equal.
  unfold mergedMap at 1. unfold mergeFees.
  rewrite (byName_values (mergedMap_keyed existing extracted)).
  rewrite (ofEntries_NoDup _ str_eqb_spec) by apply mergedMap_NoDup.
  apply addNewFees_present. intros fee Hin. now apply addNewFees_has_all.
Qed.

(** Every name of the stored array is still there, under the stored
    entry that the map kept for it. *)
Lemma keys_ofEntries_byName existing k :
  In k (JSMap.keys (JSMap.ofEntries JS.eqb (byName existing)))
  <-> In k (map name existing).
Proof.
  unfold JSMap.ofEntries.
  assert (H : forall acc,
    In k (JSMap.keys (fold_left (fun m e => JSMap.set JS.eqb m (fst e) (snd e))
                                (byName existing) acc))
    <-> In k (JSMap.keys acc) \/ In k (map name existing)).
  { induction existing as [|f fs IH]; intros acc; simpl; [tauto|].
    rewrite IH, keys_set.
    destruct (JSMap.has JS.eqb acc (name f)) eqn:E.
    - apply (has_iff _ str_eqb_spec) in E. intuition congruence.
    - rewrite in_app_iff. simpl. intuition congruence. }
  rewrite H. simpl. tauto.
Qed.

Lemma ofEntries_entries existing e :
  In e (JSMap.ofEntries JS.eqb (byName existing)) ->
  exists fee, e = (name fee, fee) /\ In fee existing.
Proof.
  unfold JSMap.ofEntries.
  assert (Hset : forall (m : JSMap.t str Fee) k v e,
             In e (JSMap.set JS.eqb m k v) ->
             In e m \/ (snd e = v /\ (fst e = k))).
  { induction m as [|[k' v'] m IHm]; simpl; intros k v e0 H.
    - destruct H as [<-|[]]. now right.
    - destruct (JS.eqb k' k) eqn:E.
      + destruct H as [<-|H]; [right | left; now right].
        apply str_eqb_spec in E. now split.
      + destruct H as [<-|H]; [left; now left|].
        apply IHm in H as [H|H]; [left; now right | now right]. }
  assert (H : forall acc,
    In e (fold_left (fun m e => JSMap.set JS.eqb m (fst e) (snd e))
                    (byName existing) acc) ->
    In e acc \/ exists fee, e = (name fee, fee) /\ In fee existing).
  { induction existing as [|f fs IH]; intros acc; simpl; [tauto|].
    intros H. apply IH in H as [H | [fee [H1 H2]]].
    - apply Hset in H as [H | [H1 H2]]; [now left | right].
      exists f. split; [|now left]. destruct e; simpl in *. congruence.
    - right. exists fee. split; [exact H1 | now right]. }
  intros He. apply H in He as [[] | He]. exact He.
Qed.

Lemma mergeFees_origin existing extracted fee :
  In fee (mergeFees existing extracted) ->
  In fee existing
  \/ (In fee extracted /\ ~ In (name fee) (map name existing)).
Proof.
  unfold mergeFees, JSMap.values. intros H.
  apply in_map_iff in H as [e [<- He]].
  apply addNewFees_entries in He as [He | [f [-> [H1 H2]]]].
  - left. apply ofEntries_entries in He as [f [-> Hf]]. exact Hf.
  - right. simpl. split; [exact H1|].
    intros Hk. apply H2. now apply keys_ofEntries_byName.
Qed.

Lemma mergeFees_names_NoDup existing extracted :
  NoDup (map name (mergeFees existing extracted)).
Proof.
  unfold mergeFees.
  rewrite <- keys_byName, (byName_values (mergedMap_keyed existing extracted)).
  apply mergedMap_NoDup.
Qed.

Lemma mergeFees_unchanged existing extracted :
  NoDup (map name existing) ->
  (forall fee, In fee extracted -> In (name fee) (map name existing)) ->
  mergeFees existing extracted = existing.
Proof.
  intros Hnd Hall. unfold mergeFees, mergedMap.
  rewrite (ofEntries_NoDup _ str_eqb_spec) by (now rewrite keys_byName).
  rewrite addNewFees_present; [apply values_byName|].
  intros fee Hin. rewrite keys_byName. now apply Hall.
Qed.

Lemma mergeFees_nonempty existing extracted :
  extracted <> [] -> mergeFees existing extracted <> [].
Proof.
  destruct extracted as [|f fs]; [congruence | intros _ E].
  pose proof (addNewFees_has_all
                (JSMap.ofEntries JS.eqb (byName existing)) (f :: fs) f
                (or_introl eq_refl)) as H.
  fold (mergedMap existing (f :: fs)) in H.
  unfold mergeFees, JSMap.values in E. apply map_eq_nil in E.
  rewrite E in H. exact H.
Qed.

(** C6. Running the merge of the extract-fees route a second time with
    the same extraction output returns the summary of the first run: no
    entry is added and the length of [fees] does not change.  The same
    holds when the second extraction returns the stored array itself.
    A fee of the merged array is a stored fee or an extracted fee whose
    name no stored fee has; names in the merged array are unique, and the
    entry under a stored name is a stored entry.  When the stored names
    are distinct and the extraction brings no new name, the stored array
    is returned as it is. *)
Theorem fee_merge_idempotent (summary : ContractSummary) (extractedFees : list Fee) :
  let once := extractFeesMerge summary extractedFees in
  let twice := extractFeesMerge once extractedFees in
  let stored := existingFees summary in
  twice = once
  /\ List.length (existingFees twice) = List.length (existingFees once)
  /\ extractFeesMerge once (existingFees once) = once
  /\ (forall extracted fee,
        In fee (mergeFees stored extracted) ->
        In fee stored
        \/ (In fee extracted /\ ~ In (name fee) (map name stored)))
  /\ (forall extracted,
        NoDup (map name (mergeFees stored extracted))
        /\ forall fee, In fee (mergeFees stored extracted) ->
                       In (name fee) (map name stored) -> In fee stored)
  /\ (forall extracted,
        NoDup (map name stored) ->
        (forall fee, In fee extracted -> In (name fee) (map name stored)) ->
        mergeFees stored extracted = stored).
Proof.
  intros once twice stored.
  assert (E : twice = once).
  { unfold twice, once, extractFeesMerge.
    destruct (List.length extractedFees =? 0); unfold withFees, existingFees;
      simpl; now rewrite mergeFees_idempotent. }
  split; [exact E|]. split; [now rewrite E|].
  split.
  { set (effective := if List.length extractedFees =? 0
                      then [sampleFee] else extractedFees).
    assert (Heff : effective <> [])
      by (unfold effective; destruct extractedFees; discriminate).
    assert (Hf : existingFees once = mergeFees stored effective) by reflexivity.
    pose proof (mergeFees_nonempty stored Heff) as Hne.
    unfold extractFeesMerge at 1. rewrite Hf.
    destruct (mergeFees stored effective) as [|f fs] eqn:Em; [congruence|].
    cbn [List.length Nat.eqb]. rewrite <- Em.
    rewrite mergeFees_unchanged;
      [reflexivity | apply mergeFees_names_NoDup | intros fee; apply in_map]. }
  split; [intros extracted fee; apply mergeFees_origin|].
  split.
  - intros extracted. split; [apply mergeFees_names_NoDup|].
    intros fee Hin Hname.
    apply mergeFees_origin in Hin as [H | [_ H]]; [exact H | contradiction].
  - intros extracted. apply mergeFees_unchanged.
Qed.

End FeesFacts.

(* ================================================================= *)
(** ** Clause analysis with the AI backend *)

Module DocumentFacts.

Import OpenAI Document.

Local Open Scope nat_scope.

(** [analyzeClauseWithAI] catches whatever its request throws. *)
Lemma analyzeClauseWithAI_returns clause rules section reply :
  analyzeClauseWithAI clause rules section reply
  = Ok (match requestAnalysis section reply with
        | Ok a => a
        | Err _ => defaultAnalysis section
        end).
Proof.
  unfold analyzeClauseWithAI, tryCatchR.
  now destruct (requestAnalysis section reply).
Qed.

(** Hence the [catch] of [analyzeDocument] around it is never entered. *)
Lemma analyzeClause_with_key clauseText rules section e :
  analyzeClause true clauseText rules section e
  = analyzeClauseWithAI clauseText rules section (reply e).
Proof.
  unfold analyzeClause. rewrite analyzeClauseWithAI_returns. reflexivity.
Qed.

Lemma analyzeClause_returns apiKey clauseText rules section e :
  exists a, analyzeClause apiKey clauseText rules section e = Ok a.
Proof.
  destruct apiKey.
  - rewrite analyzeClause_with_key, analyzeClauseWithAI_returns. eauto.
  - simpl. eauto.
Qed.

Lemma analyzeAt_returns apiKey rules documentId i clauseText e :
  exists c, analyzeAt apiKey rules documentId i clauseText e = Ok c
            /\ InsertClause.document_id c = documentId
            /\ InsertClause.clause c = clauseText.
Proof.
  unfold analyzeAt.
  destruct (analyzeClause_returns apiKey clauseText rules
              (JS.index sampleSections
                 (floorTimes (sectionDraw e)
                             (Z.of_nat (List.length sampleSections))))
              e) as [a ->].
  eexists. split; [reflexivity|]. split; reflexivity.
Qed.

(** The loop analyses every clause: one failure of the AI backend stops
    nothing. *)
Lemma analyzeFrom_returns apiKey rules documentId env clauses :
  forall i, exists l,
    analyzeFrom apiKey rules documentId env i clauses = Ok l
    /\ map InsertClause.clause l = clauses
    /\ Forall (fun c => InsertClause.document_id c = documentId) l.
Proof.
  induction clauses as [|t rest IH]; intros i; simpl.
  - exists []. repeat split; constructor.
  - destruct (analyzeAt_returns apiKey rules documentId i t (env i))
      as [c [-> [Hd Hc]]].
    destruct (IH (S i)) as [l [-> [Hm Hl]]].
    exists (c :: l). split; [reflexivity|]. split.
    + simpl. now rewrite Hc, Hm.
    + now constructor.
Qed.

Lemma analyzeDocument_returns apiKey clauses rules documentId env :
  exists l,
    Document.analyzeDocument apiKey clauses rules documentId env = Ok l
    /\ map InsertClause.clause l = clauses
    /\ Forall (fun c => InsertClause.document_id c = documentId) l.
Proof.
  unfold Document.analyzeDocument.
  destruct (analyzeFrom_returns apiKey rules documentId env clauses 0)
    as [l [-> H]].
  now exists l.
Qed.

(** C8, where the code departs from it.  With the AI backend configured
    and failing on a clause (the request rejects, the reply is empty, or
    it is not JSON), the analysis of that clause is the fixed default of
    [analyzeClauseWithAI], Review Needed with score 5, whatever the rules
    and the clause.  It is not the heuristic analysis: for the empty rule
    set the heuristic status is Compliant. *)
Theorem ai_failure_gives_fixed_default
  (clauseText : str) (rules : list ComplianceRule) (section : option str)
  (sd : Q) (d : Draws) :
  Forall
    (fun r =>
       let e := {| sectionDraw := sd; reply := r; draws := d |} in
       analyzeClause true clauseText rules section e
       = Ok (defaultAnalysis section)
       /\ compliance_status (defaultAnalysis section) = ReviewNeeded
       /\ risk_score (defaultAnalysis section) = 5%Z
       /\ compliance_status
            (Analyzer.basicClauseAnalysis clauseText [] section d) = Compliant)
    [RequestFails; NoContent; NotJson].
Proof.
  repeat constructor.
Qed.

End DocumentFacts.

(* ================================================================= *)
(** ** Storage and the upload route *)

Module UploadFacts.

Import Storage Upload.

Local Open Scope nat_scope.

(** *** One storage call *)

Lemma call_inv {A : Type} (op : Store -> A * Store) (w w' : World) (r : Result A) :
  call op w = (r, w') ->
  (exists e, r = Err e /\ store w' = store w)
  \/ (exists a, r = Ok a /\ op (store w) = (a, store w')).
Proof.
  unfold call. destruct (faults w) as [|[] fs]; intros H.
  - destruct (op (store w)) as [a s] eqn:E. injection H as <- <-.
    right. now exists a.
  - injection H as <- <-. left. now eexists.
  - destruct (op (store w)) as [a s] eqn:E. injection H as <- <-.
    right. now exists a.
Qed.

Lemma getAllClauses_inv w w' r :
  getAllClauses w = (r, w') ->
  store w' = store w
  /\ forall l, r = Ok l -> l = JSMap.values (clausesList (store w)).
Proof.
  intros H. apply call_inv in H as [[e [-> Hs]] | [a [-> Ha]]].
  - split; [exact Hs | discriminate].
  - injection Ha as <- Hs. split; [now symmetry|]. now intros l [= <-].
Qed.

Lemma getAllComplianceRules_store w w' r :
  getAllComplianceRules w = (r, w') -> store w' = store w.
Proof.
  intros H. apply call_inv in H as [[e [-> Hs]] | [a [-> Ha]]];
    [exact Hs | now injection Ha as _ <-].
Qed.

Lemma createContractSummary_clauses summary w w' r :
  createContractSummary summary w = (r, w') ->
  clausesList (store w') = clausesList (store w).
Proof.
  intros H. apply call_inv in H as [[e [-> Hs]] | [a [-> Ha]]].
  - now rewrite Hs.
  - injection Ha as _ <-. reflexivity.
Qed.

Lemma deleteClause_inv id w w' r :
  deleteClause id w = (r, w') ->
  (exists e, r = Err e)
  \/ clausesList (store w') = JSMap.delete Z.eqb (clausesList (store w)) id.
Proof.
  intros H. apply call_inv in H as [[e [-> Hs]] | [a [-> Ha]]].
  - left. now exists e.
  - right. injection Ha as _ <-. reflexivity.
Qed.



(** *** The reset *)

Lemma filter_twice {X : Type} (f g : X -> bool) (l : list X) :
  filter f (filter g l) = filter (fun x => g x && f x) l.
Proof.
  induction l as [|x l IH]; simpl; [reflexivity|].
  destruct (g x); simpl; [destruct (f x)|]; now rewrite IH.
Qed.

Lemma forEach_delete (l : list Clause.t) :
  forall w w',
    Forall (fun c => Clause.id c <> 0%Z) l ->
    forEach l deleteOne w = (Ok tt, w') ->
    clausesList (store w')
    = filter (fun e => negb (existsb (Z.eqb (fst e)) (map Clause.id l)))
             (clausesList (store w)).
Proof.
  induction l as [|c l IH]; intros w w' Hl H; simpl in *.
  - injection H as <-. symmetry. apply forallb_filter_id.
    apply forallb_forall. reflexivity.
  - inversion Hl as [|? ? Hc Hl']; subst.
    unfold bind at 1 in H. unfold deleteOne at 1 in H.
    apply Z.eqb_neq in Hc. rewrite Hc in H. unfold bind at 1 in H.
    destruct (deleteClause (Clause.id c) w) as [[b|e] w1] eqn:D;
      [|discriminate].
    unfold ret in H.
    apply deleteClause_inv in D as [[e D] | D]; [discriminate|].
    rewrite (IH w1 w' Hl' H), D. unfold JSMap.delete.
    rewrite filter_twice. apply filter_ext. intros [k v]. simpl.
    now destruct (Z.eqb k (Clause.id c)).
Qed.

(** A reset that goes through leaves no clause behind. *)
Lemma reset_clears w w' :
  idsFromOne w -> resetClauses w = (Ok tt, w') ->
  clausesList (store w') = [].
Proof.
  unfold resetClauses, idsFromOne. intros Hids H. unfold bind at 1 in H.
  destruct (getAllClauses w) as [[l|e] w1] eqn:G; [|discriminate].
  apply getAllClauses_inv in G as [Hs Hl]. specialize (Hl l eq_refl). subst l.
  apply forEach_delete in H.
  - rewrite H, Hs. clear -Hids.
    assert (K : forall m0 : JSMap.t Z Clause.t,
               Forall (fun e => fst e <> 0%Z /\ Clause.id (snd e) = fst e) m0 ->
               forall m, incl m0 m ->
               filter (fun e => negb (existsb (Z.eqb (fst e))
                                       (map Clause.id (JSMap.values m)))) m0 = []).
    { induction 1 as [|[k v] m0 [Hk Hv] Hm0 IH]; intros m Hincl; [reflexivity|].
      simpl. replace (existsb (Z.eqb k) (map Clause.id (JSMap.values m))) with true.
      - simpl. apply IH. intros e He. apply Hincl. now right.
      - symmetry. apply existsb_exists. exists k. split; [|apply Z.eqb_refl].
        simpl in Hv. rewrite <- Hv. unfold JSMap.values. rewrite map_map.
        apply (in_map (fun e => Clause.id (snd e)) m (k, v)).
        apply Hincl. now left. }
    apply (K _ Hids). apply incl_refl.
  - unfold JSMap.values. apply Forall_map.
    eapply Forall_impl; [|exact Hids]. intros [k v] [Hk Hv]. simpl in *. congruence.
Qed.

(** *** Storing the analysed clauses *)


(** *** The route *)




End UploadFacts.

(* ================================================================= *)
(** ** The clause table stays well formed *)

Module InvariantFacts.

Import Storage Upload UploadFacts.

Lemma wellFormed_ids w : wellFormed w -> idsFromOne w.
Proof.
  intros [_ H]. unfold idsFromOne. eapply Forall_impl; [|exact H].
  intros e [H1 H2]. split; [lia | exact H2].
Qed.

Lemma wellFormed_initial fs :
  wellFormed {| store := Examples.initialStore; faults := fs |}.
Proof. split; [reflexivity | constructor]. Qed.

Lemma preserves_ret {A : Type} (a : A) : preserves (ret a).
Proof. intros w r w' Hw H. now injection H as _ <-. Qed.

Lemma preserves_liftR {A : Type} (x : Result A) : preserves (liftR x).
Proof. intros w r w' Hw H. now injection H as _ <-. Qed.

Lemma preserves_bind {A B : Type} (m : M A) (f : A -> M B) :
  preserves m -> (forall a, preserves (f a)) -> preserves (bind m f).
Proof.
  intros Hm Hf w r w' Hw H. unfold bind in H.
  destruct (m w) as [[a|e] w1] eqn:E.
  - eapply Hf; [|exact H]. eapply Hm; eassumption.
  - injection H as _ <-. eapply Hm; eassumption.
Qed.

Lemma preserves_tryCatch {A : Type} (m : M A) (h : str -> M A) :
  preserves m -> (forall e, preserves (h e)) -> preserves (tryCatch m h).
Proof.
  intros Hm Hh w r w' Hw H. unfold tryCatch in H.
  destruct (m w) as [[a|e] w1] eqn:E.
  - injection H as _ <-. eapply Hm; eassumption.
  - eapply Hh; [|exact H]. eapply Hm; eassumption.
Qed.

Lemma preserves_forEach {A : Type} (xs : list A) (f : A -> M unit) :
  (forall x, preserves (f x)) -> preserves (forEach xs f).
Proof.
  intros Hf. induction xs as [|x xs IH]; simpl.
  - apply preserves_ret.
  - apply preserves_bind; [apply Hf | intros _; exact IH].
Qed.

(** A call keeps the invariant when its effect on the tables does. *)
Lemma preserves_call {A : Type} (op : Store -> A * Store) :
  (forall s fs fs', wellFormed {| store := s; faults := fs |} ->
                    wellFormed {| store := snd (op s); faults := fs' |}) ->
  preserves (call op).
Proof.
  intros Hop w r w' Hw H. unfold call in H.
  destruct w as [s fs]. simpl in H.
  destruct fs as [|[] fs].
  - destruct (op s) as [a s1] eqn:E. injection H as _ <-.
    specialize (Hop s [] [] Hw). now rewrite E in Hop.
  - injection H as _ <-. exact Hw.
  - destruct (op s) as [a s1] eqn:E. injection H as _ <-.
    specialize (Hop s (false :: fs) fs Hw). now rewrite E in Hop.
Qed.

Lemma preserves_read {A : Type} (f : Store -> A) :
  preserves (call (fun s => (f s, s))).
Proof. apply preserves_call. intros s fs fs' H. exact H. Qed.

Lemma preserves_deleteClause id : preserves (deleteClause id).
Proof.
  apply preserves_call. intros s fs fs' [H1 H2].
  unfold wellFormed in *. cbn in *. split; [exact H1|].
  unfold JSMap.delete. apply Forall_forall. intros e He.
  apply filter_In in He as [He _].
  now apply (proj1 (Forall_forall _ _) H2).
Qed.

Lemma set_entries {V : Type} (m : JSMap.t Z V) k v e :
  In e (JSMap.set Z.eqb m k v) -> In e m \/ e = (k, v).
Proof.
  induction m as [|[k' v'] m IH]; simpl.
  - intros [<-|[]]. now right.
  - destruct (Z.eqb k' k) eqn:E.
    + apply Z.eqb_eq in E. subst k'.
      intros [<-|H]; [now right | left; now right].
    + intros [<-|H]; [left; now left|].
      apply IH in H as [H|H]; [left; now right | now right].
Qed.

Lemma preserves_createClause c : preserves (createClause c).
Proof.
  apply preserves_call. intros s fs fs' [H1 H2].
  unfold wellFormed in *. cbn in *.
  split; [lia|]. apply Forall_forall. intros e He.
  apply set_entries in He as [He | ->].
  - pose proof (proj1 (Forall_forall _ _) H2 e He) as [Hr Hi].
    split; [lia | exact Hi].
  - simpl. split; [lia | reflexivity].
Qed.

Lemma preserves_createContractSummary sm : preserves (createContractSummary sm).
Proof. apply preserves_call. intros s fs fs' H. exact H. Qed.

(** Whatever the upload returns, it leaves the clause table well formed:
    the hypothesis on ids of the upload theorem holds before every
    upload of a run that starts from the storage as created. *)
Lemma upload_preserves_wellFormed env : preserves (upload env).
Proof.
  unfold upload. apply preserves_tryCatch; [|intros e; apply preserves_ret].
  destruct (negb (hasFile env)); [apply preserves_ret|].
  apply preserves_bind.
  { apply preserves_tryCatch; [|intros e; apply preserves_ret].
    unfold resetClauses. apply preserves_bind; [apply preserves_read|].
    intros l. apply preserves_forEach. intros c. unfold deleteOne.
    destruct (Clause.id c =? 0)%Z; [apply preserves_ret|].
    apply preserves_bind; [apply preserves_deleteClause|].
    intros b. apply preserves_ret. }
  intros _. apply preserves_bind; [apply preserves_liftR|].
  intros extracted. apply preserves_bind; [apply preserves_read|].
  intros rules. apply preserves_bind; [apply preserves_liftR|].
  intros analyzed. apply preserves_bind.
  { unfold storeClauses. apply preserves_forEach. intros c.
    apply preserves_bind; [apply preserves_createClause|].
    intros b. apply preserves_ret. }
  intros _. apply preserves_bind; [apply preserves_createContractSummary|].
  intros sm. apply preserves_ret.
Qed.

(** *** What a successful upload leaves in storage *)

Lemma Z_eqb_spec (a b : Z) : Z.eqb a b = true <-> a = b.
Proof. apply Z.eqb_eq. Qed.

Lemma createClause_appends c w w' r :
  wellFormed w -> createClause c w = (Ok r, w') ->
  clausesList (store w')
  = clausesList (store w) ++ [(clauseCurrentId (store w), r)]
    /\ Clause.clause r = InsertClause.clause c.
Proof.
  intros [H1 H2] H. apply call_inv in H as [[e [H _]] | [a [Ha Hop]]];
    [discriminate|].
  injection Ha as <-. injection Hop as <- <-. cbn. split; [|reflexivity].
  apply (JSMapFacts.set_new _ Z_eqb_spec).
  intros Hin. unfold JSMap.keys in Hin. apply in_map_iff in Hin as [e [He Hin]].
  pose proof (proj1 (Forall_forall _ _) H2 e Hin) as [Hr _]. lia.
Qed.

(** The clauses stored by a loop that goes through are the analysed
    clauses, after what was there, in order. *)
Lemma storeClauses_appends (l : list InsertClause.t) :
  forall w w',
    wellFormed w -> storeClauses l w = (Ok tt, w') ->
    map Clause.clause (residentClauses w')
    = map Clause.clause (residentClauses w) ++ map InsertClause.clause l.
Proof.
  unfold storeClauses.
  induction l as [|c l IH]; intros w w' Hw H; simpl in H.
  - injection H as <-. simpl. now rewrite app_nil_r.
  - unfold bind at 1 2 in H.
    destruct (createClause (withCompletion c) w) as [[a|e] w1] eqn:C;
      [|discriminate].
    unfold ret in H.
    pose proof (@preserves_createClause (withCompletion c) _ _ _ Hw C) as Hw1.
    rewrite (IH w1 w' Hw1 H).
    destruct (@createClause_appends _ _ _ _ Hw C) as [C1 C2].
    unfold residentClauses, JSMap.values. rewrite C1, !map_app. simpl.
    rewrite C2, <- app_assoc. reflexivity.
Qed.

(** After a reset that went through, a successful upload leaves in
    storage the analysed clauses of the response and nothing else. *)
Lemma upload_resident_are_analysed
  (env : Env) (w w' : World) (resp : Response) :
  wellFormed w ->
  fst (resetClauses w) = Ok tt ->
  upload env w = (Ok resp, w') ->
  status resp = 200%Z ->
  map Clause.clause (residentClauses w') = map InsertClause.clause (clauses resp).
Proof.
  intros Hwf Hreset H Hstatus.
  destruct (resetClauses w) as [r0 w1] eqn:R. simpl in Hreset. subst r0.
  pose proof (reset_clears (wellFormed_ids Hwf) R) as Hclear.
  assert (Hwf1 : wellFormed w1).
  { assert (P : preserves resetClauses).
    { unfold resetClauses. apply preserves_bind; [apply preserves_read|].
      intros l. apply preserves_forEach. intros c. unfold deleteOne.
      destruct (Clause.id c =? 0)%Z; [apply preserves_ret|].
      apply preserves_bind; [apply preserves_deleteClause|].
      intros b. apply preserves_ret. }
    exact (P _ _ _ Hwf R). }
  unfold upload in H. cbv [bind liftR tryCatch ret] in H.
  destruct (hasFile env); cbn [negb] in H.
  2:{ injection H as <- _. discriminate. }
  rewrite R in H.
  destruct (extractClauses env) as [extracted|e].
  2:{ injection H as <- _. discriminate. }
  destruct (getAllComplianceRules w1) as [[rules|e] w2] eqn:G.
  2:{ injection H as <- _. discriminate. }
  pose proof (@preserves_read _ _ _ _ _ Hwf1 G) as Hwf2.
  apply getAllComplianceRules_store in G.
  destruct (Document.analyzeDocument (apiKey env) extracted rules
              (fileId env) (clauseEnv env)) as [analyzed|e].
  2:{ injection H as <- _. discriminate. }
  destruct (storeClauses analyzed w2) as [[[]|e] w3] eqn:St.
  2:{ injection H as <- _. discriminate. }
  apply (@storeClauses_appends _ _ _ Hwf2) in St.
  destruct (createContractSummary (assembleSummary env analyzed) w3)
    as [[sm|e] w4] eqn:Cs.
  2:{ injection H as <- _. discriminate. }
  apply createContractSummary_clauses in Cs.
  injection H as <- <-. cbn [clauses].
  unfold residentClauses in *. rewrite Cs, St, G, Hclear. reflexivity.
Qed.

End InvariantFacts.

(* ================================================================= *)
(** * Further properties *)

(* ================================================================= *)
(** ** What the segmenter returns *)

Module SegmenterMore.

Import JS Regex Segmenter.

Local Open Scope nat_scope.
Local Unset Implicit Arguments.

(** A piece of [split] is a contiguous part of the text. *)
Lemma splitFrom_piece (r : re) (s : str) :
  forall cur skip p,
    skip = 0 \/ cur = [] ->
    In p (splitFrom r cur skip s) ->
    exists pre post, rev cur ++ s = pre ++ p ++ post.
Proof.
  induction s as [|c s IH]; intros cur skip p Hinv Hin; simpl in Hin.
  - destruct Hin as [<-|[]]. exists [], []. now rewrite !app_nil_r.
  - destruct skip as [|n].
    + assert (Hgo : In p (splitFrom r (c :: cur) 0 s) ->
                    exists pre post, rev cur ++ c :: s = pre ++ p ++ post).
      { intros H. destruct (IH (c :: cur) 0 p (or_introl eq_refl) H)
          as [pre [post E]].
        exists pre, post. rewrite <- E. simpl. now rewrite <- app_assoc. }
      destruct (matchAt false r (c :: s)) as [m|]; [|now apply Hgo].
      destruct (List.length (m0 m)) as [|n]; [now apply Hgo|].
      destruct Hin as [<-|Hin].
      * exists [], (c :: s). reflexivity.
      * destruct (IH [] n p (or_intror eq_refl) Hin) as [pre [post E]].
        simpl in E. exists (rev cur ++ c :: pre), post.
        rewrite E, <- app_assoc. reflexivity.
    + destruct Hinv as [Hinv| ->]; [discriminate|].
      destruct (IH [] n p (or_intror eq_refl) Hin) as [pre [post E]].
      simpl in E. exists (c :: pre), post. simpl. now rewrite E.
Qed.

Lemma split_piece (r : re) (s p : str) :
  In p (split r s) -> exists pre post, s = pre ++ p ++ post.
Proof.
  intros H. exact (splitFrom_piece r s [] 0 p (or_introl eq_refl) H).
Qed.

(** X1. Every clause the segmenter returns is a contiguous part of the
    document text, taken as it stands, and is longer than 50
    characters. *)
Theorem clauses_are_long_parts_of_the_text (text c : str) :
  In c (splitTextIntoClauses text) ->
  (exists pre post, text = pre ++ c ++ post) /\ 50 < List.length c.
Proof.
  intros H. split; [|now apply (SegmenterFacts.clauses_are_long text)].
  unfold splitTextIntoClauses in H.
  destruct (List.length _ =? 0); apply filter_In in H as [H _];
    now apply split_piece in H.
Qed.

Lemma clauses_are_long_parts_of_the_text_witness :
  In Examples.oneParagraph (splitTextIntoClauses Examples.oneParagraph)
  /\ 50 < List.length Examples.oneParagraph.
Proof.
  assert (H : In Examples.oneParagraph
                 (splitTextIntoClauses Examples.oneParagraph))
    by (vm_compute; left; reflexivity).
  split; [exact H|].
  exact (proj2 (clauses_are_long_parts_of_the_text _ _ H)).
Defined.

(** X2. A text of at most 50 characters, the empty text included, gives
    no clause. *)
Theorem short_text_gives_no_clause (text : str) :
  List.length text <= 50 -> splitTextIntoClauses text = [].
Proof.
  intros Hlen. destruct (splitTextIntoClauses text) as [|c l] eqn:E;
    [reflexivity | exfalso].
  assert (Hin : In c (splitTextIntoClauses text)) by (rewrite E; now left).
  pose proof (SegmenterFacts.clauses_are_long text c Hin) as Hc.
  unfold splitTextIntoClauses in Hin.
  assert (Hp : exists pre post, text = pre ++ c ++ post).
  { destruct (List.length _ =? 0); apply filter_In in Hin as [Hin _];
      now apply split_piece in Hin. }
  destruct Hp as [pre [post ->]]. rewrite !length_app in Hlen. lia.
Qed.

Lemma short_text_gives_no_clause_witness :
  List.length Examples.lateFeeText <= 50
  /\ splitTextIntoClauses Examples.lateFeeText = [].
Proof.
  assert (H : List.length Examples.lateFeeText <= 50)
    by (apply Nat.leb_le; reflexivity).
  split; [exact H|]. exact (short_text_gives_no_clause _ H).
Defined.

Lemma no_blank_line_without_newline (text : str) :
  forallb (fun c => negb (Ascii.eqb c newline)) text = true ->
  forall pre suf, text = pre ++ suf -> matchAt false blankLine suf = None.
Proof.
  intros H pre suf E. subst text. rewrite forallb_app in H.
  apply andb_true_iff in H as [_ H].
  destruct suf as [|x suf]; [reflexivity|].
  simpl in H. apply andb_true_iff in H as [Hx _].
  apply negb_true_iff in Hx. unfold matchAt, blankLine. cbn [Seq run chrEq].
  rewrite Ascii.eqb_sym in Hx. now rewrite Hx.
Qed.

(** X3. A text without a line feed whose trimmed length exceeds 50 is one
    paragraph: it is returned whole, as the only clause. *)
Theorem text_without_newline_is_one_clause (text : str) :
  forallb (fun c => negb (Ascii.eqb c newline)) text = true ->
  50 < List.length (trim text) ->
  splitTextIntoClauses text = [text].
Proof.
  intros Hnl Hlen. apply SegmenterFacts.single_paragraph; [|exact Hlen].
  now apply no_blank_line_without_newline.
Qed.

Lemma text_without_newline_is_one_clause_witness :
  forallb (fun c => negb (Ascii.eqb c newline)) Examples.oneParagraph = true
  /\ 50 < List.length (trim Examples.oneParagraph)
  /\ splitTextIntoClauses Examples.oneParagraph = [Examples.oneParagraph].
Proof.
  assert (H1 : forallb (fun c => negb (Ascii.eqb c newline))
                       Examples.oneParagraph = true) by reflexivity.
  assert (H2 : 50 < List.length (trim Examples.oneParagraph))
    by (apply Nat.ltb_lt; reflexivity).
  split; [exact H1|]. split; [exact H2|].
  exact (text_without_newline_is_one_clause _ H1 H2).
Defined.

End SegmenterMore.

(* ================================================================= *)
(** ** What the payment-term extraction returns *)

Module PaymentMore.

Import JS Regex Payment PaymentFacts Shapes.

Local Open Scope nat_scope.
Local Unset Implicit Arguments.

Lemma NoDup_setAdd (seen : list str) (x : str) :
  NoDup seen -> NoDup (setAdd seen x).
Proof.
  intros H. unfold setAdd. destruct (existsb (JS.eqb x) seen) eqn:E; [exact H|].
  apply NoDup_app; [exact H | repeat constructor; easy|].
  intros y Hy [<-|[]].
  assert (Ht : existsb (JS.eqb x) seen = true).
  { apply existsb_exists. exists x. split; [exact Hy|]. now apply eqb_true_iff. }
  congruence.
Qed.

Lemma NoDup_fold_setAdd (xs seen : list str) :
  NoDup seen -> NoDup (fold_left setAdd xs seen).
Proof.
  revert seen; induction xs as [|x xs IH]; intros seen H; simpl; [exact H|].
  apply IH. now apply NoDup_setAdd.
Qed.

Lemma NoDup_arrayFromSet (xs : list str) : NoDup (arrayFromSet xs).
Proof. apply NoDup_fold_setAdd. constructor. Qed.

Lemma in_fold_setAdd (xs seen : list str) (y : str) :
  In y (fold_left setAdd xs seen) <-> In y seen \/ In y xs.
Proof.
  revert seen; induction xs as [|x xs IH]; intros seen; simpl; [tauto|].
  rewrite IH, in_setAdd. intuition congruence.
Qed.

Lemma extractTerm_shape (c : Clause.t) (t : str) :
  extractTerm c = Some t ->
  matchesPaymentPattern (Clause.clause c) = true
  /\ ((List.length (Clause.clause c) <= 100 /\ t = Clause.clause c)
      \/ (100 < List.length (Clause.clause c) /\ normalised t)).
Proof.
  unfold extractTerm.
  change (isSome (search true net_days (toLowerCase (Clause.clause c)))
          || isSome (search true pay_within (toLowerCase (Clause.clause c)))
          || isSome (search true due (toLowerCase (Clause.clause c)))
          || isSome (search true late_fee (toLowerCase (Clause.clause c))))
    with (matchesPaymentPattern (Clause.clause c)).
  destruct (matchesPaymentPattern (Clause.clause c)); [|discriminate].
  intros H. split; [reflexivity|].
  destruct (List.length (Clause.clause c) <=? 100) eqn:L.
  - left. apply Nat.leb_le in L. injection H as <-. now split.
  - right. apply Nat.leb_gt in L. split; [exact L|].
    destruct (search true net_days _) as [m|];
      [injection H as <-; exists (group1 m); tauto|].
    destruct (search true pay_within _) as [m|];
      [injection H as <-; exists (group1 m); tauto|].
    destruct (search true due _) as [m|];
      [injection H as <-; exists (group1 m); tauto|].
    destruct (search true late_fee _) as [m|]; [|discriminate].
    injection H as <-. exists (group1 m). tauto.
Qed.

Lemma extractTerm_some (c : Clause.t) :
  matchesPaymentPattern (Clause.clause c) = true ->
  exists t, extractTerm c = Some t /\ t <> [].
Proof.
  intros Hm.
  destruct (Nat.le_gt_cases (List.length (Clause.clause c)) 100) as [L|L].
  - exists (Clause.clause c). split; [now apply extractTerm_short|].
    intros E. rewrite E in Hm. discriminate.
  - unfold extractTerm.
    change (isSome (search true net_days (toLowerCase (Clause.clause c)))
            || isSome (search true pay_within (toLowerCase (Clause.clause c)))
            || isSome (search true due (toLowerCase (Clause.clause c)))
            || isSome (search true late_fee (toLowerCase (Clause.clause c))))
      with (matchesPaymentPattern (Clause.clause c)).
    rewrite Hm. apply Nat.leb_gt in L. rewrite L.
    unfold matchesPaymentPattern in Hm. cbv zeta in Hm.
    destruct (search true net_days _) as [m|];
      [eexists; split; [reflexivity | discriminate]|].
    destruct (search true pay_within _) as [m|];
      [eexists; split; [reflexivity | discriminate]|].
    destruct (search true due _) as [m|];
      [eexists; split; [reflexivity | discriminate]|].
    destruct (search true late_fee _) as [m|]; [|discriminate].
    eexists; split; [reflexivity | discriminate].
Qed.

(** The sentence written for a long clause can be the clause itself. *)
Lemma long_clause_can_come_back :
  List.length MoreExamples.longNetText = 125
  /\ basicPaymentTermExtraction [MoreExamples.longNetClause]
     = [MoreExamples.longNetText].
Proof. split; vm_compute; reflexivity. Qed.

(** X4. The terms returned are pairwise distinct and none is empty.  Each
    comes from a stored clause that mentions a payment keyword and
    matches a payment pattern: it is the text of that clause when the
    clause has at most 100 characters, and one of the three normalised
    sentences otherwise. *)
Theorem payment_terms_are_distinct_and_short_or_normalised
  (clauses : list Clause.t) :
  NoDup (basicPaymentTermExtraction clauses)
  /\ forall t, In t (basicPaymentTermExtraction clauses) ->
       t <> []
       /\ exists c, In c clauses /\ paymentRelated c = true
            /\ matchesPaymentPattern (Clause.clause c) = true
            /\ ((List.length (Clause.clause c) <= 100 /\ t = Clause.clause c)
                \/ (100 < List.length (Clause.clause c) /\ normalised t)).
Proof.
  split; [apply NoDup_arrayFromSet|].
  intros t Ht. split.
  - unfold basicPaymentTermExtraction in Ht.
    apply in_arrayFromSet, in_filterBoolean in Ht. tauto.
  - apply extraction_only_from_related in Ht as [c [H1 [H2 H3]]].
    exists c. split; [exact H1|]. split; [exact H2|].
    now apply extractTerm_shape.
Qed.

(** X5. The extraction returns nothing exactly when no stored clause both
    mentions a payment keyword and matches a payment pattern; this is
    when the route falls back on its sample term. *)
Theorem payment_terms_empty_iff (clauses : list Clause.t) :
  basicPaymentTermExtraction clauses = []
  <-> forall c, In c clauses ->
        paymentRelated c = false
        \/ matchesPaymentPattern (Clause.clause c) = false.
Proof.
  split.
  - intros E c Hin.
    destruct (paymentRelated c) eqn:Hr; [|now left]. right.
    destruct (matchesPaymentPattern (Clause.clause c)) eqn:Hm; [|reflexivity].
    exfalso. destruct (extractTerm_some c Hm) as [t [Ht Hne]].
    pose proof (@in_extraction clauses c t Hin Hr Ht Hne) as H.
    rewrite E in H. exact H.
  - intros H. destruct (basicPaymentTermExtraction clauses) as [|t l] eqn:E;
      [reflexivity | exfalso].
    assert (Ht : In t (basicPaymentTermExtraction clauses))
      by (rewrite E; now left).
    apply extraction_only_from_related in Ht as [c [H1 [H2 H3]]].
    apply extractTerm_shape in H3 as [H3 _].
    destruct (H c H1); congruence.
Qed.

End PaymentMore.

(* ================================================================= *)
(** ** Merge of payment terms *)

Module TermsMergeFacts.

Import Payment PaymentFacts PaymentMore TermsMerge.

Local Open Scope nat_scope.
Local Unset Implicit Arguments.

Lemma fold_setAdd_present (xs seen : list str) :
  (forall x, In x xs -> In x seen) -> fold_left setAdd xs seen = seen.
Proof.
  revert seen; induction xs as [|x xs IH]; intros seen H; simpl; [reflexivity|].
  assert (E : setAdd seen x = seen).
  { unfold setAdd.
    replace (existsb (JS.eqb x) seen) with true; [reflexivity|].
    symmetry. apply existsb_exists. exists x. split; [apply H; now left|].
    now apply eqb_true_iff. }
  rewrite E. apply IH. intros y Hy. apply H. now right.
Qed.

Lemma fold_setAdd_prefix (xs seen : list str) :
  exists tail, fold_left setAdd xs seen = seen ++ tail.
Proof.
  revert seen; induction xs as [|x xs IH]; intros seen; simpl.
  - exists []. now rewrite app_nil_r.
  - unfold setAdd at 2. destruct (existsb (JS.eqb x) seen); [apply IH|].
    destruct (IH (seen ++ [x])) as [tail ->].
    exists (x :: tail). now rewrite <- app_assoc.
Qed.

Lemma arrayFromSet_NoDup (xs : list str) : NoDup xs -> arrayFromSet xs = xs.
Proof.
  unfold arrayFromSet.
  assert (H : forall seen, NoDup (seen ++ xs) ->
                           fold_left setAdd xs seen = seen ++ xs).
  { induction xs as [|x xs IH]; intros seen Hnd; simpl.
    - now rewrite app_nil_r.
    - assert (E : setAdd seen x = seen ++ [x]).
      { unfold setAdd.
        replace (existsb (JS.eqb x) seen) with false; [reflexivity|].
        symmetry. apply not_true_is_false. intros Ht.
        apply existsb_exists in Ht as [y [Hy Ht]].
        apply eqb_true_iff in Ht. subst y.
        apply NoDup_remove_2 in Hnd. apply Hnd. apply in_or_app. now left. }
      rewrite E, IH; rewrite <- app_assoc; [reflexivity | exact Hnd]. }
  intros Hnd. now rewrite (H [] Hnd).
Qed.

(** X6. The merged payment terms hold every stored term and every
    extracted term and nothing else, each once; the stored terms come
    first, in their order when they were distinct; and merging the same
    extraction again changes nothing. *)
Theorem payment_terms_merge (existing extracted : list str) :
  (forall t, In t (mergePaymentTerms existing extracted)
             <-> In t existing \/ In t extracted)
  /\ NoDup (mergePaymentTerms existing extracted)
  /\ (exists tail, mergePaymentTerms existing extracted
                   = arrayFromSet existing ++ tail)
  /\ (NoDup existing ->
      exists tail, mergePaymentTerms existing extracted = existing ++ tail)
  /\ mergePaymentTerms (mergePaymentTerms existing extracted) extracted
     = mergePaymentTerms existing extracted.
Proof.
  unfold mergePaymentTerms.
  split; [|split; [|split; [|split]]].
  - intros t. rewrite in_fold_setAdd, in_arrayFromSet. tauto.
  - apply NoDup_fold_setAdd, NoDup_arrayFromSet.
  - apply fold_setAdd_prefix.
  - intros Hnd. rewrite (arrayFromSet_NoDup existing Hnd).
    apply fold_setAdd_prefix.
  - rewrite arrayFromSet_NoDup
      by apply NoDup_fold_setAdd, NoDup_arrayFromSet.
    apply fold_setAdd_present. intros x Hx.
    apply in_fold_setAdd. now right.
Qed.

End TermsMergeFacts.

(* ================================================================= *)
(** ** Arrays keyed by a name *)

Module KeyedFacts.

Import JSMap JSMapFacts Keyed.
Import Payment PaymentFacts PaymentMore TermsMergeFacts.

Local Open Scope nat_scope.
Local Unset Implicit Arguments.

Lemma str_eqb_iff (a b : str) : JS.eqb a b = true <-> a = b.
Proof. apply eqb_true_iff. Qed.

Lemma str_eqb_refl (a : str) : JS.eqb a a = true.
Proof. now apply eqb_true_iff. Qed.

Lemma str_eqb_sym (a b : str) : JS.eqb a b = JS.eqb b a.
Proof.
  destruct (JS.eqb a b) eqn:E1, (JS.eqb b a) eqn:E2; try reflexivity.
  - apply eqb_true_iff in E1. subst. rewrite str_eqb_refl in E2. discriminate.
  - apply eqb_true_iff in E2. subst. rewrite str_eqb_refl in E1. discriminate.
Qed.

Section Maps.

Variable V : Type.

Lemma has_keys (m : t str V) (k : str) :
  has JS.eqb m k = existsb (JS.eqb k) (keys m).
Proof.
  unfold has, keys. induction m as [|[k' v] m IH]; simpl; [reflexivity|].
  now rewrite IH, str_eqb_sym.
Qed.

(** The keys of a [Map] behave as a [Set] of keys. *)
Lemma keys_set_setAdd (m : t str V) (k : str) (v : V) :
  keys (set JS.eqb m k v) = setAdd (keys m) k.
Proof.
  rewrite (@keys_set _ _ JS.eqb). unfold setAdd. now rewrite has_keys.
Qed.

Lemma get_set (m : t str V) (k k' : str) (v : V) :
  get JS.eqb (set JS.eqb m k v) k'
  = if JS.eqb k k' then Some v else get JS.eqb m k'.
Proof.
  induction m as [|[k0 v0] m IH]; simpl.
  - reflexivity.
  - destruct (JS.eqb k0 k) eqn:E; simpl.
    + apply eqb_true_iff in E. subst k0.
      now destruct (JS.eqb k k').
    + destruct (JS.eqb k0 k') eqn:E'; [|exact IH].
      apply eqb_true_iff in E'. subst k0. now rewrite str_eqb_sym, E.
Qed.

Lemma get_none (m : t str V) (k : str) :
  get JS.eqb m k = None <-> ~ In k (keys m).
Proof.
  induction m as [|[k0 v0] m IH]; simpl; [tauto|].
  destruct (JS.eqb k0 k) eqn:E.
  - apply eqb_true_iff in E. split; [discriminate | tauto].
  - rewrite IH. split; [|tauto]. intros H [H'|H']; [|tauto].
    subst. rewrite str_eqb_refl in E. discriminate.
Qed.

Lemma in_get (m : t str V) (k : str) (v : V) :
  NoDup (keys m) -> (In (k, v) m <-> get JS.eqb m k = Some v).
Proof.
  induction m as [|[k0 v0] m IH]; simpl; intros Hnd.
  - split; [tauto | discriminate].
  - apply NoDup_cons_iff in Hnd as [Hk Hnd]. specialize (IH Hnd).
    destruct (JS.eqb k0 k) eqn:E.
    + apply eqb_true_iff in E. subst k0. split.
      * intros [H|H]; [congruence|]. exfalso. apply Hk.
        unfold keys. apply in_map_iff. now exists (k, v).
      * intros H. left. congruence.
    + rewrite <- IH. split; [|tauto]. intros [H|H]; [|exact H].
      injection H as -> ->. rewrite str_eqb_refl in E. discriminate.
Qed.

End Maps.

Section Arrays.

Variable A : Type.
Variable key : A -> str.


Lemma firstWith_some (k : str) (xs : list A) (x : A) :
  firstWith key k xs = Some x -> In x xs /\ key x = k.
Proof.
  unfold Keyed.firstWith. intros H. apply find_some in H as [H1 H2].
  split; [exact H1 | now apply eqb_true_iff].
Qed.

Lemma firstWith_none (k : str) (xs : list A) :
  firstWith key k xs = None <-> ~ In k (map key xs).
Proof.
  unfold Keyed.firstWith. induction xs as [|x xs IH]; simpl; [tauto|].
  destruct (JS.eqb (key x) k) eqn:E.
  - apply eqb_true_iff in E. split; [discriminate | tauto].
  - rewrite IH. split; [|tauto]. intros H [H'|H']; [|tauto].
    rewrite H', str_eqb_refl in E. discriminate.
Qed.

Lemma lastWith_snoc (k : str) (xs : list A) (x : A) :
  lastWith key k (xs ++ [x])
  = if JS.eqb (key x) k then Some x else lastWith key k xs.
Proof. unfold Keyed.lastWith. rewrite rev_app_distr. reflexivity. Qed.

Lemma entries_snoc (xs : list A) (x : A) :
  entries key (xs ++ [x]) = entries key xs ++ [(key x, x)].
Proof. unfold Keyed.entries. now rewrite map_app. Qed.

Lemma ofEntries_snoc (es : list (str * A)) (e : str * A) :
  ofEntries JS.eqb (es ++ [e]) = set JS.eqb (ofEntries JS.eqb es) (fst e) (snd e).
Proof. unfold ofEntries. now rewrite fold_left_app. Qed.

(** The map of an array holds, under each key, the last element with
    that key. *)
Lemma get_ofEntries (xs : list A) (k : str) :
  get JS.eqb (ofEntries JS.eqb (entries key xs)) k = lastWith key k xs.
Proof.
  induction xs as [|x xs IH] using rev_ind; [reflexivity|].
  rewrite entries_snoc, ofEntries_snoc, get_set, lastWith_snoc, IH.
  reflexivity.
Qed.

(** Its keys are the keys of the array in the order of their first
    occurrence. *)
Lemma keys_ofEntries (xs : list A) :
  keys (ofEntries JS.eqb (entries key xs)) = arrayFromSet (map key xs).
Proof.
  unfold arrayFromSet.
  induction xs as [|x xs IH] using rev_ind; [reflexivity|].
  rewrite entries_snoc, ofEntries_snoc, keys_set_setAdd, IH, map_app,
    fold_left_app.
  reflexivity.
Qed.

Lemma keys_addNew (m : t str A) (xs : list A) :
  keys (addNew key m xs) = fold_left setAdd (map key xs) (keys m).
Proof.
  unfold Keyed.addNew. revert m; induction xs as [|x xs IH]; intros m; simpl;
    [reflexivity|].
  rewrite IH. f_equal.
  destruct (has JS.eqb m (key x)) eqn:E.
  - unfold setAdd. now rewrite <- has_keys, E.
  - apply keys_set_setAdd.
Qed.

Lemma get_addNew (m : t str A) (xs : list A) (k : str) :
  get JS.eqb (addNew key m xs) k
  = match get JS.eqb m k with
    | Some v => Some v
    | None => firstWith key k xs
    end.
Proof.
  unfold Keyed.addNew, Keyed.firstWith.
  revert m; induction xs as [|x xs IH]; intros m; simpl.
  - now destruct (get JS.eqb m k).
  - rewrite IH. destruct (has JS.eqb m (key x)) eqn:E.
    + destruct (get JS.eqb m k) eqn:G; [reflexivity|].
      destruct (JS.eqb (key x) k) eqn:E'; [|reflexivity].
      apply eqb_true_iff in E'. subst k.
      apply (@has_iff _ _ JS.eqb str_eqb_iff) in E. apply get_none in G. tauto.
    + rewrite get_set. destruct (JS.eqb (key x) k) eqn:E'.
      * apply eqb_true_iff in E'. subst k.
        apply (@has_false_iff _ _ JS.eqb str_eqb_iff) in E.
        apply get_none in E. now rewrite E.
      * reflexivity.
Qed.

Lemma NoDup_keys_addNew (m : t str A) (xs : list A) :
  NoDup (keys m) -> NoDup (keys (addNew key m xs)).
Proof. intros H. rewrite keys_addNew. now apply NoDup_fold_setAdd. Qed.

(** A map whose keys are distinct and name their values is the map of
    its values. *)
Lemma ofEntries_values (m : t str A) :
  NoDup (keys m) -> (forall e, In e m -> fst e = key (snd e)) ->
  ofEntries JS.eqb (entries key (values m)) = m.
Proof.
  intros Hnd Hk.
  assert (E : entries key (values m) = m).
  { unfold Keyed.entries, values. rewrite map_map.
    rewrite <- (map_id m) at 2. apply map_ext_in.
    intros [k v] He. simpl. f_equal. symmetry. exact (Hk _ He). }
  rewrite E. now apply (@ofEntries_NoDup _ _ JS.eqb str_eqb_iff).
Qed.

Lemma addNew_present (m : t str A) (xs : list A) :
  (forall x, In x xs -> In (key x) (keys m)) -> addNew key m xs = m.
Proof.
  unfold Keyed.addNew. induction xs as [|x xs IH]; intros H; simpl;
    [reflexivity|].
  replace (has JS.eqb m (key x)) with true.
  - apply IH. intros y Hy. apply H. now right.
  - symmetry. apply (@has_iff _ _ JS.eqb str_eqb_iff). apply H. now left.
Qed.

Lemma ofEntries_keyed (xs : list A) (e : str * A) :
  In e (ofEntries JS.eqb (entries key xs)) ->
  fst e = key (snd e) /\ lastWith key (fst e) xs = Some (snd e).
Proof.
  destruct e as [k v]. intros H.
  apply in_get in H;
    [|apply (@NoDup_keys_ofEntries _ _ JS.eqb str_eqb_iff)].
  rewrite get_ofEntries in H. split; [|exact H].
  unfold Keyed.lastWith in H. apply firstWith_some in H as [_ H].
  simpl. congruence.
Qed.

Lemma addNew_keyed (m : t str A) (xs : list A) :
  NoDup (keys m) -> (forall e, In e m -> fst e = key (snd e)) ->
  forall e, In e (addNew key m xs) -> fst e = key (snd e).
Proof.
  intros Hnd Hk [k v] H.
  apply in_get in H; [|now apply NoDup_keys_addNew].
  rewrite get_addNew in H. destruct (get JS.eqb m k) eqn:G.
  - injection H as ->. apply in_get in G; [|exact Hnd]. exact (Hk _ G).
  - apply firstWith_some in H as [_ H]. simpl. congruence.
Qed.

(** What [dedupe key] returns. *)
Lemma dedupe_keys (xs : list A) :
  map key (dedupe key xs) = arrayFromSet (map key xs).
Proof.
  rewrite <- keys_ofEntries. unfold Keyed.dedupe, values, keys.
  rewrite map_map. apply map_ext_in. intros e He.
  apply ofEntries_keyed in He as [He _]. now symmetry.
Qed.

Lemma in_dedupe (xs : list A) (x : A) :
  In x (dedupe key xs) <-> lastWith key (key x) xs = Some x.
Proof.
  unfold Keyed.dedupe, values. rewrite in_map_iff. split.
  - intros [[k v] [<- He]]. apply ofEntries_keyed in He as [H1 H2].
    simpl in *. now rewrite <- H1.
  - intros H. exists (key x, x). split; [reflexivity|].
    apply in_get; [apply (@NoDup_keys_ofEntries _ _ JS.eqb str_eqb_iff)|].
    now rewrite get_ofEntries.
Qed.

(** What [merge key] returns. *)
Lemma merge_keys (existing extracted : list A) :
  map key (merge key existing extracted)
  = arrayFromSet (map key existing ++ map key extracted).
Proof.
  unfold arrayFromSet. rewrite fold_left_app.
  fold (arrayFromSet (map key existing)).
  rewrite <- keys_ofEntries, <- keys_addNew.
  unfold Keyed.merge, values, keys. rewrite map_map.
  apply map_ext_in. intros e He. symmetry.
  revert e He. apply addNew_keyed.
  - apply (@NoDup_keys_ofEntries _ _ JS.eqb str_eqb_iff).
  - intros e He. now apply ofEntries_keyed in He.
Qed.

Lemma in_merge (existing extracted : list A) (x : A) :
  In x (merge key existing extracted)
  <-> lastWith key (key x) existing = Some x
      \/ (~ In (key x) (map key existing)
          /\ firstWith key (key x) extracted = Some x).
Proof.
  assert (Hnd : NoDup (keys (addNew key (ofEntries JS.eqb (entries key existing))
                                    extracted)))
    by apply NoDup_keys_addNew, (@NoDup_keys_ofEntries _ _ JS.eqb str_eqb_iff).
  assert (Hk : forall e,
             In e (addNew key (ofEntries JS.eqb (entries key existing)) extracted) ->
             fst e = key (snd e)).
  { apply addNew_keyed.
    - apply (@NoDup_keys_ofEntries _ _ JS.eqb str_eqb_iff).
    - intros e He. now apply ofEntries_keyed in He. }
  assert (G : In x (merge key existing extracted)
              <-> get JS.eqb (addNew key (ofEntries JS.eqb (entries key existing))
                                     extracted) (key x) = Some x).
  { unfold Keyed.merge, values. rewrite in_map_iff. split.
    - intros [[k v] [<- He]]. pose proof (Hk _ He) as E. simpl in *.
      subst k. now apply in_get.
    - intros H. exists (key x, x). split; [reflexivity | now apply in_get]. }
  rewrite G, get_addNew, get_ofEntries.
  destruct (lastWith key (key x) existing) as [y|] eqn:L.
  - split; [intros H; now left|]. intros [H|[H _]]; [exact H|].
    exfalso. apply H. unfold Keyed.lastWith in L.
    apply firstWith_some in L as [L1 L2]. rewrite <- L2.
    apply in_map. now apply in_rev.
  - split.
    + intros H. right. split; [|exact H].
      unfold Keyed.lastWith in L. apply firstWith_none in L.
      now rewrite map_rev, <- in_rev in L.
    + intros [H|[_ H]]; [discriminate | exact H].
Qed.

Lemma merge_idempotent (existing extracted : list A) :
  merge key (merge key existing extracted) extracted = merge key existing extracted.
Proof.
  unfold Keyed.merge at 1 2.
  set (m := addNew key (ofEntries JS.eqb (entries key existing)) extracted).
  assert (Hnd : NoDup (keys m))
    by apply NoDup_keys_addNew, (@NoDup_keys_ofEntries _ _ JS.eqb str_eqb_iff).
  assert (Hk : forall e, In e m -> fst e = key (snd e)).
  { apply addNew_keyed.
    - apply (@NoDup_keys_ofEntries _ _ JS.eqb str_eqb_iff).
    - intros e He. now apply ofEntries_keyed in He. }
  rewrite (ofEntries_values m Hnd Hk).
  rewrite addNew_present; [reflexivity|].
  intros x Hx. unfold m. rewrite keys_addNew.
  apply in_fold_setAdd. right. now apply in_map.
Qed.

End Arrays.

End KeyedFacts.

(* ================================================================= *)
(** ** Capitalised names *)

Module TextFacts.

Import JS Text.

Local Open Scope nat_scope.
Local Unset Implicit Arguments.

Lemma upper_not_lower (c : ascii) : isLowerAZ (upperWordChar c) = false.
Proof. each_char c; reflexivity. Qed.

Lemma upper_word (c : ascii) : isWordChar (upperWordChar c) = isWordChar c.
Proof. each_char c; reflexivity. Qed.

Lemma upper_upper (c : ascii) : upperWordChar (upperWordChar c) = upperWordChar c.
Proof. each_char c; reflexivity. Qed.

Lemma lower_upper (c : ascii) : toLowerChar (upperWordChar c) = toLowerChar c.
Proof. each_char c; reflexivity. Qed.

Lemma lower_is_word (c : ascii) : isLowerAZ c = true -> isWordChar c = true.
Proof. each_char c; intros H; try reflexivity; discriminate H. Qed.

Lemma length_titleCaseFrom (b : bool) (s : str) :
  List.length (titleCaseFrom b s) = List.length s.
Proof.
  revert b; induction s as [|c s IH]; intros b; simpl; [reflexivity|].
  now rewrite IH.
Qed.

Lemma lower_titleCaseFrom (b : bool) (s : str) :
  toLowerCase (titleCaseFrom b s) = toLowerCase s.
Proof.
  revert b; induction s as [|c s IH]; intros b; simpl; [reflexivity|].
  rewrite IH. f_equal.
  destruct (isWordChar c && negb b); [apply lower_upper | reflexivity].
Qed.

Lemma titleCaseFrom_idem (b : bool) (s : str) :
  titleCaseFrom b (titleCaseFrom b s) = titleCaseFrom b s.
Proof.
  revert b; induction s as [|c s IH]; intros b; simpl; [reflexivity|].
  destruct (isWordChar c && negb b) eqn:E.
  - rewrite upper_word, E, upper_upper, IH. reflexivity.
  - rewrite E, IH. reflexivity.
Qed.

Lemma titleCaseFrom_lower (b : bool) (s pre post : str) (c : ascii) :
  titleCaseFrom b s = pre ++ c :: post -> isLowerAZ c = true ->
  (pre = [] /\ b = true)
  \/ exists pre' d, pre = pre' ++ [d] /\ isWordChar d = true.
Proof.
  revert b pre; induction s as [|c0 s IH]; intros b pre; simpl.
  - destruct pre; discriminate.
  - intros E Hc. destruct pre as [|h pre]; simpl in E.
    + injection E as E _. left. split; [reflexivity|].
      destruct (isWordChar c0 && negb b) eqn:W.
      * rewrite <- E, upper_not_lower in Hc. discriminate.
      * subst c0. rewrite (lower_is_word c Hc) in W. now destruct b.
    + injection E as Eh E. right.
      destruct (IH _ _ E Hc) as [[-> W] | [pre' [d [-> W]]]].
      * exists [], h. split; [reflexivity|]. subst h.
        destruct (isWordChar c0 && negb b); [now rewrite upper_word | exact W].
      * exists (h :: pre'), d. now split.
Qed.

(** X7. Capitalising a name changes letter case only: the length and the
    lower-case form stay the same.  In the result no lower-case letter
    a-z starts a word (each stands after a letter, a digit or an
    underscore), and capitalising again changes nothing. *)
Theorem title_case_changes_word_starts_only (s : str) :
  List.length (titleCase s) = List.length s
  /\ toLowerCase (titleCase s) = toLowerCase s
  /\ (forall pre c post,
        titleCase s = pre ++ c :: post -> isLowerAZ c = true ->
        exists pre' d, pre = pre' ++ [d] /\ isWordChar d = true)
  /\ titleCase (titleCase s) = titleCase s.
Proof.
  unfold titleCase. split; [apply length_titleCaseFrom|].
  split; [apply lower_titleCaseFrom|].
  split; [|apply titleCaseFrom_idem].
  intros pre c post E Hc.
  destruct (titleCaseFrom_lower _ _ _ _ _ E Hc) as [[_ H] | H];
    [discriminate | exact H].
Qed.

End TextFacts.

(* ================================================================= *)
(** ** What the fee extraction returns *)

Module FeeExtractionFacts.

Import JS JSFacts Regex RegexFacts Text TextFacts FeeExtraction KeyedFacts.

Local Open Scope nat_scope.
Local Unset Implicit Arguments.

Lemma sem_Alt i a b w c c' :
  Sem i (Alt a b) w c c' <-> Sem i a w c c' \/ Sem i b w c c'.
Proof.
  split.
  - inversion 1; subst; [now left | now right].
  - intros [S|S]; [now apply SemAltL | now apply SemAltR].
Qed.

Lemma sem_Star i p w c c' :
  Sem i (Star p) w c c' <-> forallb p w = true /\ c' = c.
Proof.
  split.
  - inversion 1; subst. now split.
  - intros [H ->]. now constructor.
Qed.

Lemma sem_oneOf i words w c c' :
  Sem i (oneOf words) w c c' ->
  exists x, In x words /\ Forall2 (fun a b => chrEq i a b = true) x w /\ c' = c.
Proof.
  induction words as [|x [|y rest] IH]; simpl.
  - inversion 1; subst. discriminate.
  - intros S. apply sem_Str in S as [F ->]. exists x. split; [now left | now split].
  - intros S. apply sem_Alt in S as [S|S].
    + apply sem_Str in S as [F ->]. exists x. split; [now left | now split].
    + apply IH in S as [z [Hz [F ->]]]. exists z. split; [now right | now split].
Qed.

Lemma app_same_length {X : Type} (a a' b b' : list X) :
  List.length a = List.length a' -> a ++ b = a' ++ b' -> a = a' /\ b = b'.
Proof.
  revert a'; induction a as [|x a IH]; intros [|x' a'] L E; simpl in *;
    try discriminate.
  - now split.
  - injection E as -> E. injection L as L.
    destruct (IH _ L E) as [-> ->]. now split.
Qed.

(** A piece of a lower-case text is in lower case. *)
Lemma piece_of_lower (t pre w post : str) :
  toLowerCase t = pre ++ w ++ post -> toLowerCase w = w.
Proof.
  intros E. pose proof (toLowerCase_idem t) as H. rewrite E in H.
  rewrite !toLowerCase_app in H.
  apply app_same_length in H as [_ H]; [|apply length_toLowerCase].
  apply app_same_length in H as [H _]; [exact H | apply length_toLowerCase].
Qed.

Lemma lower_app_inv (a b : str) :
  toLowerCase (a ++ b) = a ++ b -> toLowerCase a = a /\ toLowerCase b = b.
Proof.
  rewrite toLowerCase_app. intros H.
  apply app_same_length in H; [exact H | apply length_toLowerCase].
Qed.

(** A lower-case word matched, letter case ignored, by a lower-case
    pattern is the pattern. *)
Lemma lower_word_exact (x w : str) :
  toLowerCase x = x -> toLowerCase w = w ->
  Forall2 (fun a b => chrEq true a b = true) x w -> w = x.
Proof.
  intros Hx Hw F. revert Hx Hw. induction F as [|a b x w E F IH]; simpl;
    [reflexivity|].
  intros Hx Hw. injection Hx as Ha Hx. injection Hw as Hb Hw.
  rewrite (IH Hx Hw). f_equal.
  unfold chrEq in E. apply Ascii.eqb_eq in E. congruence.
Qed.

Lemma dollar_exact (y : ascii) : chrEq true "$"%char y = true -> y = "$"%char.
Proof. each_char y; intros H; try reflexivity; discriminate H. Qed.

Lemma trimStart_nil (s : str) :
  trimStart s = [] -> forallb isWhiteSpace s = true.
Proof.
  induction s as [|c s IH]; simpl; [reflexivity|].
  destruct (isWhiteSpace c); [exact IH | discriminate].
Qed.

Lemma trimStart_head (s : str) (c : ascii) (rest : str) :
  trimStart s = c :: rest -> isWhiteSpace c = false.
Proof.
  induction s as [|x s IH]; simpl; [discriminate|].
  destruct (isWhiteSpace x) eqn:E; [exact IH|].
  intros H. injection H as <- _. exact E.
Qed.

Lemma trim_nil (s : str) : trim s = [] -> forallb isWhiteSpace s = true.
Proof.
  unfold trim, trimEnd. intros H.
  apply (f_equal (@rev ascii)) in H. rewrite rev_involutive in H. simpl in H.
  apply trimStart_nil in H. rewrite forallb_forall in H.
  destruct (trimStart s) as [|c rest] eqn:E; [now apply trimStart_nil|].
  pose proof (trimStart_head _ _ _ E) as Hc.
  rewrite (H c) in Hc; [discriminate|]. apply in_rev. rewrite rev_involutive.
  now left.
Qed.

Lemma letter_not_space (x y : ascii) :
  isLowerAZ x = true -> chrEq true x y = true -> isWhiteSpace y = false.
Proof.
  intros Hx E. unfold chrEq in E. apply Ascii.eqb_eq in E.
  assert (Lx : toLowerChar x = x)
    by (revert Hx; each_char x; intros Hx; try reflexivity; discriminate Hx).
  destruct (isWhiteSpace y) eqn:W; [exfalso | reflexivity].
  assert (Ly : toLowerChar y = y /\ isLowerAZ y = false)
    by (revert W; each_char y; intros W; try (split; reflexivity);
        discriminate W).
  destruct Ly as [Ly Ny]. congruence.
Qed.

Lemma oneOf_not_space i words w c c' :
  Sem i (oneOf words) w c c' ->
  (forall x, In x words -> exists a rest, x = a :: rest /\ isLowerAZ a = true) ->
  i = true ->
  exists y rest, w = y :: rest /\ isWhiteSpace y = false.
Proof.
  intros S H ->. apply sem_oneOf in S as [x [Hx [F _]]].
  destruct (H x Hx) as [a [rest [-> La]]].
  inversion F as [|? y ? w' E F']; subst.
  exists y, w'. split; [reflexivity|]. exact (letter_not_space a y La E).
Qed.

Lemma excerpt_length (s : str) :
  List.length (excerpt s) <= 103 /\ (List.length s <= 100 -> excerpt s = s).
Proof.
  unfold excerpt, substring0. split.
  - rewrite length_app, length_firstn.
    pose proof (Nat.le_min_l 100 (List.length s)) as M.
    destruct (100 <? List.length s).
    + change (List.length ($"...")) with 3. lia.
    + change (List.length (@nil ascii)) with 0. lia.
  - intros H. rewrite firstn_all2 by exact H.
    replace (100 <? List.length s) with false; [apply app_nil_r|].
    symmetry. apply Nat.ltb_ge. exact H.
Qed.

Lemma orElse_nonempty (o : option str) (dflt : str) :
  dflt <> [] ->
  Analyzer.orElse o dflt <> []
  /\ (forall c x, o = Some (c :: x) -> Analyzer.orElse o dflt = c :: x).
Proof.
  intros H. destruct o as [[|c x]|]; simpl; (split; [|intros ? ? E]);
    try exact H; try discriminate.
  now injection E as <- <-.
Qed.

(** The name captured by [fee_name] holds a character that is not white
    space. *)
Lemma fee_name_capture (t : str) (m : MatchResult) :
  search true fee_name t = Some m -> trim (Payment.group1 m) <> [].
Proof.
  intros H. apply search_sound in H as [pre [w [post [c' [_ [S [-> _]]]]]]].
  unfold fee_name in S. cbn [Seq] in S.
  apply sem_Cat in S as [w1 [w2 [c1 [-> [_ S]]]]].
  apply sem_Cat in S as [w3 [w4 [c2 [-> [_ S]]]]].
  apply sem_Cat in S as [g [w5 [c3 [-> [S S']]]]].
  apply sem_Eps in S' as [-> ->].
  apply sem_Group in S as [[c4 S] ->].
  apply sem_Cat in S as [g1 [g2 [c5 [-> [_ S]]]]].
  apply sem_Cat in S as [g3 [g4 [c6 [-> [S _]]]]].
  apply oneOf_not_space in S as [y [rest [-> Hy]]]; [|  | reflexivity].
  - unfold Payment.group1. cbn [m1]. intros E. apply trim_nil in E.
    rewrite forallb_forall in E. rewrite (E y) in Hy; [discriminate|].
    apply in_or_app. right. now left.
  - intros x [<-|[<-|[<-|[]]]]; eexists; eexists; (split; [reflexivity|]);
      reflexivity.
Qed.

Lemma amount_shape (t : str) (m : MatchResult) :
  search true amount_re (toLowerCase t) = Some m ->
  (exists pre post, toLowerCase t = pre ++ m0 m ++ post)
  /\ ((exists rest, m0 m = "$"%char :: rest)
      \/ exists number, m0 m = number ++ $"dollars" /\ number <> []).
Proof.
  intros H. apply search_sound in H as [pre [w [post [c' [E [S [-> _]]]]]]].
  cbn [m0]. split; [now exists pre, post|].
  pose proof (piece_of_lower _ _ _ _ E) as Lw.
  unfold amount_re in S. cbn [Seq] in S. apply sem_Alt in S as [S|S].
  - left. apply sem_Cat in S as [w1 [w2 [c1 [-> [S _]]]]].
    apply sem_Chr in S as [y [-> [Hy _]]]. apply dollar_exact in Hy.
    subst y. now exists w2.
  - right. apply sem_Cat in S as [w1 [w2 [c1 [-> [S1 S]]]]].
    apply sem_Cat in S as [w3 [w4 [c2 [-> [_ S]]]]].
    apply sem_Cat in S as [w5 [w6 [c3 [-> [S S']]]]].
    apply sem_Eps in S' as [-> ->]. apply sem_Str in S as [F _].
    apply sem_Plus in S1 as [[N1 _] _].
    rewrite app_nil_r in *.
    apply lower_app_inv in Lw as [_ Lw]. apply lower_app_inv in Lw as [_ Lw].
    rewrite (lower_word_exact _ _ eq_refl Lw F).
    exists (w1 ++ w3). split; [now rewrite <- app_assoc|].
    intros E'. apply app_eq_nil in E' as [E' _]. contradiction.
Qed.

Lemma percentage_shape (t : str) (m : MatchResult) :
  search true percentage_re (toLowerCase t) = Some m ->
  (exists pre post, toLowerCase t = pre ++ m0 m ++ post)
  /\ exists number unit_,
       m0 m = number ++ unit_ /\ number <> []
       /\ In unit_ [$"percent"; $"%"].
Proof.
  intros H. apply search_sound in H as [pre [w [post [c' [E [S [-> _]]]]]]].
  cbn [m0]. split; [now exists pre, post|].
  pose proof (piece_of_lower _ _ _ _ E) as Lw.
  unfold percentage_re in S. cbn [Seq] in S.
  apply sem_Cat in S as [w1 [w2 [c1 [-> [S1 S]]]]].
  apply sem_Cat in S as [w3 [w4 [c2 [-> [_ S]]]]].
  apply sem_Cat in S as [w5 [w6 [c3 [-> [S S']]]]].
  apply sem_Eps in S' as [-> ->]. apply sem_Plus in S1 as [[N1 _] _].
  apply sem_oneOf in S as [x [Hx [F _]]].
  rewrite app_nil_r in *.
  apply lower_app_inv in Lw as [_ Lw]. apply lower_app_inv in Lw as [_ Lw].
  assert (Ex : w5 = x).
  { apply lower_word_exact; [|exact Lw | exact F].
    destruct Hx as [<-|[<-|[]]]; reflexivity. }
  subst w5. exists (w1 ++ w3), x. split; [now rewrite <- app_assoc|].
  split; [|exact Hx].
  intros E'. apply app_eq_nil in E' as [E' _]. contradiction.
Qed.

(** The whole match of [amount_re], piece by piece. *)
Lemma amount_exact (t : str) (m : MatchResult) :
  search true amount_re (toLowerCase t) = Some m ->
  (exists ws number,
      m0 m = "$"%char :: ws ++ number
      /\ forallb isWhiteSpace ws = true /\ Spec.runOf isAmountChar number)
  \/ (exists number ws,
        m0 m = number ++ ws ++ $"dollars"
        /\ Spec.runOf isAmountChar number /\ forallb isWhiteSpace ws = true).
Proof.
  intros H. apply search_sound in H as [pre [w [post [c' [E [S [-> _]]]]]]].
  cbn [m0].
  pose proof (piece_of_lower _ _ _ _ E) as Lw.
  unfold amount_re in S. cbn [Seq] in S. apply sem_Alt in S as [S|S].
  - left. apply sem_Cat in S as [w1 [w2 [c1 [-> [S S2]]]]].
    apply sem_Chr in S as [y [-> [Hy _]]]. apply dollar_exact in Hy. subst y.
    apply sem_Cat in S2 as [w3 [w4 [c2 [-> [S3 S4]]]]].
    apply sem_Cat in S4 as [w5 [w6 [c3 [-> [S5 S6]]]]].
    apply sem_Eps in S6 as [-> _]. apply sem_Star in S3 as [W _].
    apply sem_Plus in S5 as [N _].
    exists w3, w5. rewrite app_nil_r.
    split; [reflexivity|]. split; assumption.
  - right. apply sem_Cat in S as [w1 [w2 [c1 [-> [S1 S]]]]].
    apply sem_Cat in S as [w3 [w4 [c2 [-> [S3 S]]]]].
    apply sem_Cat in S as [w5 [w6 [c3 [-> [S S']]]]].
    apply sem_Eps in S' as [-> ->]. apply sem_Str in S as [F _].
    apply sem_Plus in S1 as [N _]. apply sem_Star in S3 as [W _].
    rewrite app_nil_r in *.
    apply lower_app_inv in Lw as [_ Lw]. apply lower_app_inv in Lw as [_ Lw].
    rewrite (lower_word_exact _ _ eq_refl Lw F).
    exists w1, w3. split; [reflexivity|]. split; assumption.
Qed.

(** The whole match of [percentage_re], piece by piece. *)
Lemma percentage_exact (t : str) (m : MatchResult) :
  search true percentage_re (toLowerCase t) = Some m ->
  exists number ws unit_,
    m0 m = number ++ ws ++ unit_
    /\ Spec.runOf Payment.isDigitOrDot number
    /\ forallb isWhiteSpace ws = true
    /\ In unit_ [$"percent"; $"%"].
Proof.
  intros H. apply search_sound in H as [pre [w [post [c' [E [S [-> _]]]]]]].
  cbn [m0].
  pose proof (piece_of_lower _ _ _ _ E) as Lw.
  unfold percentage_re in S. cbn [Seq] in S.
  apply sem_Cat in S as [w1 [w2 [c1 [-> [S1 S]]]]].
  apply sem_Cat in S as [w3 [w4 [c2 [-> [S3 S]]]]].
  apply sem_Cat in S as [w5 [w6 [c3 [-> [S S']]]]].
  apply sem_Eps in S' as [-> ->]. apply sem_Plus in S1 as [N _].
  apply sem_Star in S3 as [W _].
  apply sem_oneOf in S as [x [Hx [F _]]].
  rewrite app_nil_r in *.
  apply lower_app_inv in Lw as [_ Lw]. apply lower_app_inv in Lw as [_ Lw].
  assert (Ex : w5 = x).
  { apply lower_word_exact; [|exact Lw | exact F].
    destruct Hx as [<-|[<-|[]]]; reflexivity. }
  subst w5. exists w1, w3, x.
  split; [reflexivity|]. split; [assumption|]. split; assumption.
Qed.

(** The run of digits, commas and dots need not be a number. *)
Lemma amount_need_not_be_a_number :
  amount (feeOf MoreExamples.dollarsText None) = $". dollars".
Proof. vm_compute. reflexivity. Qed.

Lemma frequency_shape (t : str) (m : MatchResult) (w : str) :
  search true frequency_re (toLowerCase t) = Some m -> m1 m = Some w ->
  In w [$"month"; $"year"; $"quarter"; $"week"; $"day"; $"hour"; $"annum"].
Proof.
  intros H Hw. apply search_sound in H as [pre [w0 [post [c' [E [S [-> _]]]]]]].
  cbn [m1] in Hw. subst c'.
  pose proof (piece_of_lower _ _ _ _ E) as Lw.
  unfold frequency_re in S. cbn [Seq] in S.
  apply sem_Cat in S as [w1 [w2 [c1 [-> [_ S]]]]].
  apply sem_Cat in S as [w3 [w4 [c2 [-> [_ S]]]]].
  apply sem_Cat in S as [g [w5 [c3 [-> [S S']]]]].
  apply sem_Eps in S' as [-> E'].
  apply sem_Group in S as [[c4 S] ->]. injection E' as <-.
  apply sem_oneOf in S as [x [Hx [F _]]].
  rewrite app_nil_r in *.
  apply lower_app_inv in Lw as [_ Lw]. apply lower_app_inv in Lw as [_ Lw].
  assert (Ex : w = x).
  { apply lower_word_exact; [|exact Lw | exact F].
    repeat (destruct Hx as [<-|Hx]; [reflexivity|]). destruct Hx. }
  now subst w.
Qed.

Lemma arrayFromSet_nil (xs : list str) :
  Payment.arrayFromSet xs = [] <-> xs = [].
Proof.
  split; [|now intros ->]. destruct xs as [|x xs]; [reflexivity|].
  intros E. assert (H : In x (Payment.arrayFromSet (x :: xs)))
    by (apply PaymentFacts.in_arrayFromSet; now left).
  rewrite E in H. destruct H.
Qed.

Lemma filter_nil {X : Type} (f : X -> bool) (xs : list X) :
  filter f xs = [] <-> forall x, In x xs -> f x = false.
Proof.
  induction xs as [|x xs IH]; simpl; [tauto|].
  destruct (f x) eqn:E.
  - split; [discriminate|]. intros H. rewrite (H x) in E; [discriminate|].
    now left.
  - rewrite IH. split; [|now auto]. intros H y [<-|Hy]; [exact E | now apply H].
Qed.

(** X8. The fees returned have pairwise distinct names, in the order in
    which the names first occur among the fee-related clauses; under
    each name stands the fee of the last fee-related clause that gave
    this name.  Nothing is returned exactly when no clause is
    fee-related. *)
Theorem fee_extraction_keeps_last_fee_per_name (clauses : list Clause.t) :
  let extracted :=
    map (fun c => feeOf (Clause.clause c) (Clause.category c))
        (filter (fun c => feeRelated (Clause.clause c)) clauses) in
  map name (basicFeeExtraction clauses)
  = Payment.arrayFromSet (map name extracted)
  /\ NoDup (map name (basicFeeExtraction clauses))
  /\ (forall fee, In fee (basicFeeExtraction clauses)
                  <-> Keyed.lastWith name (name fee) extracted = Some fee)
  /\ (basicFeeExtraction clauses = []
      <-> forall c, In c clauses -> feeRelated (Clause.clause c) = false).
Proof.
  intros extracted.
  change (basicFeeExtraction clauses) with (Keyed.dedupe name extracted).
  assert (K : map name (Keyed.dedupe name extracted)
              = Payment.arrayFromSet (map name extracted))
    by apply dedupe_keys.
  split; [exact K|]. split; [rewrite K; apply PaymentMore.NoDup_arrayFromSet|].
  split; [intros fee; apply in_dedupe|].
  rewrite <- (filter_nil (fun c => feeRelated (Clause.clause c))).
  split.
  - intros E. rewrite E in K. simpl in K. symmetry in K.
    apply (proj1 (arrayFromSet_nil _)) in K. apply map_eq_nil in K.
    unfold extracted in K. now apply map_eq_nil in K.
  - intros E. unfold extracted. now rewrite E.
Qed.

(** X9. The fields of an extracted fee.  The name is never empty.  The
    amount is the fixed text "See contract for details" or a piece of
    the lower-cased clause of one of three shapes: a "$", white space if
    any and a run of digits, commas and dots; such a run, white space if
    any and "dollars"; or a run of digits and dots, white space if any
    and "percent" or "%".  The runs are not empty, and nothing makes
    them well-formed numbers.  A frequency, when there is one, is one of
    seven words.  The description has at most 103 characters and is the
    clause itself when that has at most 100.  The category is never
    empty, and is the category of the clause when that is not empty. *)
Theorem extracted_fee_fields (text : str) (category : option str) :
  let fee := feeOf text category in
  name fee <> []
  /\ (amount fee = $"See contract for details"
      \/ ((exists pre post, toLowerCase text = pre ++ amount fee ++ post)
          /\ ((exists ws number,
                  amount fee = "$"%char :: ws ++ number
                  /\ forallb isWhiteSpace ws = true
                  /\ Spec.runOf isAmountChar number)
              \/ (exists number ws,
                    amount fee = number ++ ws ++ $"dollars"
                    /\ Spec.runOf isAmountChar number
                    /\ forallb isWhiteSpace ws = true)
              \/ (exists number ws unit_,
                    amount fee = number ++ ws ++ unit_
                    /\ Spec.runOf Payment.isDigitOrDot number
                    /\ forallb isWhiteSpace ws = true
                    /\ In unit_ [$"percent"; $"%"]))))
  /\ (forall w, frequency fee = Some w ->
        In w [$"month"; $"year"; $"quarter"; $"week"; $"day"; $"hour";
              $"annum"])
  /\ (exists d, fee_description fee = Some d /\ List.length d <= 103
                /\ (List.length text <= 100 -> d = text))
  /\ (exists k, fee_category fee = Some k /\ k <> []
                /\ (forall c x, category = Some (c :: x) -> k = c :: x)).
Proof.
  cbv zeta. unfold feeOf. cbn [name amount frequency fee_description fee_category].
  split; [|split; [|split; [|split]]].
  - destruct (search true fee_name (toLowerCase text)) as [m|] eqn:E;
      [|discriminate].
    intros H. apply (f_equal (@List.length ascii)) in H.
    unfold titleCase in H. rewrite length_titleCaseFrom in H.
    apply length_zero_iff_nil in H.
    exact (fee_name_capture _ _ E H).
  - destruct (search true amount_re (toLowerCase text)) as [m|] eqn:E.
    + right. split; [exact (proj1 (amount_shape _ _ E))|].
      destruct (amount_exact _ _ E) as [H | H]; [now left | right; now left].
    + destruct (search true percentage_re (toLowerCase text)) as [m|] eqn:E';
        [|now left].
      right. split; [exact (proj1 (percentage_shape _ _ E'))|].
      right. right. exact (percentage_exact _ _ E').
  - intros w. destruct (search true frequency_re (toLowerCase text)) as [m|] eqn:E;
      [|discriminate].
    intros Hw. exact (frequency_shape _ _ _ E Hw).
  - exists (excerpt text). split; [reflexivity | apply excerpt_length].
  - exists (Analyzer.orElse category $"General Fee").
    split; [reflexivity|]. apply orElse_nonempty. discriminate.
Qed.

End FeeExtractionFacts.

(* ================================================================= *)
(** ** What the rate-card extraction returns *)

Module RateCardFacts.

Import JS JSFacts Regex RegexFacts Text TextFacts FeeExtraction RateCard.
Import KeyedFacts FeeExtractionFacts.

Local Open Scope nat_scope.
Local Unset Implicit Arguments.

Lemma in_dropNull {X : Type} (xs : list (option X)) (x : X) :
  In x (dropNull xs) <-> In (Some x) xs.
Proof.
  induction xs as [|[y|] xs IH]; simpl.
  - tauto.
  - rewrite IH. split; (intros [H|H]; [left; congruence | now right]).
  - rewrite IH. split; [tauto|]. intros [H|H]; [discriminate | exact H].
Qed.



Lemma itemOf_none (text : str) (category : option str) :
  itemOf text category = None
  <-> search true amount_re (toLowerCase text) = None.
Proof.
  unfold itemOf.
  destruct (search true amount_re (toLowerCase text)); split;
    try discriminate; reflexivity.
Qed.


(** X11. The rate card returned has pairwise distinct item names, in
    the order of their first occurrence; under each name stands the item
    of the last cost-related clause with an amount that gave this name.
    Nothing is returned exactly when every clause is either not
    cost-related or without an amount. *)
Theorem rate_card_extraction_keeps_last_item_per_name (clauses : list Clause.t) :
  let extracted :=
    dropNull (map (fun c => itemOf (Clause.clause c) (Clause.category c))
                  (filter (fun c => costRelated (Clause.clause c)) clauses)) in
  map item (basicRateCardExtraction clauses)
  = Payment.arrayFromSet (map item extracted)
  /\ NoDup (map item (basicRateCardExtraction clauses))
  /\ (forall x, In x (basicRateCardExtraction clauses)
                <-> Keyed.lastWith item (item x) extracted = Some x)
  /\ (basicRateCardExtraction clauses = []
      <-> forall c, In c clauses ->
            costRelated (Clause.clause c) = false
            \/ search true amount_re (toLowerCase (Clause.clause c)) = None).
Proof.
  intros extracted.
  change (basicRateCardExtraction clauses) with (Keyed.dedupe item extracted).
  assert (K : map item (Keyed.dedupe item extracted)
              = Payment.arrayFromSet (map item extracted))
    by apply dedupe_keys.
  split; [exact K|]. split; [rewrite K; apply PaymentMore.NoDup_arrayFromSet|].
  split; [intros x; apply in_dedupe|].
  assert (N : extracted = []
              <-> forall c, In c clauses ->
                    costRelated (Clause.clause c) = false
                    \/ search true amount_re (toLowerCase (Clause.clause c))
                       = None).
  { split.
    - intros E c Hc.
      destruct (costRelated (Clause.clause c)) eqn:R; [right | now left].
      destruct (itemOf (Clause.clause c) (Clause.category c)) as [x|] eqn:I.
      + exfalso. assert (H : In x extracted).
        { apply in_dropNull. rewrite <- I.
          apply (in_map (fun c => itemOf (Clause.clause c) (Clause.category c))).
          apply filter_In. now split. }
        rewrite E in H. destruct H.
      + now apply (itemOf_none (Clause.clause c) (Clause.category c)).
    - intros H. destruct extracted as [|x l] eqn:E; [reflexivity | exfalso].
      assert (Hx : In x extracted) by (rewrite E; now left).
      apply in_dropNull, in_map_iff in Hx as [c [I Hc]].
      apply filter_In in Hc as [Hc R].
      destruct (H c Hc) as [H'|H']; [congruence|].
      apply (itemOf_none (Clause.clause c) (Clause.category c)) in H'.
      congruence. }
  rewrite <- N. split.
  - intros E. rewrite E in K. simpl in K. symmetry in K.
    apply (proj1 (arrayFromSet_nil _)) in K. now apply map_eq_nil in K.
  - now intros ->.
Qed.

End RateCardFacts.

(* ================================================================= *)
(** ** The merges of the extract-costs and extract-payment-terms routes *)

Module MergeFacts.

Import JS RateCard TermsMerge Routes KeyedFacts.

Local Open Scope nat_scope.
Local Unset Implicit Arguments.

Lemma mergeRateCard_keyed (existing extracted : list RateCardItem) :
  mergeRateCard existing extracted = Keyed.merge item existing extracted.
Proof. reflexivity. Qed.

Lemma merge_nonempty {A : Type} (key : A -> str) (existing extracted : list A) :
  extracted <> [] -> Keyed.merge key existing extracted <> [].
Proof.
  destruct extracted as [|x xs]; [congruence | intros _ E].
  assert (H : In (key x) (map key (Keyed.merge key existing (x :: xs)))).
  { rewrite merge_keys. apply PaymentFacts.in_arrayFromSet.
    apply in_or_app. right. now left. }
  rewrite E in H. destruct H.
Qed.

Lemma orSample_nonempty {A : Type} (xs : list A) (sample : A) :
  (if List.length xs =? 0 then [sample] else xs) <> [].
Proof. destruct xs; discriminate. Qed.

(** X12. The rate card stored by the extract-costs route is never empty
    and has pairwise distinct item names: those of the stored card in the
    order of their first occurrence, then the new names of the
    extraction.  Under a stored name stands the last stored item with
    this name, under a new name the first extracted item with it; an
    extracted item never replaces a stored one.  An empty extraction
    counts as the single sample item.  Merging the same extraction a
    second time returns the summary of the first merge. *)
Theorem rate_card_merge (summary : ContractSummary)
  (extracted : list RateCardItem) :
  let existing := orEmpty (rateCard summary) in
  let added := if List.length extracted =? 0 then [sampleItem] else extracted in
  let once := extractCostsMerge summary extracted in
  rateCard once = Some (mergeRateCard existing added)
  /\ mergeRateCard existing added <> []
  /\ map item (mergeRateCard existing added)
     = Payment.arrayFromSet (map item existing ++ map item added)
  /\ (forall x, In x (mergeRateCard existing added)
        <-> Keyed.lastWith item (item x) existing = Some x
            \/ (~ In (item x) (map item existing)
                /\ Keyed.firstWith item (item x) added = Some x))
  /\ extractCostsMerge once extracted = once.
Proof.
  intros existing added once.
  split; [reflexivity|].
  split; [rewrite mergeRateCard_keyed; apply merge_nonempty, orSample_nonempty|].
  split; [rewrite mergeRateCard_keyed; apply merge_keys|].
  split; [intros x; rewrite mergeRateCard_keyed; apply in_merge|].
  unfold once, extractCostsMerge, withRateCard.
  cbn [rateCard orEmpty documentId summary_title parties effectiveDate
       termLength paymentTerms fees keyObligations confidentialityTerms
       terminationClauses].
  fold existing. fold added.
  rewrite !mergeRateCard_keyed, merge_idempotent. reflexivity.
Qed.

(** X13. The payment terms stored by the extract-payment-terms route are
    never empty and pairwise distinct; they hold every stored term, and
    every extracted term (the sample term when the extraction is empty).
    No other field of the summary changes, and merging the same
    extraction a second time returns the summary of the first merge. *)
Theorem payment_terms_route_merge (summary : ContractSummary)
  (extracted : list str) :
  let existing := orEmpty (paymentTerms summary) in
  let added := if List.length extracted =? 0 then [sampleTerm] else extracted in
  let once := extractTermsMerge summary extracted in
  paymentTerms once = Some (mergePaymentTerms existing added)
  /\ mergePaymentTerms existing added <> []
  /\ NoDup (mergePaymentTerms existing added)
  /\ (forall t, In t (mergePaymentTerms existing added)
                <-> In t existing \/ In t added)
  /\ Routes.withPaymentTerms once (orEmpty (paymentTerms summary))
     = Routes.withPaymentTerms summary (orEmpty (paymentTerms summary))
  /\ extractTermsMerge once extracted = once.
Proof.
  intros existing added once.
  assert (M : forall t, In t (mergePaymentTerms existing added)
                        <-> In t existing \/ In t added).
  { intros t. unfold mergePaymentTerms.
    rewrite PaymentMore.in_fold_setAdd, PaymentFacts.in_arrayFromSet. tauto. }
  split; [reflexivity|]. split; [|split; [|split; [exact M | split]]].
  - intros E. assert (A : added <> []) by apply orSample_nonempty.
    destruct added as [|t l]; [congruence|].
    assert (H : In t (mergePaymentTerms existing (t :: l)))
      by (apply M; right; now left).
    rewrite E in H. destruct H.
  - apply PaymentMore.NoDup_fold_setAdd, PaymentMore.NoDup_arrayFromSet.
  - reflexivity.
  - unfold once, extractTermsMerge, withPaymentTerms.
    cbn [rateCard orEmpty documentId summary_title parties effectiveDate
         termLength paymentTerms fees keyObligations confidentialityTerms
         terminationClauses].
    fold existing. fold added. f_equal. f_equal.
    unfold mergePaymentTerms.
    rewrite TermsMergeFacts.arrayFromSet_NoDup
      by apply PaymentMore.NoDup_fold_setAdd, PaymentMore.NoDup_arrayFromSet.
    apply TermsMergeFacts.fold_setAdd_present. intros x Hx.
    apply PaymentMore.in_fold_setAdd. now right.
Qed.

End MergeFacts.

(* ================================================================= *)
(** ** The other storage operations and routes *)

Module RoutesFacts.

Import JSMap JSMapFacts Storage StorageOps Upload UploadFacts InvariantFacts.
Import Routes KeyedFacts.

Local Open Scope nat_scope.
Local Unset Implicit Arguments.

Lemma extractFeesRoute_plan documentId env :
  extractFeesRoute documentId env
  = extractionRoute documentId
      (extractedFees env)
      Fees.extractFeesMerge Fees.existingFees
      $"Fees extracted successfully" $"Failed to extract fees".
Proof. reflexivity. Qed.

Lemma extractCostsRoute_plan documentId env :
  extractCostsRoute documentId env
  = extractionRoute documentId
      (extractedRateCard env)
      extractCostsMerge (fun s => orEmpty (rateCard s))
      $"Costs extracted successfully" $"Failed to extract costs".
Proof. reflexivity. Qed.

Lemma extractPaymentTermsRoute_plan documentId env :
  extractPaymentTermsRoute documentId env
  = extractionRoute documentId
      (fun clauses => Ok (extractedPaymentTerms env clauses))
      extractTermsMerge (fun s => orEmpty (paymentTerms s))
      $"Payment terms extracted successfully"
      $"Failed to extract payment terms".
Proof. reflexivity. Qed.

(** *** Maps *)

Section MapFacts.

Variables K V : Type.
Variable keq : K -> K -> bool.
Hypothesis keq_spec : forall a b, keq a b = true <-> a = b.

Lemma keq_refl (k : K) : keq k k = true.
Proof. now apply keq_spec. Qed.

Lemma keq_false (a b : K) : a <> b -> keq a b = false.
Proof.
  intros H. destruct (keq a b) eqn:E; [|reflexivity].
  apply keq_spec in E. contradiction.
Qed.

Lemma get_set_same (m : t K V) (k : K) (v : V) :
  get keq (set keq m k v) k = Some v.
Proof.
  induction m as [|[k0 v0] m IH]; simpl.
  - now rewrite keq_refl.
  - destruct (keq k0 k) eqn:E; simpl; rewrite E; [reflexivity | exact IH].
Qed.

Lemma get_set_other (m : t K V) (k k' : K) (v : V) :
  k' <> k -> get keq (set keq m k v) k' = get keq m k'.
Proof.
  intros H. induction m as [|[k0 v0] m IH]; simpl.
  - rewrite keq_false; [reflexivity | congruence].
  - destruct (keq k0 k) eqn:E; simpl.
    + apply keq_spec in E. subst k0. rewrite keq_false; [reflexivity | congruence].
    + now rewrite IH.
Qed.

Lemma set_set (m : t K V) (k : K) (v v' : V) :
  set keq (set keq m k v) k v' = set keq m k v'.
Proof.
  induction m as [|[k0 v0] m IH]; simpl.
  - now rewrite keq_refl.
  - destruct (keq k0 k) eqn:E; simpl; rewrite E; [reflexivity|].
    now rewrite IH.
Qed.

Lemma keys_set_present (m : t K V) (k : K) (v v0 : V) :
  get keq m k = Some v0 -> keys (set keq m k v) = keys m.
Proof.
  induction m as [|[k1 v1] m IH]; simpl; [discriminate|].
  destruct (keq k1 k) eqn:E; simpl; [reflexivity|].
  intros H. now rewrite IH.
Qed.

Lemma get_in (m : t K V) (k : K) (v : V) :
  get keq m k = Some v -> In (k, v) m.
Proof.
  induction m as [|[k1 v1] m IH]; simpl; [discriminate|].
  destruct (keq k1 k) eqn:E.
  - apply keq_spec in E. subst. intros H. injection H as ->. now left.
  - intros H. right. now apply IH.
Qed.

Lemma set_entries_in (m : t K V) (k : K) (v : V) (e : K * V) :
  In e (set keq m k v) -> In e m \/ e = (k, v).
Proof.
  induction m as [|[k1 v1] m IH]; simpl.
  - intros [<-|[]]. now right.
  - destruct (keq k1 k) eqn:E.
    + apply keq_spec in E. subst k1.
      intros [<-|H]; [now right | left; now right].
    + intros [<-|H]; [left; now left|].
      apply IH in H as [H|H]; [left; now right | now right].
Qed.

End MapFacts.

(** *** Storage calls *)

Lemma read_inv {A : Type} (f : Store -> A) (w w' : World) (r : Result A) :
  call (fun s => (f s, s)) w = (r, w') ->
  store w' = store w /\ forall a, r = Ok a -> a = f (store w).
Proof.
  intros H. apply call_inv in H as [[e [-> Hs]] | [a [-> Ha]]].
  - split; [exact Hs | discriminate].
  - injection Ha as <- Hs. split; [now symmetry|]. now intros a [= <-].
Qed.

Lemma call_clean {A : Type} (op : Store -> A * Store) (s : Store) :
  call op {| store := s; faults := [] |}
  = (Ok (fst (op s)), {| store := snd (op s); faults := [] |}).
Proof. unfold call. cbn [faults store]. now destruct (op s). Qed.

(** *** The plan of the extraction routes *)

Lemma readElements_ok {A : Type} (xs : list (option A)) (l : list A) :
  readElements xs = Ok l <-> xs = map Some l.
Proof.
  revert l. induction xs as [|[x|] xs IH]; intros l; simpl.
  - split; [intros [= <-]; reflexivity | now destruct l].
  - destruct (readElements xs) as [l'|e].
    + split.
      * intros [= <-]. simpl. f_equal. now apply IH.
      * destruct l as [|y l]; [discriminate|]. intros [= -> H].
        apply IH in H. now injection H as ->.
    + split; [discriminate|].
      destruct l as [|y l]; [discriminate|]. intros [= _ H].
      apply IH in H. discriminate.
  - split; [discriminate | now destruct l].
Qed.

Lemma readElements_err {A : Type} (xs : list (option A)) :
  (exists e, readElements xs = Err e) <-> In None xs.
Proof.
  induction xs as [|[x|] xs IH]; simpl.
  - split; [intros [e H]; discriminate | tauto].
  - destruct (readElements xs) as [l|e].
    + split; [intros [e H]; discriminate|].
      intros [H|H]; [discriminate|]. apply IH in H as [e H]. discriminate.
    + split; [intros _; right; apply IH; now exists e | intros _; now exists e].
  - split; [now left | intros _; eexists; reflexivity].
Qed.

Lemma in_none_preferAi {A : Type} (env : ExtractEnv)
  (ai : list (option A)) (basic : list A) :
  In None (preferAi env ai (map Some basic))
  <-> hasKey env = true /\ In None ai.
Proof.
  assert (B : ~ In None (map Some basic)).
  { intros H. apply in_map_iff in H as [x [H _]]. discriminate. }
  unfold preferAi. destruct (hasKey env).
  - destruct ai as [|x ai]; cbn [List.length Nat.ltb Nat.leb].
    + split; [intros H; contradiction | intros [_ []]].
    + tauto.
  - split; [intros H; contradiction | intros [H _]; discriminate].
Qed.

(** The elements met by the merge of the fees route: it throws exactly
    when the backend is configured and lists a [null]. *)
Lemma extractedFees_err (env : ExtractEnv) (clauses : list Clause.t) :
  (exists e, extractedFees env clauses = Err e)
  <-> hasKey env = true /\ In None (raw_fees (financialData env)).
Proof. unfold extractedFees. now rewrite readElements_err, in_none_preferAi. Qed.

Lemma extractedRateCard_err (env : ExtractEnv) (clauses : list Clause.t) :
  (exists e, extractedRateCard env clauses = Err e)
  <-> hasKey env = true /\ In None (raw_rateCard (financialData env)).
Proof.
  unfold extractedRateCard. now rewrite readElements_err, in_none_preferAi.
Qed.

Lemma extractionRoute_inv {A : Type} (d : str)
  (extract : list Clause.t -> Result (list A))
  (merge : ContractSummary -> list A -> ContractSummary)
  (field : ContractSummary -> list A) (done failed : str)
  (w w' : World) (r : Result (Reply (list A))) :
  extractionRoute d extract merge field done failed w = (r, w') ->
  let clauses := filter (fun c => JS.eqb (Clause.document_id c) d)
                        (values (clausesList (store w))) in
  exists rep, r = Ok rep /\
    ((code rep = 500%Z /\ payload rep = None /\ store w' = store w)
     \/ (code rep = 404%Z /\ payload rep = None /\ store w' = store w
         /\ (get JS.eqb (contractSummaries (store w)) d = None
             \/ clauses = []))
     \/ (code rep = 200%Z
         /\ exists summary extracted,
              get JS.eqb (contractSummaries (store w)) d = Some summary
              /\ clauses <> []
              /\ extract clauses = Ok extracted
              /\ payload rep = Some (field (merge summary extracted))
              /\ store w'
                 = withSummaries (store w)
                     (set JS.eqb (contractSummaries (store w)) d
                          (merge summary extracted)))).
Proof.
  intros H clauses. unfold extractionRoute, tryCatch in H.
  unfold bind at 1 in H.
  destruct (getContractSummary d w) as [[sm|e] w1] eqn:G.
  2:{ apply read_inv in G as [G _]. injection H as <- <-.
      eexists. split; [reflexivity|]. left. now repeat split. }
  apply read_inv in G as [G1 G2]. specialize (G2 _ eq_refl).
  destruct sm as [summary|].
  2:{ injection H as <- <-. eexists. split; [reflexivity|]. right. left.
      repeat split; [exact G1 | now left]. }
  unfold bind at 1 in H.
  destruct (getClausesByDocumentId d w1) as [[cl|e] w2] eqn:C.
  2:{ apply read_inv in C as [C _]. injection H as <- <-.
      eexists. split; [reflexivity|]. left. repeat split. congruence. }
  apply read_inv in C as [C1 C2]. specialize (C2 _ eq_refl).
  rewrite G1 in C2. fold clauses in C2. subst cl.
  destruct (List.length clauses =? 0) eqn:L.
  { injection H as <- <-. eexists. split; [reflexivity|]. right. left.
    repeat split; [congruence|]. right.
    apply Nat.eqb_eq in L. now apply length_zero_iff_nil. }
  assert (N : clauses <> []).
  { intros E. rewrite E in L. discriminate. }
  unfold bind at 1, liftR in H.
  destruct (extract clauses) as [extracted|e] eqn:X.
  2:{ injection H as <- <-. eexists. split; [reflexivity|]. left.
      repeat split. congruence. }
  unfold bind at 1 in H.
  destruct (updateContractSummary d (merge summary extracted) w2)
    as [[u|e] w3] eqn:U.
  2:{ apply call_inv in U as [[e' [_ U]] | [a [U _]]]; [|discriminate].
      injection H as <- <-. eexists. split; [reflexivity|]. left.
      repeat split. congruence. }
  apply call_inv in U as [[e' [U _]] | [a [_ U]]]; [discriminate|].
  rewrite C1, G1, <- G2 in U. injection U as _ U.
  injection H as <- <-. eexists. split; [reflexivity|]. right. right.
  split; [reflexivity|]. exists summary, extracted.
  split; [now symmetry|]. split; [exact N|]. split; [reflexivity|].
  split; [reflexivity|]. now symmetry.
Qed.

(** The answer when the database answers every call. *)
Lemma extractionRoute_clean {A : Type} (d : str)
  (extract : list Clause.t -> Result (list A))
  (merge : ContractSummary -> list A -> ContractSummary)
  (field : ContractSummary -> list A) (done failed : str) (st : Store) :
  let clauses := filter (fun c => JS.eqb (Clause.document_id c) d)
                        (values (clausesList st)) in
  exists rep,
    fst (extractionRoute d extract merge field done failed
           {| store := st; faults := [] |}) = Ok rep
    /\ (code rep = 500%Z
        <-> get JS.eqb (contractSummaries st) d <> None /\ clauses <> []
            /\ exists e, extract clauses = Err e)
    /\ (code rep = 404%Z
        <-> get JS.eqb (contractSummaries st) d = None \/ clauses = []).
Proof.
  intros clauses.
  unfold extractionRoute, tryCatch, bind, liftR, getContractSummary,
    getClausesByDocumentId, updateContractSummary.
  rewrite call_clean. cbn [fst snd].
  destruct (get JS.eqb (contractSummaries st) d) as [sm|].
  2:{ eexists. split; [reflexivity|]. cbn [code reply]. split.
      - split; [discriminate | intros [H _]; congruence].
      - split; [now left | reflexivity]. }
  rewrite call_clean. cbn [fst snd]. fold clauses.
  destruct (List.length clauses =? 0) eqn:L.
  { apply Nat.eqb_eq, length_zero_iff_nil in L.
    eexists. split; [reflexivity|]. cbn [code reply]. split.
    - split; [discriminate | intros [_ [H _]]; contradiction].
    - split; [now right | reflexivity]. }
  assert (N : clauses <> []) by (intros E; rewrite E in L; discriminate).
  destruct (extract clauses) as [x|e].
  - rewrite call_clean. cbn [fst snd].
    eexists. split; [reflexivity|]. cbn [code replyWith]. split.
    + split; [discriminate | intros [_ [_ [e H]]]; discriminate].
    + split; [discriminate|]. intros [H|H]; [discriminate | contradiction].
  - eexists. split; [reflexivity|]. cbn [code reply]. split.
    + split; [intros _|reflexivity].
      split; [discriminate|]. split; [exact N | now exists e].
    + split; [discriminate|]. intros [H|H]; [discriminate | contradiction].
Qed.

Lemma extractionRoute_replies {A : Type} (d : str)
  (extract : list Clause.t -> Result (list A))
  (merge : ContractSummary -> list A -> ContractSummary)
  (field : ContractSummary -> list A) (done failed : str) (w : World) :
  let out := extractionRoute d extract merge field done failed w in
  let clauses := filter (fun c => JS.eqb (Clause.document_id c) d)
                        (values (clausesList (store w))) in
  exists rep,
    fst out = Ok rep
    /\ In (code rep) [200; 404; 500]%Z
    /\ (code rep <> 200%Z -> store (snd out) = store w /\ payload rep = None)
    /\ (faults w = [] ->
        (code rep = 500%Z
         <-> get JS.eqb (contractSummaries (store w)) d <> None
             /\ clauses <> [] /\ exists e, extract clauses = Err e)
        /\ (code rep = 404%Z
            <-> get JS.eqb (contractSummaries (store w)) d = None
                \/ clauses = [])).
Proof.
  intros out clauses.
  destruct out as [r w'] eqn:E. unfold out in E.
  pose proof E as E0.
  apply extractionRoute_inv in E
    as [rep [-> [[H1 [H2 H3]] | [[H1 [H2 [H3 H4]]]
                | [H1 [sm [x [H2 [H3 [H4 [H5 H6]]]]]]]]]]];
    exists rep; (split; [reflexivity|]); cbn [fst snd];
    (split; [rewrite H1; simpl; tauto|]);
    (split; [first [now split | congruence]|]);
    intros F; destruct w as [st fs]; cbn [faults] in F; subst fs;
    destruct (extractionRoute_clean d extract merge field done failed st)
      as [rep' [R K]];
    rewrite E0 in R; cbn [fst] in R; injection R as <-; exact K.
Qed.

Lemma extractionRoute_success {A : Type} (d : str)
  (extract : list Clause.t -> Result (list A))
  (merge : ContractSummary -> list A -> ContractSummary)
  (field : ContractSummary -> list A) (done failed : str)
  (w w' : World) (rep : Reply (list A)) :
  (forall s x, merge (merge s x) x = merge s x) ->
  extractionRoute d extract merge field done failed w = (Ok rep, w') ->
  code rep = 200%Z ->
  let clauses := filter (fun c => JS.eqb (Clause.document_id c) d)
                        (values (clausesList (store w))) in
  exists extracted,
    extract clauses = Ok extracted
    /\ clauses <> []
    /\ withSummaries (store w') (contractSummaries (store w)) = store w
    /\ keys (contractSummaries (store w')) = keys (contractSummaries (store w))
    /\ (forall d', d' <> d ->
          get JS.eqb (contractSummaries (store w')) d'
          = get JS.eqb (contractSummaries (store w)) d')
    /\ (exists summary,
          get JS.eqb (contractSummaries (store w)) d = Some summary
          /\ get JS.eqb (contractSummaries (store w')) d
             = Some (merge summary extracted)
          /\ payload rep = Some (field (merge summary extracted)))
    /\ (forall fs r2 w2,
          extractionRoute d extract merge field done failed
            {| store := store w'; faults := fs |} = (r2, w2) ->
          exists rep2, r2 = Ok rep2
            /\ (code rep2 = 200%Z ->
                store w2 = store w' /\ payload rep2 = payload rep)).
Proof.
  intros Hidem H Hc clauses.
  apply extractionRoute_inv in H
    as [rep' [[= <-] [[H1 _] | [[H1 _]
                | [_ [sm [x [H2 [H3 [HX [H4 H5]]]]]]]]]]];
    [congruence | congruence |].
  fold clauses in H3, HX, H4, H5.
  exists x. split; [exact HX|].
  split; [exact H3|]. rewrite H5.
  split; [now destruct (store w)|]. cbn [contractSummaries withSummaries].
  split; [exact (keys_set_present _ _ JS.eqb _ _ _ _ H2)|].
  split; [intros d' Hd; now apply (get_set_other _ _ JS.eqb str_eqb_iff)|].
  split.
  { exists sm. split; [exact H2|].
    split; [apply (get_set_same _ _ JS.eqb str_eqb_iff) | exact H4]. }
  intros fs r2 w2 H.
  apply extractionRoute_inv in H
    as [rep2 [-> [[H1 _] | [[H1 _]
                | [_ [sm2 [x2 [G2 [G3 [GX [G4 G5]]]]]]]]]]];
    exists rep2; (split; [reflexivity|]); try (intros; congruence).
  intros _. cbn [store] in G2, G3, GX, G4, G5.
  cbn [contractSummaries clausesList withSummaries] in G2, G3, GX, G4, G5.
  rewrite (get_set_same _ _ JS.eqb str_eqb_iff) in G2. injection G2 as <-.
  fold clauses in GX, G4, G5. rewrite HX in GX. injection GX as <-.
  rewrite Hidem in G4, G5.
  split; [|congruence].
  rewrite G5, (set_set _ _ JS.eqb str_eqb_iff). reflexivity.
Qed.

(** *** The three merges run twice *)

Lemma extractFeesMerge_twice (s : ContractSummary) (x : list Fee) :
  Fees.extractFeesMerge (Fees.extractFeesMerge s x) x = Fees.extractFeesMerge s x.
Proof.
  unfold Fees.extractFeesMerge, Fees.withFees, Fees.existingFees.
  cbn [fees documentId summary_title parties effectiveDate termLength
       paymentTerms rateCard keyObligations confidentialityTerms
       terminationClauses].
  now rewrite FeesFacts.mergeFees_idempotent.
Qed.



(** X14. A run of the extract-fees route that answers 200 found the
    summary of the document and at least one of its clauses.  It changes
    nothing but the summaries table, and there only the summary of this
    document, whose fees become the merge of the stored fees with the
    extraction (of the AI backend when it is configured and returns
    fees, else of the heuristic), in which no element is null.  The
    answer carries the merged fees, and they are not empty.  A second
    run that answers 200, the backend returning the same data, leaves
    storage as the first run left it and gives the same fees. *)
Theorem extract_fees_route_success (d : str) (env : ExtractEnv)
  (w w' : World) (rep : Reply (list Fee)) :
  extractFeesRoute d env w = (Ok rep, w') ->
  code rep = 200%Z ->
  let clauses := filter (fun c => JS.eqb (Clause.document_id c) d)
                        (values (clausesList (store w))) in
  exists extracted,
    preferAi env (raw_fees (financialData env))
             (map Some (FeeExtraction.basicFeeExtraction clauses))
    = map Some extracted
    /\ clauses <> []
    /\ withSummaries (store w') (contractSummaries (store w)) = store w
    /\ keys (contractSummaries (store w')) = keys (contractSummaries (store w))
    /\ (forall d', d' <> d ->
          get JS.eqb (contractSummaries (store w')) d'
          = get JS.eqb (contractSummaries (store w)) d')
    /\ (exists summary,
          get JS.eqb (contractSummaries (store w)) d = Some summary
          /\ get JS.eqb (contractSummaries (store w')) d
             = Some (Fees.extractFeesMerge summary extracted)
          /\ payload rep
             = Some (Fees.existingFees (Fees.extractFeesMerge summary extracted))
          /\ Fees.existingFees (Fees.extractFeesMerge summary extracted) <> [])
    /\ (forall fs r2 w2,
          extractFeesRoute d env {| store := store w'; faults := fs |} = (r2, w2) ->
          exists rep2, r2 = Ok rep2
            /\ (code rep2 = 200%Z ->
                store w2 = store w' /\ payload rep2 = payload rep)).
Proof.
  intros H Hc clauses. rewrite extractFeesRoute_plan in H.
  pose proof (extractionRoute_success _ _ _ _ _ _ _ _ _
                extractFeesMerge_twice H Hc)
    as [extracted [HX [H1 [H2 [H3 [H4 [[sm [H5 [H6 H7]]] H8]]]]]]].
  exists extracted. split; [exact (proj1 (readElements_ok _ _) HX)|].
  split; [exact H1|]. split; [exact H2|]. split; [exact H3|].
  split; [exact H4|]. split; [|exact H8].
  exists sm. split; [exact H5|]. split; [exact H6|]. split; [exact H7|].
  unfold Fees.extractFeesMerge, Fees.existingFees, Fees.withFees. cbn [fees].
  apply FeesFacts.mergeFees_nonempty, MergeFacts.orSample_nonempty.
Qed.

Lemma extract_fees_route_success_witness :
  code (MoreExamples.replyOf MoreExamples.feesRun) = 200%Z
  /\ option_map (map name) (payload (MoreExamples.replyOf MoreExamples.feesRun))
     = Some [$"Late Payment Fee"]
  /\ forall fs,
       exists rep2,
         fst (extractFeesRoute $"1700000000000" MoreExamples.noBackend
                {| store := store (snd MoreExamples.feesRun); faults := fs |})
         = Ok rep2
         /\ (code rep2 = 200%Z ->
             store (snd (extractFeesRoute $"1700000000000" MoreExamples.noBackend
                      {| store := store (snd MoreExamples.feesRun);
                         faults := fs |}))
             = store (snd MoreExamples.feesRun)).
Proof.
  assert (R : extractFeesRoute $"1700000000000" MoreExamples.noBackend
                MoreExamples.analysedWorld
              = (Ok (MoreExamples.replyOf MoreExamples.feesRun),
                 snd MoreExamples.feesRun))
    by (vm_compute; reflexivity).
  assert (C : code (MoreExamples.replyOf MoreExamples.feesRun) = 200%Z)
    by (vm_compute; reflexivity).
  split; [exact C|]. split; [vm_compute; reflexivity|].
  intros fs.
  destruct (extract_fees_route_success _ _ _ _ _ R C)
    as [extracted [_ [_ [_ [_ [_ [_ H]]]]]]].
  destruct (extractFeesRoute $"1700000000000" MoreExamples.noBackend
              {| store := store (snd MoreExamples.feesRun); faults := fs |})
    as [r2 w2] eqn:E.
  destruct (H fs r2 w2 E) as [rep2 [-> H2]].
  exists rep2. split; [reflexivity|]. intros Hc. cbn [snd].
  exact (proj1 (H2 Hc)).
Defined.

(** A backend that lists [null] as a fee: the merge throws on it, and
    the route answers 500 with the database in order. *)
Lemma null_fee_gives_500 :
  code (MoreExamples.replyOf MoreExamples.nullFeeRun) = 500%Z
  /\ snd MoreExamples.nullFeeRun = MoreExamples.analysedWorld.
Proof. split; vm_compute; reflexivity. Qed.

(** X15. The three extraction routes always answer, with 200, 404 or
    500, and never throw.  An answer other than 200 leaves storage as it
    was and carries no data.  When the database answers every call the
    routes answer 404 exactly when the document has no summary or no
    clause in storage.  The fees and the costs route then answer 500
    exactly when the summary and the clauses are there, the AI backend
    is configured and its array holds a null element, on which the merge
    throws; the payment-terms route does not answer 500. *)
Theorem extraction_routes_always_answer (d : str) (env : ExtractEnv) (w : World) :
  let clauses := filter (fun c => JS.eqb (Clause.document_id c) d)
                        (values (clausesList (store w))) in
  let answers {A : Type} (out : Result (Reply (list A)) * World)
              (mergeThrows : Prop) :=
    exists rep,
      fst out = Ok rep
      /\ In (code rep) [200; 404; 500]%Z
      /\ (code rep <> 200%Z -> store (snd out) = store w /\ payload rep = None)
      /\ (faults w = [] ->
          (code rep = 500%Z
           <-> get JS.eqb (contractSummaries (store w)) d <> None
               /\ clauses <> [] /\ mergeThrows)
          /\ (code rep = 404%Z
              <-> get JS.eqb (contractSummaries (store w)) d = None
                  \/ clauses = [])) in
  answers (extractFeesRoute d env w)
          (hasKey env = true /\ In None (raw_fees (financialData env)))
  /\ answers (extractCostsRoute d env w)
             (hasKey env = true /\ In None (raw_rateCard (financialData env)))
  /\ answers (extractPaymentTermsRoute d env w) False.
Proof.
  cbv zeta. split; [|split].
  - rewrite extractFeesRoute_plan.
    destruct (extractionRoute_replies d (extractedFees env)
                Fees.extractFeesMerge Fees.existingFees
                $"Fees extracted successfully" $"Failed to extract fees" w)
      as [rep [H1 [H2 [H3 H4]]]].
    exists rep. split; [exact H1|]. split; [exact H2|]. split; [exact H3|].
    intros F. destruct (H4 F) as [K1 K2]. split; [|exact K2].
    rewrite K1, extractedFees_err. reflexivity.
  - rewrite extractCostsRoute_plan.
    destruct (extractionRoute_replies d (extractedRateCard env)
                extractCostsMerge (fun s => orEmpty (rateCard s))
                $"Costs extracted successfully" $"Failed to extract costs" w)
      as [rep [H1 [H2 [H3 H4]]]].
    exists rep. split; [exact H1|]. split; [exact H2|]. split; [exact H3|].
    intros F. destruct (H4 F) as [K1 K2]. split; [|exact K2].
    rewrite K1, extractedRateCard_err. reflexivity.
  - rewrite extractPaymentTermsRoute_plan.
    destruct (extractionRoute_replies d
                (fun clauses => Ok (extractedPaymentTerms env clauses))
                extractTermsMerge (fun s => orEmpty (paymentTerms s))
                $"Payment terms extracted successfully"
                $"Failed to extract payment terms" w)
      as [rep [H1 [H2 [H3 H4]]]].
    exists rep. split; [exact H1|]. split; [exact H2|]. split; [exact H3|].
    intros F. destruct (H4 F) as [K1 K2]. split; [|exact K2].
    rewrite K1. split; [|tauto]. intros [_ [_ [e H]]]. discriminate.
Qed.


End RoutesFacts.

(* ================================================================= *)
(** ** The complete and reset routes *)

Module ClauseRoutesFacts.

Import JSMap JSMapFacts Storage StorageOps Upload UploadFacts InvariantFacts.
Import Routes RoutesFacts.

Local Open Scope nat_scope.
Local Unset Implicit Arguments.

Lemma spread_whole (existing c : Clause.t) : spread existing (whole c) = c.
Proof. now destruct c. Qed.

Lemma markCompleted_twice (c : Clause.t) :
  markCompleted (markCompleted c) = markCompleted c.
Proof. reflexivity. Qed.

Lemma completeRoute_inv (cid : option Z) (w w' : World)
  (r : Result (Reply Clause.t)) :
  completeRoute cid w = (r, w') ->
  exists rep, r = Ok rep /\
    ((code rep = 500%Z /\ payload rep = None /\ store w' = store w
      /\ cid <> None)
     \/ (code rep = 400%Z /\ payload rep = None /\ store w' = store w
         /\ cid = None)
     \/ (code rep = 404%Z /\ payload rep = None /\ store w' = store w
         /\ exists id, cid = Some id
                       /\ get Z.eqb (clausesList (store w)) id = None)
     \/ (code rep = 200%Z
         /\ exists id existing,
              cid = Some id
              /\ get Z.eqb (clausesList (store w)) id = Some existing
              /\ payload rep = Some (markCompleted existing)
              /\ store w'
                 = withClauses (store w)
                     (set Z.eqb (clausesList (store w)) id
                          (markCompleted existing)))).
Proof.
  unfold completeRoute, tryCatch. destruct cid as [id|].
  2:{ intros [= <- <-]. eexists. split; [reflexivity|]. right. left.
      now repeat split. }
  unfold bind at 1.
  destruct (getClause id w) as [[found|e] w1] eqn:G.
  2:{ apply read_inv in G as [G _]. intros [= <- <-].
      eexists. split; [reflexivity|]. left. now repeat split. }
  apply read_inv in G as [G1 G2]. specialize (G2 _ eq_refl).
  destruct found as [existing|].
  2:{ intros [= <- <-]. eexists. split; [reflexivity|]. right. right. left.
      repeat split; [exact G1|]. exists id. now split. }
  unfold bind at 1.
  destruct (updateClause id (whole (markCompleted existing)) w1)
    as [[u|e] w2] eqn:U.
  2:{ apply call_inv in U as [[e' [_ U]] | [a [U _]]]; [|discriminate].
      intros [= <- <-]. eexists. split; [reflexivity|]. left.
      repeat split; [congruence | discriminate]. }
  apply call_inv in U as [[e' [U _]] | [a [_ U]]]; [discriminate|].
  rewrite G1, <- G2, spread_whole in U. injection U as _ U.
  intros [= <- <-]. eexists. split; [reflexivity|]. right. right. right.
  split; [reflexivity|]. exists id, existing.
  split; [reflexivity|]. split; [now symmetry|]. split; [reflexivity|].
  now symmetry.
Qed.

(** X17. A run of the complete route that answers 200 found the clause
    under the id.  It stores and returns that clause with [completed]
    set and every other field as it was; no other clause, no id and no
    other table changes, rows stay under their own ids, and a second run
    leaves storage as the first left it. *)
Theorem complete_route_marks_one_clause (id : Z) (w w' : World)
  (rep : Reply Clause.t) :
  wellFormed w ->
  completeRoute (Some id) w = (Ok rep, w') ->
  code rep = 200%Z ->
  exists existing,
    get Z.eqb (clausesList (store w)) id = Some existing
    /\ payload rep = Some (markCompleted existing)
    /\ get Z.eqb (clausesList (store w')) id = Some (markCompleted existing)
    /\ (forall id', id' <> id ->
          get Z.eqb (clausesList (store w')) id'
          = get Z.eqb (clausesList (store w)) id')
    /\ keys (clausesList (store w')) = keys (clausesList (store w))
    /\ withClauses (store w') (clausesList (store w)) = store w
    /\ wellFormed w'
    /\ (forall fs r2 w2,
          completeRoute (Some id) {| store := store w'; faults := fs |}
          = (r2, w2) ->
          store w2 = store w').
Proof.
  intros Hw H Hc.
  apply completeRoute_inv in H
    as [rep' [[= <-] [[H1 _] | [[H1 _] | [[H1 _] |
         [_ [id' [existing [[= <-] [H2 [H3 H4]]]]]]]]]]];
    try congruence.
  exists existing. split; [exact H2|]. split; [exact H3|].
  rewrite H4. cbn [clausesList withClauses].
  split; [apply (get_set_same _ _ Z.eqb Z_eqb_spec)|].
  split; [intros i Hi; now apply (get_set_other _ _ Z.eqb Z_eqb_spec)|].
  split; [exact (keys_set_present _ _ Z.eqb _ _ _ _ H2)|].
  split; [now destruct (store w)|].
  split.
  - destruct Hw as [Hw1 Hw2]. unfold wellFormed. rewrite H4.
    cbn [store clausesList clauseCurrentId withClauses].
    split; [exact Hw1|]. apply Forall_forall. intros e He.
    apply (set_entries_in _ _ Z.eqb Z_eqb_spec) in He as [He | ->].
    + exact (proj1 (Forall_forall _ _) Hw2 e He).
    + apply (get_in _ _ Z.eqb Z_eqb_spec) in H2.
      exact (proj1 (Forall_forall _ _) Hw2 _ H2).
  - intros fs r2 w2 H.
    apply completeRoute_inv in H
      as [rep2 [_ [[_ [_ [H5 _]]] | [[_ [_ [H5 _]]] | [[_ [_ [H5 _]]] |
           [_ [i [ex2 [[= <-] [G2 [_ G4]]]]]]]]]]];
      try exact H5.
    cbn [store] in G2, G4. cbn [clausesList withClauses] in G2, G4.
    rewrite (get_set_same _ _ Z.eqb Z_eqb_spec) in G2. injection G2 as <-.
    rewrite G4, markCompleted_twice, (set_set _ _ Z.eqb Z_eqb_spec).
    reflexivity.
Qed.

Lemma wellFormed_analysed (fs : list bool) :
  wellFormed {| store := MoreExamples.analysedStore; faults := fs |}.
Proof.
  split; [reflexivity|].
  constructor; [split; [cbn; lia | reflexivity] | constructor].
Qed.

Lemma complete_route_marks_one_clause_witness :
  code (MoreExamples.replyOf MoreExamples.completeRun) = 200%Z
  /\ exists existing,
       get Z.eqb (clausesList MoreExamples.analysedStore) 1%Z = Some existing
       /\ get Z.eqb (clausesList (store (snd MoreExamples.completeRun))) 1%Z
          = Some (markCompleted existing).
Proof.
  assert (R : completeRoute (Some 1%Z) MoreExamples.analysedWorld
              = (Ok (MoreExamples.replyOf MoreExamples.completeRun),
                 snd MoreExamples.completeRun))
    by (vm_compute; reflexivity).
  assert (C : code (MoreExamples.replyOf MoreExamples.completeRun) = 200%Z)
    by (vm_compute; reflexivity).
  split; [exact C|].
  destruct (complete_route_marks_one_clause _ _ _ _
              (wellFormed_analysed []) R C) as [existing [H1 [_ [H3 _]]]].
  exists existing. split; [exact H1 | exact H3].
Defined.

(** X18. The complete route always answers, with 200, 400, 404 or 500,
    and never throws.  It answers 400 exactly when the id is not a
    number.  An answer other than 200 leaves storage as it was.  When
    the database answers every call the route does not answer 500, and
    it answers 404 exactly when no clause is stored under the id. *)
Theorem complete_route_always_answers (cid : option Z) (w : World) :
  let out := completeRoute cid w in
  exists rep,
    fst out = Ok rep
    /\ In (code rep) [200; 400; 404; 500]%Z
    /\ (code rep <> 200%Z -> store (snd out) = store w /\ payload rep = None)
    /\ (code rep = 400%Z <-> cid = None)
    /\ (faults w = [] ->
        code rep <> 500%Z
        /\ forall id, cid = Some id ->
             (code rep = 404%Z
              <-> get Z.eqb (clausesList (store w)) id = None)).
Proof.
  intros out. destruct out as [r w'] eqn:E. unfold out in E. pose proof E as E0.
  apply completeRoute_inv in E
    as [rep [-> [[H1 [H2 [H3 H4]]] | [[H1 [H2 [H3 H4]]] |
         [[H1 [H2 [H3 [id [H4 H5]]]]] |
          [H1 [id [existing [H4 [H5 [H6 H7]]]]]]]]]]];
    exists rep; (split; [reflexivity|]); cbn [fst snd].
  - split; [rewrite H1; simpl; tauto|]. split; [now split|].
    split; [rewrite H1; split; [discriminate | contradiction]|].
    intros F. exfalso. revert E0 H1.
    unfold completeRoute, tryCatch, bind, getClause, updateClause.
    destruct w as [st fs]. cbn [faults] in F. subst fs.
    destruct cid as [id|]; [|contradiction].
    rewrite call_clean. cbn [fst snd].
    destruct (get Z.eqb (clausesList st) id) as [existing|] eqn:G;
      [|intros [= <- _]; discriminate].
    rewrite call_clean. cbn [fst snd]. intros [= <- _]. discriminate.
  - split; [rewrite H1; simpl; tauto|]. split; [now split|].
    split; [now split|]. intros _. split; [now rewrite H1|].
    intros id Hid. congruence.
  - split; [rewrite H1; simpl; tauto|]. split; [now split|].
    split; [rewrite H1, H4; split; discriminate|].
    intros _. split; [now rewrite H1|].
    intros i Hi. rewrite H4 in Hi. injection Hi as <-. now split.
  - split; [rewrite H1; simpl; tauto|]. split; [congruence|].
    split; [rewrite H1, H4; split; discriminate|].
    intros _. split; [now rewrite H1|].
    intros i Hi. rewrite H4 in Hi. injection Hi as <-.
    rewrite H1, H5. split; discriminate.
Qed.

(** *** The reset route *)

(** What a loop of deletions can do to storage: remove rows of the
    clause table. *)
Lemma deleteOne_shrinks (c : Clause.t) (w w' : World) (r : Result unit) :
  deleteOne c w = (r, w') ->
  incl (clausesList (store w')) (clausesList (store w))
  /\ clauseCurrentId (store w') = clauseCurrentId (store w)
  /\ complianceRulesList (store w') = complianceRulesList (store w)
  /\ contractSummaries (store w') = contractSummaries (store w).
Proof.
  unfold deleteOne. destruct (Clause.id c =? 0)%Z.
  - intros [= _ <-]. split; [apply incl_refl | now repeat split].
  - unfold bind. destruct (deleteClause (Clause.id c) w) as [[b|e] w1] eqn:D.
    + intros [= _ <-].
      apply call_inv in D as [[e' [D _]] | [a [_ D]]]; [discriminate|].
      injection D as _ <-. cbn.
      split; [|now repeat split].
      intros e He. unfold delete in He. now apply filter_In in He.
    + intros [= _ <-].
      apply call_inv in D as [[e' [_ D]] | [a [D _]]]; [|discriminate].
      rewrite D. split; [apply incl_refl | now repeat split].
Qed.

Lemma forEach_delete_shrinks (l : list Clause.t) (w w' : World)
  (r : Result unit) :
  forEach l deleteOne w = (r, w') ->
  incl (clausesList (store w')) (clausesList (store w))
  /\ clauseCurrentId (store w') = clauseCurrentId (store w)
  /\ complianceRulesList (store w') = complianceRulesList (store w)
  /\ contractSummaries (store w') = contractSummaries (store w).
Proof.
  revert w; induction l as [|c l IH]; intros w; simpl.
  - intros [= _ <-]. split; [apply incl_refl | now repeat split].
  - unfold bind at 1. destruct (deleteOne c w) as [[u|e] w1] eqn:D.
    + intros H. apply IH in H as [H1 [H2 [H3 H4]]].
      apply deleteOne_shrinks in D as [D1 [D2 [D3 D4]]].
      split; [intros x Hx; apply D1, H1, Hx|].
      split; [congruence|]. split; congruence.
    + intros [= _ <-]. now apply deleteOne_shrinks in D.
Qed.

Lemma forEach_delete_clean (l : list Clause.t) (s : Store) :
  exists s', forEach l deleteOne {| store := s; faults := [] |}
             = (Ok tt, {| store := s'; faults := [] |}).
Proof.
  revert s; induction l as [|c l IH]; intros s; simpl.
  - now exists s.
  - unfold bind at 1. unfold deleteOne at 1.
    destruct (Clause.id c =? 0)%Z.
    + unfold ret. apply IH.
    + unfold bind, deleteClause. rewrite call_clean. cbn [fst snd].
      unfold ret. apply IH.
Qed.

Lemma resetClauses_shrinks (w w' : World) (r : Result unit) :
  resetClauses w = (r, w') ->
  incl (clausesList (store w')) (clausesList (store w))
  /\ clauseCurrentId (store w') = clauseCurrentId (store w)
  /\ complianceRulesList (store w') = complianceRulesList (store w)
  /\ contractSummaries (store w') = contractSummaries (store w).
Proof.
  unfold resetClauses, bind.
  destruct (getAllClauses w) as [[l|e] w0] eqn:G.
  - apply getAllClauses_inv in G as [G _]. rewrite <- G.
    apply forEach_delete_shrinks.
  - apply getAllClauses_inv in G as [G _]. intros [= _ <-]. rewrite G.
    split; [apply incl_refl | now repeat split].
Qed.

(** X19. The reset route always answers, with 200 or 500.  After a 200
    no clause is left in storage.  Whatever the answer, the route only
    removes clauses: what is left was there before, the summaries stay,
    and the next clause id is not set back.  When the database answers
    every call the route answers 200. *)
Theorem reset_route_effect (w : World) :
  wellFormed w ->
  let out := resetRoute w in
  exists rep,
    fst out = Ok rep
    /\ In (code rep) [200; 500]%Z
    /\ (code rep = 200%Z -> residentClauses (snd out) = [])
    /\ incl (residentClauses (snd out)) (residentClauses w)
    /\ clauseCurrentId (store (snd out)) = clauseCurrentId (store w)
    /\ contractSummaries (store (snd out)) = contractSummaries (store w)
    /\ (faults w = [] -> code rep = 200%Z).
Proof.
  intros Hw out. unfold out, resetRoute, tryCatch, bind.
  destruct (resetClauses w) as [[[]|e] w1] eqn:R; cbn [fst snd ret].
  - eexists. split; [reflexivity|]. cbn [code reply].
    pose proof (reset_clears (wellFormed_ids Hw) R) as Hc.
    apply resetClauses_shrinks in R as [R1 [R2 [_ R4]]].
    split; [simpl; tauto|].
    split; [intros _; unfold residentClauses; now rewrite Hc|].
    split; [unfold residentClauses, values; now apply incl_map|].
    split; [exact R2|]. split; [exact R4 | reflexivity].
  - eexists. split; [reflexivity|]. cbn [code reply].
    pose proof R as R0.
    apply resetClauses_shrinks in R as [R1 [R2 [_ R4]]].
    split; [simpl; tauto|]. split; [discriminate|].
    split; [unfold residentClauses, values; now apply incl_map|].
    split; [exact R2|]. split; [exact R4|].
    intros F. exfalso. revert R0. unfold resetClauses, bind, getAllClauses.
    destruct w as [st fs]. cbn [faults] in F. subst fs.
    rewrite call_clean. cbn [fst snd].
    destruct (forEach_delete_clean (values (clausesList st)) st) as [s' ->].
    discriminate.
Qed.

Lemma reset_route_effect_witness :
  code (MoreExamples.replyOf MoreExamples.resetRun) = 200%Z
  /\ residentClauses (snd MoreExamples.resetRun) = []
  /\ contractSummaries (store (snd MoreExamples.resetRun))
     = contractSummaries MoreExamples.analysedStore.
Proof.
  destruct (reset_route_effect MoreExamples.analysedWorld
              (wellFormed_analysed []))
    as [rep [H1 [_ [H3 [_ [_ [H6 H7]]]]]]].
  fold MoreExamples.resetRun in H1, H3, H6.
  assert (E : MoreExamples.replyOf MoreExamples.resetRun = rep)
    by (unfold MoreExamples.replyOf; now rewrite H1).
  rewrite E. specialize (H7 eq_refl).
  split; [exact H7|]. split; [exact (H3 H7) | exact H6].
Defined.

End ClauseRoutesFacts.

(* ================================================================= *)
(** ** Stored clauses and the uploaded document *)

Module UploadMore.

Import JSMap JSMapFacts Storage StorageOps Upload UploadFacts InvariantFacts.
Import Routes RoutesFacts.

Local Open Scope nat_scope.
Local Unset Implicit Arguments.

Lemma get_fresh (m : t Z Clause.t) (next : Z) :
  Forall (fun e => (0 < fst e < next)%Z /\ Clause.id (snd e) = fst e) m ->
  get Z.eqb m next = None.
Proof.
  induction 1 as [|[k v] m [Hk _] _ IH]; simpl; [reflexivity|].
  replace (k =? next)%Z with false; [exact IH|].
  symmetry. apply Z.eqb_neq. simpl in Hk. lia.
Qed.

Lemma createClause_row (c : InsertClause.t) (w w' : World) (r : Clause.t) :
  wellFormed w -> createClause c w = (Ok r, w') ->
  r = withId c (clauseCurrentId (store w))
  /\ clausesList (store w')
     = clausesList (store w) ++ [(clauseCurrentId (store w), r)]
  /\ clauseCurrentId (store w') = (clauseCurrentId (store w) + 1)%Z
  /\ contractSummaries (store w') = contractSummaries (store w).
Proof.
  intros [H1 H2] H. apply call_inv in H as [[e [H _]] | [a [Ha Hop]]];
    [discriminate|].
  injection Ha as <-. injection Hop as <- <-. cbn.
  split; [reflexivity|]. split; [|now split].
  apply (@set_new _ _ Z.eqb Z_eqb_spec). intros Hin.
  unfold keys in Hin. apply in_map_iff in Hin as [e [He Hin]].
  pose proof (proj1 (Forall_forall _ _) H2 e Hin) as [Hr _]. lia.
Qed.

(** X20. A clause that [createClause] stores gets the next id, which no
    stored clause has; it is read back under this id with the fields it
    was given, it comes last among the stored clauses, the clauses
    stored before are untouched, and the next id is one more. *)
Theorem created_clause_is_stored_under_a_fresh_id
  (c : InsertClause.t) (w w' : World) (r : Clause.t) :
  wellFormed w ->
  createClause c w = (Ok r, w') ->
  Clause.id r = clauseCurrentId (store w)
  /\ r = withId c (Clause.id r)
  /\ get Z.eqb (clausesList (store w)) (Clause.id r) = None
  /\ get Z.eqb (clausesList (store w')) (Clause.id r) = Some r
  /\ (forall id, id <> Clause.id r ->
        get Z.eqb (clausesList (store w')) id
        = get Z.eqb (clausesList (store w)) id)
  /\ residentClauses w' = residentClauses w ++ [r]
  /\ clauseCurrentId (store w') = (Clause.id r + 1)%Z
  /\ wellFormed w'.
Proof.
  intros Hw H.
  pose proof (@preserves_createClause c _ _ _ Hw H) as Hw'.
  pose proof H as H0.
  apply createClause_row in H as [Hr [Hl [Hn _]]]; [|exact Hw].
  assert (Hid : Clause.id r = clauseCurrentId (store w)) by now rewrite Hr.
  split; [exact Hid|]. split; [now rewrite Hid|]. rewrite Hid.
  split; [apply get_fresh; exact (proj2 Hw)|].
  apply call_inv in H0 as [[e [H0 _]] | [a [Ha Hop]]]; [discriminate|].
  injection Ha as <-. injection Hop as Hr' Hs.
  split.
  { rewrite <- Hs. cbn [clausesList]. rewrite Hr'.
    apply (get_set_same _ _ Z.eqb Z_eqb_spec). }
  split.
  { intros id Hne. rewrite <- Hs. cbn [clausesList].
    now apply (get_set_other _ _ Z.eqb Z_eqb_spec). }
  split; [|split; [exact Hn | exact Hw']].
  unfold residentClauses, values. rewrite Hl, map_app. reflexivity.
Qed.

Lemma created_clause_is_stored_under_a_fresh_id_witness :
  exists r,
    fst MoreExamples.createRun = Ok r
    /\ Clause.id r = 2%Z
    /\ get Z.eqb (clausesList (store (snd MoreExamples.createRun))) 2%Z = Some r.
Proof.
  destruct MoreExamples.createRun as [[r|e] w'] eqn:E;
    [|vm_compute in E; discriminate E].
  exists r. split; [reflexivity|].
  destruct (created_clause_is_stored_under_a_fresh_id
              MoreExamples.draftClause MoreExamples.analysedWorld w' r
              (ClauseRoutesFacts.wellFormed_analysed []) E)
    as [H1 [_ [_ [H4 _]]]].
  cbn [snd]. rewrite H1 in H4. split; [exact H1 | exact H4].
Defined.

(** *** The stages of a successful upload *)

Lemma upload_stages (env : Env) (w w' : World) (resp : Response) :
  upload env w = (Ok resp, w') -> status resp = 200%Z ->
  exists w1 w2 w3 extracted rules,
    tryCatch resetClauses (fun _ => ret tt) w = (Ok tt, w1)
    /\ extractClauses env = Ok extracted
    /\ getAllComplianceRules w1 = (Ok rules, w2)
    /\ Document.analyzeDocument (apiKey env) extracted rules (fileId env)
         (clauseEnv env) = Ok (clauses resp)
    /\ storeClauses (clauses resp) w2 = (Ok tt, w3)
    /\ createContractSummary (assembleSummary env (clauses resp)) w3
       = (Ok (assembleSummary env (clauses resp)), w').
Proof.
  intros H Hs. unfold upload in H. unfold tryCatch at 1 in H.
  destruct (hasFile env); cbn [negb] in H.
  2:{ injection H as <- _. discriminate. }
  unfold bind at 1 in H.
  destruct (tryCatch resetClauses (fun _ => ret tt) w) as [[[]|e] w1] eqn:R.
  2:{ injection H as <- _. discriminate. }
  unfold bind at 1 in H. unfold liftR at 1 in H.
  destruct (extractClauses env) as [extracted|e] eqn:X.
  2:{ injection H as <- _. discriminate. }
  unfold bind at 1 in H.
  destruct (getAllComplianceRules w1) as [[rules|e] w2] eqn:G.
  2:{ injection H as <- _. discriminate. }
  unfold bind at 1 in H. unfold liftR at 1 in H.
  destruct (Document.analyzeDocument (apiKey env) extracted rules
              (fileId env) (clauseEnv env)) as [analyzed|e] eqn:A.
  2:{ injection H as <- _. discriminate. }
  unfold bind at 1 in H.
  destruct (storeClauses analyzed w2) as [[[]|e] w3] eqn:St.
  2:{ injection H as <- _. discriminate. }
  unfold bind at 1 in H.
  destruct (createContractSummary (assembleSummary env analyzed) w3)
    as [[sm|e] w4] eqn:Cs.
  2:{ injection H as <- _. discriminate. }
  unfold ret in H. injection H as <- <-. cbn [clauses].
  exists w1, w2, w3, extracted, rules.
  repeat (split; [reflexivity || assumption|]).
  pose proof Cs as Cs0.
  apply call_inv in Cs0 as [[e [Cs0 _]] | [a [Ha Hop]]]; [discriminate|].
  injection Ha as <-. injection Hop as <- _. exact Cs.
Qed.

Lemma reset_attempt_shrinks (w w1 : World) (r : Result unit) :
  tryCatch resetClauses (fun _ => ret tt) w = (r, w1) ->
  incl (clausesList (store w1)) (clausesList (store w))
  /\ clauseCurrentId (store w1) = clauseCurrentId (store w).
Proof.
  unfold tryCatch. destruct (resetClauses w) as [[u|e] w0] eqn:R.
  - intros [= _ <-].
    apply ClauseRoutesFacts.resetClauses_shrinks in R as [R1 [R2 _]].
    now split.
  - intros [= _ <-].
    apply ClauseRoutesFacts.resetClauses_shrinks in R as [R1 [R2 _]].
    now split.
Qed.

Lemma preserves_reset_attempt : preserves (tryCatch resetClauses (fun _ => ret tt)).
Proof.
  apply preserves_tryCatch; [|intros e; apply preserves_ret].
  unfold resetClauses. apply preserves_bind; [apply preserves_read|].
  intros l. apply preserves_forEach. intros c. unfold deleteOne.
  destruct (Clause.id c =? 0)%Z; [apply preserves_ret|].
  apply preserves_bind; [apply preserves_deleteClause|].
  intros b. apply preserves_ret.
Qed.

(** The rows a loop of [createClause] adds. *)
Lemma storeClauses_rows (l : list InsertClause.t) :
  forall w w',
    wellFormed w -> storeClauses l w = (Ok tt, w') ->
    exists rows,
      residentClauses w' = residentClauses w ++ rows
      /\ Forall2 (fun c r => r = withId (withCompletion c) (Clause.id r)) l rows
      /\ contractSummaries (store w') = contractSummaries (store w).
Proof.
  unfold storeClauses.
  induction l as [|c l IH]; intros w w' Hw H; simpl in H.
  - injection H as <-. exists []. rewrite app_nil_r.
    split; [reflexivity|]. split; [constructor | reflexivity].
  - unfold bind at 1 2 in H.
    destruct (createClause (withCompletion c) w) as [[a|e] w1] eqn:C;
      [|discriminate].
    unfold ret in H.
    pose proof (@preserves_createClause (withCompletion c) _ _ _ Hw C) as Hw1.
    destruct (IH w1 w' Hw1 H) as [rows [R1 [R2 R3]]].
    apply createClause_row in C as [Ca [Cl [_ Cs]]]; [|exact Hw].
    exists (a :: rows). split; [|split].
    + rewrite R1. unfold residentClauses, values. rewrite Cl, map_app.
      simpl. now rewrite <- app_assoc.
    + constructor; [|exact R2]. rewrite Ca at 1. now rewrite Ca.
    + congruence.
Qed.

Lemma upload_served
  (up : Upload.Env) (env : SummaryAssembly.Env) (w w' : World)
  (resp : Response) :
  wellFormed w ->
  upload (SummaryAssembly.uploadEnv up env) w = (Ok resp, w') ->
  status resp = 200%Z ->
  let summary := SummaryAssembly.assemble env (fileId up) (clauses resp) in
  get JS.eqb (contractSummaries (store w')) (fileId up) = Some summary
  /\ exists earlier rows,
       residentClauses w' = earlier ++ rows
       /\ incl earlier (residentClauses w)
       /\ Forall2 (fun c r => r = withId (withCompletion c) (Clause.id r))
                  (clauses resp) rows
       /\ Forall (fun r => Clause.document_id r = fileId up
                           /\ Clause.completed r = Some false) rows.
Proof.
  intros Hw H Hs summary.
  apply upload_stages in H
    as [w1 [w2 [w3 [extracted [rules [R [_ [G [A [St Cs]]]]]]]]]];
    [|exact Hs].
  cbn [SummaryAssembly.uploadEnv fileId apiKey clauseEnv assembleSummary]
    in A, Cs.
  fold summary in Cs.
  pose proof (preserves_reset_attempt _ _ _ Hw R) as Hw1.
  pose proof (@preserves_read _ _ _ _ _ Hw1 G) as Hw2.
  apply getAllComplianceRules_store in G.
  apply reset_attempt_shrinks in R as [R1 _].
  destruct (storeClauses_rows _ _ _ Hw2 St) as [rows [S1 [S2 S3]]].
  assert (G' : get JS.eqb (contractSummaries (store w')) (fileId up)
               = Some summary).
  { apply call_inv in Cs as [[e [Cs _]] | [a [_ Hop]]]; [discriminate|].
    injection Hop as _ <-. cbn [contractSummaries].
    change (documentId summary) with (fileId up).
    apply (get_set_same _ _ JS.eqb KeyedFacts.str_eqb_iff). }
  split; [exact G'|].
  exists (residentClauses w2), rows.
  apply createContractSummary_clauses in Cs.
  split; [unfold residentClauses in *; now rewrite Cs|].
  split.
  { unfold residentClauses, values. rewrite G. now apply incl_map. }
  split; [exact S2|].
  destruct (DocumentFacts.analyzeDocument_returns (apiKey up) extracted rules
              (fileId up) (clauseEnv up)) as [l [A' [_ Hdoc]]].
  rewrite A in A'. injection A' as <-.
  clear -S2 Hdoc. induction S2 as [|c r l rows E _ IH]; [constructor|].
  inversion Hdoc as [|? ? Hc Hl]; subst. constructor; [|now apply IH].
  rewrite E. cbn. now split.
Qed.

(** X21. After an upload that answers 200 the summary the route
    assembled is stored under the id of the document, and the summary
    route serves it.  The clauses of the answer are stored, in order,
    after whatever the reset left of the earlier clauses, each with
    [completed] set to false and the document id of the upload. *)
Theorem uploaded_document_is_served
  (up : Upload.Env) (env : SummaryAssembly.Env) (w w' : World)
  (resp : Response) :
  wellFormed w ->
  upload (SummaryAssembly.uploadEnv up env) w = (Ok resp, w') ->
  status resp = 200%Z ->
  let summary := SummaryAssembly.assemble env (fileId up) (clauses resp) in
  get JS.eqb (contractSummaries (store w')) (fileId up) = Some summary
  /\ (forall fs,
        fst (getSummaryRoute (fileId up)
               {| store := store w'; faults := false :: fs |})
        = Ok (replyWith [] summary))
  /\ exists earlier rows,
       residentClauses w' = earlier ++ rows
       /\ incl earlier (residentClauses w)
       /\ Forall2 (fun c r => r = withId (withCompletion c) (Clause.id r))
                  (clauses resp) rows
       /\ Forall (fun r => Clause.document_id r = fileId up
                           /\ Clause.completed r = Some false) rows.
Proof.
  intros Hw H Hs summary.
  destruct (upload_served up env w w' resp Hw H Hs) as [G R].
  fold summary in G.
  split; [exact G|]. split; [|exact R].
  intros fs. unfold getSummaryRoute, tryCatch, bind, getContractSummary, call.
  cbn [faults store fst]. now rewrite G.
Qed.

Lemma uploaded_document_is_served_witness :
  status (MoreExamples.responseOf MoreExamples.uploadRun) = 200%Z
  /\ option_map documentId
       (get JS.eqb (contractSummaries (store (snd MoreExamples.uploadRun)))
            $"1700000000001")
     = Some $"1700000000001".
Proof.
  assert (R : upload (SummaryAssembly.uploadEnv Examples.uploadEnv
                        MoreExamples.summaryEnv)
                     MoreExamples.analysedWorld
              = (Ok (MoreExamples.responseOf MoreExamples.uploadRun),
                 snd MoreExamples.uploadRun))
    by (vm_compute; reflexivity).
  assert (C : status (MoreExamples.responseOf MoreExamples.uploadRun) = 200%Z)
    by (vm_compute; reflexivity).
  split; [exact C|].
  destruct (uploaded_document_is_served Examples.uploadEnv
              MoreExamples.summaryEnv _ _ _
              (ClauseRoutesFacts.wellFormed_analysed []) R C) as [H _].
  change (fileId Examples.uploadEnv) with ($"1700000000001") in H.
  rewrite H. reflexivity.
Defined.

Lemma mergeFees_keeps_names (existing extracted : list Fee) (n : str) :
  In n (map name existing) -> In n (map name (Fees.mergeFees existing extracted)).
Proof.
  intros H.
  change (Fees.mergeFees existing extracted)
    with (Keyed.merge name existing extracted).
  rewrite KeyedFacts.merge_keys. apply PaymentFacts.in_arrayFromSet.
  apply in_or_app. now left.
Qed.

(** X22. After an upload that answers 200 with at least one clause and
    has stored fee objects, the extract-fees route for the uploaded
    document answers 200 when the database answers its calls and the AI
    backend, if it is configured, lists no null among its fees, whatever
    the extraction finds; the fees it returns hold every fee name of the
    summary made at upload. *)
Theorem upload_then_extract_fees
  (up : Upload.Env) (env : SummaryAssembly.Env) (xenv : ExtractEnv)
  (w w' : World) (resp : Response) :
  wellFormed w ->
  upload (SummaryAssembly.uploadEnv up env) w = (Ok resp, w') ->
  status resp = 200%Z ->
  clauses resp <> [] ->
  Routes.hasKey xenv = false \/ ~ In None (raw_fees (financialData xenv)) ->
  exists rep fees,
    fst (extractFeesRoute (fileId up) xenv {| store := store w'; faults := [] |})
    = Ok rep
    /\ code rep = 200%Z
    /\ payload rep = Some fees
    /\ forall n,
         In n (map name (Fees.existingFees
                           (SummaryAssembly.assemble env (fileId up)
                              (clauses resp)))) ->
         In n (map name fees).
Proof.
  intros Hw H Hs Hne Hnull.
  destruct (upload_served up env w w' resp Hw H Hs)
    as [G [earlier [rows [R1 [_ [R3 R4]]]]]].
  set (w2 := {| store := store w'; faults := [] |}).
  destruct (extractFeesRoute (fileId up) xenv w2) as [r w3] eqn:E.
  pose proof E as E0. rewrite extractFeesRoute_plan in E.
  pose proof (extractionRoute_replies (fileId up) (extractedFees xenv)
                Fees.extractFeesMerge Fees.existingFees
                $"Fees extracted successfully" $"Failed to extract fees" w2)
    as [rep [P1 [P2 [_ P4]]]].
  rewrite E in P1. cbn [fst] in P1. subst r.
  destruct (P4 eq_refl) as [N500 N404].
  assert (C : code rep = 200%Z).
  { destruct P2 as [P2|[P2|[P2|[]]]]; [now symmetry | exfalso | exfalso].
    2:{ symmetry in P2. apply N500 in P2 as [_ [_ P2]].
        apply extractedFees_err in P2 as [K1 K2].
        destruct Hnull as [Hk|Hn]; [congruence | contradiction]. }
    symmetry in P2. apply N404 in P2 as [P2|P2].
    - cbn [store w2] in P2. congruence.
    - cbn [store w2] in P2. fold (residentClauses w') in P2. rewrite R1 in P2.
      rewrite filter_app in P2. apply app_eq_nil in P2 as [_ P2].
      destruct R3 as [|c r l rows' _ _]; [contradiction|].
      inversion R4 as [|? ? [Hd _] _]; subst. simpl in P2.
      rewrite Hd in P2.
      replace (JS.eqb (fileId up) (fileId up)) with true in P2;
        [discriminate|].
      symmetry. apply KeyedFacts.str_eqb_refl. }
  apply extractionRoute_inv in E
    as [rep' [[= <-] [[H1 _] | [[H1 _] | [_ [sm [x [H2 [_ [_ [H4 _]]]]]]]]]]];
    [congruence | congruence |].
  cbn [store w2] in H2. rewrite G in H2. injection H2 as <-.
  eexists rep, _. split; [reflexivity|]. split; [exact C|].
  split; [exact H4|].
  intros n Hn. unfold Fees.extractFeesMerge at 1.
  unfold Fees.existingFees at 1, Fees.withFees. cbn [fees].
  now apply mergeFees_keeps_names.
Qed.

Lemma upload_then_extract_fees_witness :
  exists rep,
    fst (extractFeesRoute $"1700000000001" MoreExamples.noBackend
           {| store := store (snd MoreExamples.uploadRun); faults := [] |})
    = Ok rep
    /\ code rep = 200%Z.
Proof.
  assert (R : upload (SummaryAssembly.uploadEnv Examples.uploadEnv
                        MoreExamples.summaryEnv)
                     MoreExamples.analysedWorld
              = (Ok (MoreExamples.responseOf MoreExamples.uploadRun),
                 snd MoreExamples.uploadRun))
    by (vm_compute; reflexivity).
  assert (C : status (MoreExamples.responseOf MoreExamples.uploadRun) = 200%Z)
    by (vm_compute; reflexivity).
  assert (N : clauses (MoreExamples.responseOf MoreExamples.uploadRun) <> [])
    by (vm_compute; discriminate).
  destruct (upload_then_extract_fees Examples.uploadEnv
              MoreExamples.summaryEnv MoreExamples.noBackend _ _ _
              (ClauseRoutesFacts.wellFormed_analysed []) R C N
              (or_introl eq_refl))
    as [rep [fees [H1 [H2 _]]]].
  exists rep. split; [exact H1 | exact H2].
Defined.

End UploadMore.

(* ================================================================= *)
(** ** The summary assembled at upload *)

Module SummaryFacts.

Import JS SummaryAssembly.

Local Open Scope nat_scope.
Local Unset Implicit Arguments.

Lemma in_firstn {X : Type} (n : nat) (l : list X) (x : X) :
  In x (firstn n l) -> In x l.
Proof.
  revert l; induction n as [|n IH]; intros [|y l]; simpl; try tauto.
  intros [H|H]; [now left | right; now apply IH].
Qed.

Lemma keyClause_nonempty (label fragment dflt : str)
  (analyzedClauses : list InsertClause.t) :
  dflt <> [] -> keyClause label fragment dflt analyzedClauses <> [].
Proof.
  intros H. unfold keyClause.
  now apply FeeExtractionFacts.orElse_nonempty.
Qed.

Lemma keyClause_origin (label fragment dflt : str)
  (analyzedClauses : list InsertClause.t) :
  keyClause label fragment dflt analyzedClauses = dflt
  \/ exists c, In c analyzedClauses
               /\ keyClause label fragment dflt analyzedClauses
                  = InsertClause.clause c
               /\ (InsertClause.category c = Some label
                   \/ includes (toLowerCase (InsertClause.clause c)) fragment
                      = true).
Proof.
  unfold keyClause.
  destruct (find _ analyzedClauses) as [c|] eqn:F; [|now left].
  apply find_some in F as [F1 F2]. cbn [option_map].
  destruct (InsertClause.clause c) as [|a s] eqn:E; [now left | right].
  exists c. split; [exact F1|]. rewrite E. split; [reflexivity|].
  apply orb_true_iff in F2 as [F2|F2]; [left | right; exact F2].
  unfold isCategory in F2. destruct (InsertClause.category c) as [k|];
    [|discriminate].
  apply PaymentFacts.eqb_true_iff in F2. now subst.
Qed.

(** X23. The summary assembled at upload carries the id of the document
    and never an empty array of fees or an empty rate card: where
    neither the AI backend nor the clauses give any, the Setup Fee and
    the two default rates stand in.  It names exactly one termination
    clause and confidentiality terms, each the text of an analysed
    clause or the fixed default, never empty.  The key obligations are
    at most three and are texts of analysed clauses that are Compliant
    with a risk score below 5.  Without an AI backend the payment terms
    are "Net 30 days" and the rate card is the default one. *)
Theorem assembled_summary_fields (env : Env) (fileId : str)
  (analyzedClauses : list InsertClause.t) :
  let s := assemble env fileId analyzedClauses in
  documentId s = fileId
  /\ (exists fs, fees s = Some fs /\ fs <> [])
  /\ (exists rc, rateCard s = Some rc /\ rc <> [])
  /\ (fees s = Some [setupFee]
      \/ (hasKey env = true /\ fees s = Some (Routes.ai_fees (financialData env)))
      \/ fees s = Some (fallbackFees analyzedClauses))
  /\ (exists t, terminationClauses s = Some [t] /\ t <> []
        /\ (t = $"Either party may terminate with 30 days written notice"
            \/ exists c, In c analyzedClauses /\ t = InsertClause.clause c))
  /\ (exists k, confidentialityTerms s = Some k /\ k <> []
        /\ (k = $"Standard confidentiality terms apply"
            \/ exists c, In c analyzedClauses /\ k = InsertClause.clause c))
  /\ (exists ko, keyObligations s = Some ko /\ List.length ko <= 3
        /\ forall t, In t ko ->
             exists c, In c analyzedClauses /\ InsertClause.clause c = t
                       /\ InsertClause.compliance_status c = $"Compliant"
                       /\ (InsertClause.risk_score c < 5)%Z)
  /\ (hasKey env = false ->
      paymentTerms s = Some [$"Net 30 days"]
      /\ rateCard s = Some defaultRateCard).
Proof.
  cbv zeta. unfold assemble.
  cbn [documentId fees rateCard terminationClauses confidentialityTerms
       keyObligations paymentTerms].
  split; [reflexivity|].
  split.
  { eexists. split; [reflexivity|].
    destruct (0 <? List.length _) eqn:L; [|discriminate].
    apply Nat.ltb_lt in L. intros E. rewrite E in L. simpl in L. lia. }
  split.
  { eexists. split; [reflexivity|].
    destruct (0 <? List.length _) eqn:L; [|discriminate].
    apply Nat.ltb_lt in L. intros E. rewrite E in L. simpl in L. lia. }
  split.
  { destruct (hasKey env).
    - destruct (List.length (Routes.ai_fees (financialData env)) =? 0) eqn:L0.
      + destruct (0 <? List.length (fallbackFees analyzedClauses));
          [right; right; reflexivity | left; reflexivity].
      + apply Nat.eqb_neq in L0.
        replace (0 <? List.length (Routes.ai_fees (financialData env)))
          with true; [right; left; now split|].
        symmetry. apply Nat.ltb_lt. lia.
    - cbn [List.length Nat.eqb].
      destruct (0 <? List.length (fallbackFees analyzedClauses));
        [right; right; reflexivity | left; reflexivity]. }
  split.
  { eexists. split; [reflexivity|].
    split; [apply keyClause_nonempty; discriminate|].
    destruct (keyClause_origin $"Termination" $"terminat"
                $"Either party may terminate with 30 days written notice"
                analyzedClauses) as [H | [c [H1 [H2 _]]]];
      [now left | right; now exists c]. }
  split.
  { eexists. split; [reflexivity|].
    split; [apply keyClause_nonempty; discriminate|].
    destruct (keyClause_origin $"Confidentiality" $"confidential"
                $"Standard confidentiality terms apply"
                analyzedClauses) as [H | [c [H1 [H2 _]]]];
      [now left | right; now exists c]. }
  split.
  { eexists. split; [reflexivity|].
    split; [rewrite length_map, length_firstn; apply Nat.le_min_l|].
    intros t Ht. apply in_map_iff in Ht as [c [<- Hc]].
    apply in_firstn in Hc. apply filter_In in Hc as [Hc K].
    unfold isKeyObligation in K. apply andb_true_iff in K as [K1 K2].
    exists c. split; [exact Hc|]. split; [reflexivity|].
    split; [now apply PaymentFacts.eqb_true_iff | now apply Z.ltb_lt]. }
  intros ->. now split.
Qed.

End SummaryFacts.

(* ================================================================= *)
(** ** Summaries written to and read from the database *)

Module DbSummariesFacts.

Import JSMap DbSummaries RoutesFacts.

Local Open Scope nat_scope.
Local Unset Implicit Arguments.

Lemma truthy_twice (o : option str) : truthy (truthy o) = truthy o.
Proof. now destruct o as [[|c s]|]. Qed.

(** X24. A summary written to the database is read back under its
    document id with the same id, parties and arrays; a text field comes
    back as it was unless it was the empty string, which comes back as
    absent.  Reading back what was read back changes nothing.  The
    write replaces the row of the document, if there is one, and touches
    no other row; the table keeps one row per document. *)
Theorem db_summary_round_trip (t : Table) (summary : ContractSummary) :
  let t' := fst (createContractSummary t summary) in
  let back := fromRow (toRow summary) in
  snd (createContractSummary t summary) = summary
  /\ getContractSummary t' (documentId summary) = Some back
  /\ documentId back = documentId summary
  /\ parties back = parties summary
  /\ paymentTerms back = paymentTerms summary
  /\ rateCard back = rateCard summary
  /\ fees back = fees summary
  /\ keyObligations back = keyObligations summary
  /\ terminationClauses back = terminationClauses summary
  /\ summary_title back = truthy (summary_title summary)
  /\ effectiveDate back = truthy (effectiveDate summary)
  /\ termLength back = truthy (termLength summary)
  /\ confidentialityTerms back = truthy (confidentialityTerms summary)
  /\ fromRow (toRow back) = back
  /\ (forall d, d <> documentId summary ->
        getContractSummary t' d = getContractSummary t d)
  /\ (NoDup (keys t) -> NoDup (keys t')).
Proof.
  cbv zeta. unfold createContractSummary, getContractSummary. cbn [fst snd].
  split; [reflexivity|].
  split.
  { now rewrite (get_set_same _ _ JS.eqb KeyedFacts.str_eqb_iff). }
  repeat (split; [reflexivity|]).
  split; [exact (truthy_twice _)|].
  split; [exact (truthy_twice _)|].
  split; [exact (truthy_twice _)|].
  split; [exact (truthy_twice _)|].
  split.
  { unfold fromRow, toRow.
    cbn [row_documentId row_title row_parties row_effectiveDate row_termLength
         row_paymentTerms row_rateCard row_fees row_keyObligations
         row_confidentialityTerms row_terminationClauses
         documentId summary_title parties effectiveDate termLength
         paymentTerms rateCard fees keyObligations confidentialityTerms
         terminationClauses].
    now rewrite !truthy_twice. }
  split.
  { intros d Hd.
    now rewrite (get_set_other _ _ JS.eqb KeyedFacts.str_eqb_iff). }
  apply (@JSMapFacts.NoDup_keys_set _ _ JS.eqb KeyedFacts.str_eqb_iff).
Qed.

End DbSummariesFacts.

(* ================================================================= *)
(** ** The sample contract text *)

Module SampleTextFacts.

Import JS Text SampleText Shapes.

Local Open Scope nat_scope.
Local Unset Implicit Arguments.

Lemma sample_clauses_tight : forallb tight sampleClauses = true.
Proof. vm_compute. reflexivity. Qed.

Lemma drawn_cases (r : Q) : In (drawn r) sampleClauses \/ drawn r = $"undefined".
Proof.
  unfold drawn, index.
  destruct (floorTimes r (Z.of_nat (List.length sampleClauses)) <? 0)%Z;
    [now right|].
  destruct (nth_error sampleClauses _) as [s|] eqn:E; [left | now right].
  apply nth_error_In in E. exact E.
Qed.

Lemma drawn_tight (r : Q) : tight (drawn r) = true.
Proof.
  destruct (drawn_cases r) as [H | ->]; [|reflexivity].
  exact (proj1 (forallb_forall _ _) sample_clauses_tight _ H).
Qed.

Lemma drawn_in_range (r : Q) :
  unitInterval r -> Double.isDouble r -> In (drawn r) sampleClauses.
Proof.
  intros H D. unfold drawn, index.
  pose proof (RandomFacts.floorTimes_range r
                (Z.of_nat (List.length sampleClauses)) H D eq_refl) as [H0 H1].
  replace (floorTimes r (Z.of_nat (List.length sampleClauses)) <? 0)%Z
    with false by (symmetry; apply Z.ltb_ge; exact H0).
  destruct (nth_error sampleClauses _) as [s|] eqn:E.
  - apply nth_error_In in E. exact E.
  - apply nth_error_None in E. lia.
Qed.

(** The text under construction is empty or ends with a blank line. *)
Lemma endsWith_open (text c : str) :
  tight c = true ->
  text = [] \/ (exists t0, text = t0 ++ paragraphBreak) ->
  endsWith text c = false.
Proof.
  unfold tight, endsWith. intros T H. apply andb_true_iff in T as [_ T].
  destruct (rev c) as [|z rc]; [discriminate|]. cbn [headOk] in T.
  destruct H as [-> | [t0 ->]]; [reflexivity|].
  rewrite rev_app_distr. cbn [paragraphBreak rev app startsWith].
  replace (Ascii.eqb z Segmenter.newline) with false; [reflexivity|].
  symmetry. apply Ascii.eqb_neq. intros ->. discriminate.
Qed.

Lemma pick_first (fuel : nat) (text : str) (draws : nat -> Q) (next : nat) :
  text = [] \/ (exists t0, text = t0 ++ paragraphBreak) ->
  pick (S fuel) text draws next = Some (drawn (draws next), S next).
Proof.
  intros H. cbn [pick]. now rewrite (endsWith_open _ _ (drawn_tight _) H).
Qed.

Lemma build_all (fuel n : nat) (draws : nat -> Q) :
  forall (text : str) (next : nat),
    text = [] \/ (exists t0, text = t0 ++ paragraphBreak) ->
    build (S fuel) n text draws next
    = Some (text ++ List.concat (map (fun i => drawn (draws i) ++ paragraphBreak)
                                (seq next n))).
Proof.
  induction n as [|n IH]; intros text next H.
  - simpl. now rewrite app_nil_r.
  - cbn [build]. rewrite (pick_first _ _ _ _ H).
    rewrite IH.
    + cbn [seq map List.concat]. now rewrite <- !app_assoc.
    + right. exists (text ++ drawn (draws next)). now rewrite <- app_assoc.
Qed.

Lemma headOk_app (a b : str) : headOk a = true -> headOk (a ++ b) = true.
Proof. destruct a; [discriminate | exact (fun H => H)]. Qed.

Lemma trimStart_headOk (s : str) : headOk s = true -> trimStart s = s.
Proof.
  destruct s as [|c s]; [discriminate|]. simpl. intros H.
  now destruct (isWhiteSpace c).
Qed.

Lemma concat_join (cs : list str) :
  cs <> [] ->
  List.concat (map (fun c => c ++ paragraphBreak) cs)
  = join paragraphBreak cs ++ paragraphBreak.
Proof.
  induction cs as [|c [|c' rest] IH]; [congruence | |]; intros _.
  - simpl. now rewrite app_nil_r.
  - change (join paragraphBreak (c :: c' :: rest))
      with (c ++ paragraphBreak ++ join paragraphBreak (c' :: rest)).
    cbn [map List.concat] in *. rewrite IH by discriminate.
    now rewrite <- !app_assoc.
Qed.

Lemma join_tight (cs : list str) :
  cs <> [] -> Forall (fun c => tight c = true) cs ->
  tight (join paragraphBreak cs) = true.
Proof.
  induction cs as [|c [|c' rest] IH]; [congruence | |]; intros _ F.
  - now inversion F.
  - inversion F as [|? ? Tc F']; subst.
    specialize (IH ltac:(discriminate) F').
    change (join paragraphBreak (c :: c' :: rest))
      with (c ++ paragraphBreak ++ join paragraphBreak (c' :: rest)).
    unfold tight in *.
    apply andb_true_iff in Tc as [Tc _]. apply andb_true_iff in IH as [_ IH].
    apply andb_true_iff. split; [now apply headOk_app|].
    rewrite !rev_app_distr. now apply headOk_app, headOk_app.
Qed.

Lemma trim_tight_break (s : str) :
  tight s = true -> trim (s ++ paragraphBreak) = s.
Proof.
  unfold tight. intros T. apply andb_true_iff in T as [T1 T2].
  unfold trim, trimEnd.
  rewrite (trimStart_headOk _ (headOk_app _ _ T1)).
  rewrite rev_app_distr. cbn [paragraphBreak rev app trimStart].
  change (isWhiteSpace Segmenter.newline) with true. cbn iota.
  rewrite (trimStart_headOk _ T2). apply rev_involutive.
Qed.

(** X25. The generated sample text is the clauses selected by the
    successive draws, one draw per clause, two clauses per page, joined
    by blank lines.  The loop meant to avoid repeating the last clause
    never draws again, equal neighbours included: when the test is made
    the text is empty or ends with a blank line, and no sample clause
    does.  A draw that is a Number of the unit interval selects one of
    the twelve sample clauses, the index being the floor of the rounded
    product. *)
Theorem sample_text_takes_one_draw_per_clause
  (fuel pages : nat) (draws : nat -> Q) :
  generateSampleContractText (S fuel) pages draws
  = Some (join paragraphBreak
               (map (fun i => drawn (draws i)) (seq 0 (pages * 2))))
  /\ (forall text i,
        text = [] \/ (exists t0, text = t0 ++ paragraphBreak) ->
        endsWith text (drawn (draws i)) = false)
  /\ (forall i, unitInterval (draws i) -> Double.isDouble (draws i) ->
        In (drawn (draws i)) sampleClauses).
Proof.
  split; [|split].
  - unfold generateSampleContractText.
    rewrite build_all by now left. cbn [option_map app]. f_equal.
    rewrite <- (map_map (fun i => drawn (draws i))
                        (fun c => c ++ paragraphBreak)).
    destruct (map (fun i => drawn (draws i)) (seq 0 (pages * 2)))
      as [|c cs] eqn:E; [reflexivity|].
    rewrite concat_join by discriminate.
    apply trim_tight_break, join_tight; [discriminate|].
    rewrite <- E. apply Forall_forall. intros x Hx.
    apply in_map_iff in Hx as [i [<- _]]. apply drawn_tight.
  - intros text i H. exact (endsWith_open _ _ (drawn_tight _) H).
  - intros i H D. now apply drawn_in_range.
Qed.

End SampleTextFacts.

(* ================================================================= *)
(** ** The bullet-point summary without AI *)

Module BulletsFacts.

Import JS Bullets.

Local Open Scope nat_scope.
Local Unset Implicit Arguments.

Lemma length_optional (b : bool) (line : str) :
  List.length (optional b line) = Nat.b2n b.
Proof. now destruct b. Qed.

Lemma risk_partition (clauses : list Clause.t) :
  count isHighRisk clauses + count isMediumRisk clauses
  + count isLowRisk clauses = List.length clauses.
Proof.
  unfold count. induction clauses as [|c cs IH]; [reflexivity|].
  cbn [filter]. unfold isHighRisk at 1, isMediumRisk at 1, isLowRisk at 1.
  destruct (7 <=? Clause.risk_score c)%Z eqn:H7,
           (4 <=? Clause.risk_score c)%Z eqn:H4,
           (Clause.risk_score c <? 7)%Z eqn:L7,
           (Clause.risk_score c <? 4)%Z eqn:L4;
    cbn [andb List.length]; try lia;
    exfalso;
    repeat match goal with
      | H : (_ <=? _)%Z = true |- _ => apply Z.leb_le in H
      | H : (_ <=? _)%Z = false |- _ => apply Z.leb_gt in H
      | H : (_ <? _)%Z = true |- _ => apply Z.ltb_lt in H
      | H : (_ <? _)%Z = false |- _ => apply Z.ltb_ge in H
      end; lia.
Qed.

Lemma status_counts (clauses : list Clause.t) :
  count (hasStatus $"Compliant") clauses
  + count (hasStatus $"Non-Compliant") clauses
  + count (hasStatus $"Review Needed") clauses
  + count (fun c => negb (hasStatus $"Compliant" c)
                    && negb (hasStatus $"Non-Compliant" c)
                    && negb (hasStatus $"Review Needed" c)) clauses
  = List.length clauses.
Proof.
  unfold count, hasStatus. induction clauses as [|c cs IH]; [reflexivity|].
  cbn [filter].
  destruct (JS.eqb (Clause.compliance_status c) $"Compliant") eqn:E1,
           (JS.eqb (Clause.compliance_status c) $"Non-Compliant") eqn:E2,
           (JS.eqb (Clause.compliance_status c) $"Review Needed") eqn:E3;
    cbn [andb negb List.length]; try lia; exfalso;
    repeat match goal with
      | H : JS.eqb _ _ = true |- _ => apply PaymentFacts.eqb_true_iff in H
      end;
    match goal with
    | H1 : ?x = _, H2 : ?x = _ |- _ =>
        rewrite H1 in H2; vm_compute in H2; discriminate H2
    end.
Qed.

(** X26. The summary without AI has between five and nine bullet
    points: the parties, the effective date, the term, the compliance
    counts and the risk counts always; the first payment term, the fees,
    the confidentiality note and the first termination clause when the
    summary has them.  The three risk counts add up to the number of
    clauses.  The three compliance counts add up to the number of
    clauses whose status is one of the three labels. *)
Theorem bullet_points_shape (summary : ContractSummary)
  (clauses : list Clause.t) :
  let bp := generateBasicBulletPoints summary clauses in
  let has {A : Type} (o : option (list A)) :=
    match o with Some (_ :: _) => 1 | _ => 0 end in
  List.length bp
  = 5 + has (paymentTerms summary) + has (fees summary)
    + match confidentialityTerms summary with Some (_ :: _) => 1 | _ => 0 end
    + has (terminationClauses summary)
  /\ 5 <= List.length bp <= 9
  /\ count isHighRisk clauses + count isMediumRisk clauses
     + count isLowRisk clauses = List.length clauses
  /\ count (hasStatus $"Compliant") clauses
     + count (hasStatus $"Non-Compliant") clauses
     + count (hasStatus $"Review Needed") clauses
     = count (fun c => hasStatus $"Compliant" c
                       || hasStatus $"Non-Compliant" c
                       || hasStatus $"Review Needed" c) clauses.
Proof.
  cbv zeta.
  assert (L : List.length (generateBasicBulletPoints summary clauses)
              = 5 + match paymentTerms summary with Some (_ :: _) => 1 | _ => 0 end
                + match fees summary with Some (_ :: _) => 1 | _ => 0 end
                + match confidentialityTerms summary with
                  | Some (_ :: _) => 1 | _ => 0 end
                + match terminationClauses summary with
                  | Some (_ :: _) => 1 | _ => 0 end).
  { unfold generateBasicBulletPoints. cbv zeta.
    rewrite !length_app, !length_optional. cbn [List.length].
    destruct (paymentTerms summary) as [[|? ?]|],
             (fees summary) as [[|? ?]|],
             (confidentialityTerms summary) as [[|? ?]|],
             (terminationClauses summary) as [[|? ?]|]; reflexivity. }
  split; [exact L|]. split.
  { rewrite L.
    destruct (paymentTerms summary) as [[|? ?]|],
             (fees summary) as [[|? ?]|],
             (confidentialityTerms summary) as [[|? ?]|],
             (terminationClauses summary) as [[|? ?]|]; lia. }
  split; [apply risk_partition|].
  pose proof (status_counts clauses) as S.
  assert (P : count (fun c => hasStatus $"Compliant" c
                              || hasStatus $"Non-Compliant" c
                              || hasStatus $"Review Needed" c) clauses
              + count (fun c => negb (hasStatus $"Compliant" c)
                                && negb (hasStatus $"Non-Compliant" c)
                                && negb (hasStatus $"Review Needed" c)) clauses
              = List.length clauses).
  { unfold count. clear S L. induction clauses as [|c cs IH]; [reflexivity|].
    cbn [filter].
    destruct (hasStatus $"Compliant" c), (hasStatus $"Non-Compliant" c),
             (hasStatus $"Review Needed" c); cbn [orb andb negb List.length];
      lia. }
  lia.
Qed.

End BulletsFacts.

(* ================================================================= *)
(** ** More on the analysis of clauses *)

Module AnalysisMore.

Import JS Analyzer OpenAI Document MatcherFacts AnalyzerFacts.

Local Open Scope nat_scope.
Local Unset Implicit Arguments.

(** X27. The AI-backed analysis of a clause always returns an analysis
    and never throws.  Its risk score is never 0: a score of 0 in the
    reply, like a missing one, becomes 5, and any other score is taken
    as it is, whatever its size.  Its category is never empty: a missing
    or empty category becomes the section, or "General". *)
Theorem ai_analysis_always_returns
  (clause : str) (rules : list ComplianceRule) (section : option str)
  (reply : AiReply) :
  exists a,
    analyzeClauseWithAI clause rules section reply = Ok a
    /\ risk_score a <> 0%Z
    /\ (exists k, category a = Some k /\ k <> [])
    /\ (forall j r, reply = Json j -> j_risk_score j = Some r ->
          risk_score a = if (r =? 0)%Z then 5%Z else r)
    /\ (forall j, reply = Json j -> j_risk_score j = None ->
          risk_score a = 5%Z)
    /\ (forall j c k, reply = Json j -> j_category j = Some (c :: k) ->
          category a = Some (c :: k)).
Proof.
  assert (G : forall o, Analyzer.orElse o (sectionOrGeneral section) <> []).
  { intros o. apply FeeExtractionFacts.orElse_nonempty.
    unfold sectionOrGeneral. apply FeeExtractionFacts.orElse_nonempty.
    discriminate. }
  unfold analyzeClauseWithAI.
  destruct reply as [| | |j]; cbn [requestAnalysis tryCatchR].
  1-3: eexists; split; [reflexivity|]; cbn [risk_score category defaultAnalysis];
       split; [discriminate|];
       split; [eexists; split; [reflexivity | exact (G None)]|];
       repeat split; intros; discriminate.
  eexists. split; [reflexivity|]. cbn [risk_score category].
  split.
  { destruct (j_risk_score j) as [[|p|p]|]; discriminate. }
  split; [eexists; split; [reflexivity | apply G]|].
  split.
  { intros j' r [= <-] ->. now destruct r. }
  split.
  { intros j' [= <-] ->. reflexivity. }
  intros j' c k [= <-] ->. reflexivity.
Qed.

Lemma issues_of_violations (clauseText : str) (rules : list ComplianceRule)
  (section : option str) (d : Draws) :
  map issue_rule (compliance_issues (basicClauseAnalysis clauseText rules section d))
  = map (fun r => Some (keyword r))
        (filter (fun r => ruleApplies clauseText r && negb (allowed r)) rules).
Proof.
  unfold basicClauseAnalysis. cbn [compliance_issues].
  rewrite matchRules_filter, map_map. cbn [issue_rule].
  induction rules as [|r rules IH]; [reflexivity|].
  cbn [filter]. destruct (ruleApplies clauseText r); cbn [andb map filter];
    [|exact IH].
  unfold toMatch at 1. cbn [isViolation].
  destruct (negb (allowed r)); cbn [map rule]; [f_equal|]; exact IH.
Qed.

(** X28. What else the heuristic analysis returns.  It lists one issue
    per forbidden rule whose keyword occurs in the clause, in the order
    of the rules, each with a description, and there are issues exactly
    when the status is Non-Compliant.  It gives no recommendation for a
    Compliant clause and one otherwise.  A clause that mentions
    "confiden" is filed under Confidentiality whatever else it mentions,
    and with a category draw that is a Number of the unit interval the
    category is one of the six labels.  The section passed in plays no
    part. *)
Theorem heuristic_analysis_outputs
  (clauseText : str) (rules : list ComplianceRule) (section : option str)
  (d : Draws) :
  let a := basicClauseAnalysis clauseText rules section d in
  map issue_rule (compliance_issues a)
  = map (fun r => Some (keyword r))
        (filter (fun r => ruleApplies clauseText r && negb (allowed r)) rules)
  /\ Forall (fun i => issue_description i <> []) (compliance_issues a)
  /\ (compliance_issues a <> [] <-> compliance_status a = NonCompliant)
  /\ List.length (recommendations a)
     = match compliance_status a with Compliant => 0 | _ => 1 end
  /\ (includes (toLowerCase clauseText) $"confiden" = true ->
      category a = Some $"Confidentiality")
  /\ (unitInterval (categoryDraw d) -> Double.isDouble (categoryDraw d) ->
      exists k, category a = Some k /\ In k categories)
  /\ a = basicClauseAnalysis clauseText rules None d.
Proof.
  intros a.
  split; [apply issues_of_violations|].
  split.
  { unfold a, basicClauseAnalysis. cbn [compliance_issues].
    apply Forall_forall. intros i Hi. apply in_map_iff in Hi as [v [<- _]].
    cbn [issue_description]. apply FeeExtractionFacts.orElse_nonempty.
    discriminate. }
  split.
  { unfold a. rewrite status_eq. unfold basicClauseAnalysis, decideStatus.
    cbn [compliance_issues].
    destruct (filter isViolation (matchRules clauseText rules)) as [|v vs];
      cbn [map List.length Z.of_nat Z.ltb Z.compare].
    - split; [congruence|].
      destruct (0 <? Z.of_nat (List.length (matchRules clauseText rules)))%Z;
        [destruct (negb _)|]; discriminate.
    - split; [reflexivity | discriminate]. }
  split.
  { unfold a, basicClauseAnalysis. cbn [recommendations compliance_status].
    pose proof (decideStatus_known (matchRules clauseText rules)
                  (filter isViolation (matchRules clauseText rules)) d) as K.
    destruct (decideStatus _ _ d); try reflexivity. discriminate K. }
  split.
  { intros H. unfold a, basicClauseAnalysis. cbn [category].
    unfold sniffCategory. cbv zeta. now rewrite H. }
  split; [|reflexivity].
  intros H D. unfold a, basicClauseAnalysis. cbn [category].
  unfold sniffCategory. cbv zeta.
  destruct (includes (toLowerCase clauseText) $"confiden");
    [eexists; split; [reflexivity | vm_compute; tauto]|].
  destruct (includes (toLowerCase clauseText) $"terminat");
    [eexists; split; [reflexivity | vm_compute; tauto]|].
  destruct (includes (toLowerCase clauseText) $"payment"
            || includes (toLowerCase clauseText) $"fee");
    [eexists; split; [reflexivity | vm_compute; tauto]|].
  destruct (includes (toLowerCase clauseText) $"liab");
    [eexists; split; [reflexivity | vm_compute; tauto]|].
  destruct (includes (toLowerCase clauseText) $"intellectual"
            || includes (toLowerCase clauseText) $"property");
    [eexists; split; [reflexivity | vm_compute; tauto]|].
  destruct (includes (toLowerCase clauseText) $"indemnif");
    [eexists; split; [reflexivity | vm_compute; tauto]|].
  unfold index.
  pose proof (RandomFacts.floorTimes_range (categoryDraw d)
                (Z.of_nat (List.length categories)) H D eq_refl) as [H0 H1].
  replace (floorTimes (categoryDraw d) (Z.of_nat (List.length categories)) <? 0)%Z
    with false by (symmetry; apply Z.ltb_ge; exact H0).
  destruct (nth_error categories _) as [k|] eqn:E.
  - exists k. split; [reflexivity|]. now apply nth_error_In in E.
  - apply nth_error_None in E. lia.
Qed.







End AnalysisMore.
